(** * Geocoding cache, coordinate parser and batch resolution

    A shallow embedding of [src/lib/geocoding.ts], of the [/api/geocode]
    route handler that calls it, of [enrichEventsWithLocations] from
    [src/lib/calendar-service.ts], and of [getZoomLevel] and the recentring
    effect of [src/components/CalendarMap.tsx], followed by the properties
    stated for them.  [calculateDistance] is left out: its trigonometry on
    doubles has no exact counterpart here.

    Modelling conventions.
    - A JavaScript string is a [string] whose characters are its UTF-16
      code units, each below 256: the strings of the Latin-1 range, on
      which [trim], [\s] and [toLowerCase] are as in JavaScript.  So the
      no-break space U+00A0 is the one character [chr 160] and the letter
      U+00E9 the one character [chr 233], not the bytes of an encoding.  A
      string with a code unit above 255 has no counterpart here.
    - A JavaScript number is an IEEE 754 double: [Double.number] has the
      finite doubles, as the rationals they are, the two infinities and
      NaN, and [Double.round] is the rounding (to nearest, ties to even)
      that [parseFloat] applies to a decimal numeral and a subtraction to
      its exact result.  The numbers the parser reads may be infinite and
      are [Double.number]s.  The coordinates of a location are finite (the
      provider sends finite numbers, the route handler validates the pair
      it takes from the parser), so [Coordinates] holds them as rationals
      [Q]; where a property depends on their being doubles it says so
      ([doublePoint], [doubleBox]).  Maxima, minima and comparisons of
      doubles are exact.  Times ([Date.now()]) are integers [Z] in
      milliseconds, sizes and indices are [nat].
    - A JavaScript [Map] is an association list in insertion order, since
      [enforceMaxCacheSize] sorts [Array.from(map.entries())] with a stable
      sort and so observes that order.
    - The module-level [geocodeCache] is threaded explicitly; the effects a
      property talks about (cache reads and writes, provider requests,
      console warnings) are recorded in a trace of [Event]s. *)

From Stdlib Require Import List Bool Arith ZArith QArith Qabs Qminmax Lia Lqa.
From Stdlib Require Import Qround Qpower.
From Stdlib Require Import Permutation Sorted.
From Stdlib Require Import Ascii String DecimalString.
Import ListNotations.

Local Open Scope list_scope.
Local Open Scope nat_scope.

(** ** JavaScript strings *)

Module JsString.

(** White space of [String.prototype.trim] and of the regex class [\s]
    among the code units below 256: TAB, LF, VT, FF, CR, SP and the
    no-break space U+00A0. *)
Definition isWhiteSpace (c : ascii) : bool :=
  let n := nat_of_ascii c in
  ((9 <=? n) && (n <=? 13)) || (n =? 32) || (n =? 160).

(** The regex class [\d]. *)
Definition isDigit (c : ascii) : bool :=
  let n := nat_of_ascii c in
  (48 <=? n) && (n <=? 57).

(** [toLowerCase] on one code unit below 256: the capital letters are A
    to Z and U+00C0 to U+00DE without the multiplication sign U+00D7, and
    the small letter of each lies 32 above it. *)
Definition isUpper (c : ascii) : bool :=
  let n := nat_of_ascii c in
  ((65 <=? n) && (n <=? 90)) ||
  ((192 <=? n) && (n <=? 222) && negb (n =? 215)).

Definition lowerChar (c : ascii) : ascii :=
  if isUpper c then ascii_of_nat (nat_of_ascii c + 32) else c.

Fixpoint toLowerCase (s : string) : string :=
  match s with
  | EmptyString => EmptyString
  | String c s' => String (lowerChar c) (toLowerCase s')
  end.

Fixpoint trimStart (s : string) : string :=
  match s with
  | EmptyString => EmptyString
  | String c s' => if isWhiteSpace c then trimStart s' else s
  end.

Fixpoint rev_append (s acc : string) : string :=
  match s with
  | EmptyString => acc
  | String c s' => rev_append s' (String c acc)
  end.

Definition rev (s : string) : string := rev_append s EmptyString.

Definition trimEnd (s : string) : string := rev (trimStart (rev s)).

Definition trim (s : string) : string := trimEnd (trimStart s).

(** [s.startsWith(p)], returning what follows the prefix. *)
Fixpoint stripPrefix (p s : string) : option string :=
  match p, s with
  | EmptyString, _ => Some s
  | String a p', String b s' =>
      if Ascii.eqb a b then stripPrefix p' s' else None
  | String _ _, EmptyString => None
  end.

(** [s.replace(pat, '')] for a string pattern: the first occurrence of
    [pat] is removed, a string without occurrence is returned as is. *)
Fixpoint removeFirst (pat s : string) : string :=
  match stripPrefix pat s with
  | Some rest => rest
  | None =>
      match s with
      | EmptyString => EmptyString
      | String c s' => String c (removeFirst pat s')
      end
  end.

End JsString.

(** ** JavaScript numbers *)

Module Double.

(** A Number: a finite double, given by the rational it is, an infinity or
    NaN.  (The two zeros are not told apart: nothing here divides.) *)
Inductive number :=
| Finite (q : Q)
| PosInfinity
| NegInfinity
| NaN.

(** [floor(log2 q)] for a positive [q]: the exponent of its binade. *)
Definition ilog2 (q : Q) : Z :=
  let k := (Z.log2 (Qnum q) - Z.log2 (Zpos (Qden q)))%Z in
  if Qle_bool (2 ^ k) q then k else (k - 1)%Z.

(** The nearest integer, a tie going to the even one. *)
Definition rne (x : Q) : Z :=
  let f := Qfloor x in
  match (x - inject_Z f ?= 1 # 2)%Q with
  | Lt => f
  | Gt => (f + 1)%Z
  | Eq => if Z.even f then f else (f + 1)%Z
  end.

(** The distance between the doubles around a positive [q]: a double has
    53 significant bits, and no double is finer than [2 ^ -1074]. *)
Definition ulp (q : Q) : Q := (2 ^ Z.max (ilog2 q - 52) (-1074))%Q.

(** The multiple of [ulp q] nearest to a positive [q]. *)
Definition nearest (q : Q) : Q := (inject_Z (rne (q / ulp q)) * ulp q)%Q.

(** The largest double is [2 ^ 1024 - 2 ^ 971]; what rounds beyond it is
    an infinity. *)
Definition overflows (r : Q) : bool := Qle_bool (2 ^ 1024) r.

(** The Number value of a real: rounding to nearest, ties to even. *)
Definition round (q : Q) : number :=
  match (q ?= 0)%Q with
  | Eq => Finite 0
  | Gt => let r := nearest q in
          if overflows r then PosInfinity else Finite (Qred r)
  | Lt => let r := nearest (- q) in
          if overflows r then NegInfinity else Finite (Qred (- r))
  end.

(** The rational a finite Number is; 0 stands in for the others. *)
Definition value (x : number) : Q :=
  match x with
  | Finite q => q
  | _ => 0%Q
  end.

(** [x <= y]; every comparison with NaN is false. *)
Definition leb (x y : number) : bool :=
  match x, y with
  | NaN, _ | _, NaN => false
  | NegInfinity, _ => true
  | _, PosInfinity => true
  | Finite a, Finite b => Qle_bool a b
  | _, _ => false
  end.

(** [x < y] *)
Definition ltb (x y : number) : bool :=
  match x, y with
  | NaN, _ | _, NaN => false
  | Finite a, Finite b => negb (Qle_bool b a)
  | NegInfinity, NegInfinity => false
  | PosInfinity, PosInfinity => false
  | NegInfinity, _ => true
  | _, PosInfinity => true
  | _, _ => false
  end.

(** [x >= y] and [x > y] *)
Definition geb (x y : number) : bool := leb y x.

Definition gtb (x y : number) : bool := ltb y x.

(** [x === y] *)
Definition eqb (x y : number) : bool :=
  match x, y with
  | Finite a, Finite b => Qeq_bool a b
  | PosInfinity, PosInfinity => true
  | NegInfinity, NegInfinity => true
  | _, _ => false
  end.

(** [a - b] on finite doubles: the exact difference, rounded. *)
Definition sub (a b : Q) : number := round (a - b).

(** [Math.abs] *)
Definition abs (x : number) : number :=
  match x with
  | Finite q => Finite (Qabs q)
  | PosInfinity | NegInfinity => PosInfinity
  | NaN => NaN
  end.

(** [Math.max] of two arguments *)
Definition max (x y : number) : number :=
  match x, y with
  | NaN, _ | _, NaN => NaN
  | _, _ => if leb x y then y else x
  end.

(** A rational that is a double. *)
Definition isDouble (q : Q) : bool := eqb (round q) (Finite q).

End Double.

(** ** JavaScript [Map] with string keys *)

Module JsMap.
Section WithValue.
Context {V : Type}.

Definition t := list (string * V).

Definition keys (m : t) : list string := map fst m.

Fixpoint get (k : string) (m : t) : option V :=
  match m with
  | [] => None
  | (k', v) :: m' => if String.eqb k k' then Some v else get k m'
  end.

Definition has (k : string) (m : t) : bool :=
  match get k m with Some _ => true | None => false end.

(** [map.set(k, v)]: an existing key keeps its place in the iteration
    order, a new key goes last. *)
Fixpoint set (k : string) (v : V) (m : t) : t :=
  match m with
  | [] => [(k, v)]
  | (k', v') :: m' =>
      if String.eqb k k' then (k, v) :: m' else (k', v') :: set k v m'
  end.

Fixpoint delete (k : string) (m : t) : t :=
  match m with
  | [] => []
  | (k', v') :: m' =>
      if String.eqb k k' then m' else (k', v') :: delete k m'
  end.

Definition size (m : t) : nat := List.length m.

End WithValue.
Arguments t : clear implicits.
End JsMap.

(** ** Data model ([src/types]) *)

Record Coordinates := mkCoordinates { lat : Q; lng : Q }.

Record Components := mkComponents {
  country : option string;
  state : option string;
  city : option string;
  street : option string
}.

Record GeocodedLocation := mkGeocodedLocation {
  address : string;
  formattedAddress : string;
  coordinates : Coordinates;
  placeId : option string;
  components : option Components
}.

Record CacheEntry := mkCacheEntry {
  data : GeocodedLocation;
  timestamp : Z;
  ttl : Z
}.

(** ** The geocode cache *)

Definition Cache := JsMap.t CacheEntry.

Definition CACHE_TTL : Z := 60 * 60 * 1000.

Definition MAX_CACHE_SIZE : nat := 1000.

Definition getCacheKey (addr : string) : string :=
  JsString.trim (JsString.toLowerCase addr).

(** [Array.prototype.sort] with a comparator [(a, b) => key(a) - key(b)]
    on integer keys.  The sort is stable: elements with equal keys keep
    their relative order. *)
Section StableSort.
Context {A : Type} (key : A -> Z).

Fixpoint insertBy (x : A) (l : list A) : list A :=
  match l with
  | [] => [x]
  | y :: l' =>
      if (key x <=? key y)%Z then x :: l else y :: insertBy x l'
  end.

Fixpoint sortBy (l : list A) : list A :=
  match l with
  | [] => []
  | x :: l' => insertBy x (sortBy l')
  end.
End StableSort.

Definition entryTimestamp (e : string * CacheEntry) : Z := timestamp (snd e).

(** The loop [for (i = 0; i < toDelete; i++) cache.delete(entries[i][0])]. *)
Definition deleteAll (victims : list (string * CacheEntry)) (c : Cache)
    : Cache :=
  fold_left (fun m e => JsMap.delete (fst e) m) victims c.

Definition enforceMaxCacheSize (c : Cache) : Cache :=
  if MAX_CACHE_SIZE <? JsMap.size c then
    let entries := sortBy entryTimestamp c in
    let toDelete := List.length entries - MAX_CACHE_SIZE in
    deleteAll (firstn toDelete entries) c
  else c.

(** [now] is the value of [Date.now()] read by the call. *)
Definition getCachedResult (addr : string) (now : Z) (c : Cache)
    : option GeocodedLocation * Cache :=
  let key := getCacheKey addr in
  match JsMap.get key c with
  | None => (None, c)
  | Some entry =>
      if (now - timestamp entry >? ttl entry)%Z
      then (None, JsMap.delete key c)
      else (Some (data entry), c)
  end.

Definition cacheResult (addr : string) (location : GeocodedLocation)
    (now : Z) (c : Cache) : Cache :=
  let key := getCacheKey addr in
  enforceMaxCacheSize
    (JsMap.set key (mkCacheEntry location now CACHE_TTL) c).

(** [clearExpiredCache], run by the maintenance interval. *)
Definition clearExpiredCache (now : Z) (c : Cache) : Cache :=
  filter (fun kv => negb (now - timestamp (snd kv) >? ttl (snd kv))%Z) c.

(** ** The regular expressions of the coordinate parser *)

Module Regex.

Inductive atom :=
| Lit (c : ascii)     (* a literal character *)
| Digit               (* \d *)
| Space.              (* \s *)

Definition test (a : atom) (c : ascii) : bool :=
  match a with
  | Lit c' => Ascii.eqb c' c
  | Digit => JsString.isDigit c
  | Space => JsString.isWhiteSpace c
  end.

(** The constructs the two patterns use; quantifiers are greedy and
    apply to single characters. *)
Inductive re :=
| Bol                      (* ^ *)
| Eol                      (* $ *)
| One (a : atom)           (* a *)
| Opt (a : atom)           (* a? *)
| Star (a : atom)          (* a* *)
| Plus (a : atom)          (* a+ *)
| Cat (r1 r2 : re)         (* r1 r2 *)
| Group (r : re).          (* ( r ) *)

Definition Captures := list string.

Section Matcher.
Context {R : Type}.

(** A continuation receives the text just consumed, the index reached,
    the rest of the input and the captures so far; it answers [None]
    to make the matcher backtrack. *)
Definition Cont := string -> nat -> string -> Captures -> option R.

(** Greedy [a*]: the longest run first, then shorter ones. *)
Fixpoint star (a : atom) (i : nat) (s : string)
    (k : string -> nat -> string -> option R) : option R :=
  match s with
  | String c s' =>
      if test a c then
        match star a (S i) s' (fun t => k (String c t)) with
        | Some x => Some x
        | None => k EmptyString i s
        end
      else k EmptyString i s
  | EmptyString => k EmptyString i s
  end.

Fixpoint run (r : re) (i : nat) (s : string) (caps : Captures)
    (k : Cont) : option R :=
  match r with
  | Bol => if i =? 0 then k EmptyString i s caps else None
  | Eol =>
      match s with
      | EmptyString => k EmptyString i s caps
      | String _ _ => None
      end
  | One a =>
      match s with
      | String c s' =>
          if test a c then k (String c EmptyString) (S i) s' caps
          else None
      | EmptyString => None
      end
  | Opt a =>
      match s with
      | String c s' =>
          if test a c then
            match k (String c EmptyString) (S i) s' caps with
            | Some x => Some x
            | None => k EmptyString i s caps
            end
          else k EmptyString i s caps
      | EmptyString => k EmptyString i s caps
      end
  | Star a => star a i s (fun t j rest => k t j rest caps)
  | Plus a =>
      match s with
      | String c s' =>
          if test a c
          then star a (S i) s' (fun t j rest => k (String c t) j rest caps)
          else None
      | EmptyString => None
      end
  | Cat r1 r2 =>
      run r1 i s caps (fun t1 j rest1 caps1 =>
        run r2 j rest1 caps1 (fun t2 j' rest2 caps2 =>
          k (t1 ++ t2)%string j' rest2 caps2))
  | Group r' =>
      run r' i s caps (fun t j rest caps' => k t j rest (caps' ++ [t]))
  end.
End Matcher.

(** The result of [String.prototype.match] without the [g] flag. *)
Record Match := mkMatch {
  index : nat;
  matched : string;        (* m[0] *)
  groups : Captures        (* m[1], m[2], ... *)
}.

(** The leftmost match: every start index is tried in turn. *)
Fixpoint execFrom (r : re) (i : nat) (s : string) : option Match :=
  match run r i s [] (fun t _ _ caps => Some (mkMatch i t caps)) with
  | Some m => Some m
  | None =>
      match s with
      | String _ s' => execFrom r (S i) s'
      | EmptyString => None
      end
  end.

Definition exec (r : re) (s : string) : option Match := execFrom r 0 s.

End Regex.

Import Regex.

Declare Scope re_scope.
Delimit Scope re_scope with re.
Infix ";;" := Cat (at level 61, right associativity) : re_scope.

(** ** [parseCoordinatesFromLocation] and [isValidCoordinates] *)

Definition chr (n : nat) : ascii := ascii_of_nat n.

(** NUM, the pattern [-?\d+\.?\d*] of a decimal numeral. *)
Definition numberRe : re :=
  (Opt (Lit (chr 45)) ;; Plus Digit ;; Opt (Lit (chr 46)) ;; Star Digit)%re.

(** The first pattern of the parser: an opening parenthesis, NUM as
    group 1, a comma, [\s*], NUM as group 2, a closing parenthesis. *)
Definition parenPattern : re :=
  (One (Lit (chr 40)) ;; Group numberRe ;; One (Lit (chr 44)) ;; Star Space ;;
   Group numberRe ;; One (Lit (chr 41)))%re.

(** The second pattern: [^], NUM as group 1, [\s*], a comma, [\s*], NUM
    as group 2, [$]. *)
Definition coordPattern : re :=
  (Bol ;; Group numberRe ;; Star Space ;; One (Lit (chr 44)) ;; Star Space ;;
   Group numberRe ;; Eol)%re.

(** [parseFloat]: leading white space is skipped, then the longest prefix
    that is a decimal literal (sign, digits, fraction) is read and rounded
    to a Number; without a digit the result is NaN.  Exponents and
    [Infinity] are not read: no text captured by NUM contains them. *)
Definition digitValue (c : ascii) : Z := Z.of_nat (nat_of_ascii c) - 48.

Fixpoint readDigits (s : string) (acc : Z) (n : nat) : Z * nat * string :=
  match s with
  | String c s' =>
      if JsString.isDigit c
      then readDigits s' (10 * acc + digitValue c)%Z (S n)
      else (acc, n, s)
  | EmptyString => (acc, n, s)
  end.

Definition readSign (s : string) : bool * string :=
  match s with
  | String c s' =>
      if Ascii.eqb c (chr 45) then (true, s')
      else if Ascii.eqb c (chr 43) then (false, s')
      else (false, s)
  | EmptyString => (false, s)
  end.

Definition decimal (negative : bool) (int frac : Z) (fracDigits : nat) : Q :=
  let scale := (10 ^ Z.of_nat fracDigits)%Z in
  let q := Qmake (int * scale + frac) (Z.to_pos scale) in
  if negative then Qopp q else q.

Definition parseFloat (s : string) : Double.number :=
  let '(negative, s1) := readSign (JsString.trimStart s) in
  let '(int, ni, s2) := readDigits s1 0%Z 0 in
  match s2 with
  | String c s3 =>
      if Ascii.eqb c (chr 46) then
        let '(frac, nf, _) := readDigits s3 0%Z 0 in
        if (ni =? 0) && (nf =? 0) then Double.NaN
        else Double.round (decimal negative int frac nf)
      else if ni =? 0 then Double.NaN
      else Double.round (decimal negative int 0 0)
  | EmptyString =>
      if ni =? 0 then Double.NaN else Double.round (decimal negative int 0 0)
  end.

(** The pair [{ lat: number; lng: number }] the parser returns: what
    [parseFloat] read, finite or not. *)
Record LatLng := mkLatLng { latitude : Double.number; longitude : Double.number }.

Record Parsed := mkParsed {
  parsedAddress : string;
  parsedCoordinates : option LatLng
}.

(** [parseFloat(m[i])]; a group that is missing is [undefined], which
    reads as NaN. *)
Definition parseGroup (m : Match) (i : nat) : Double.number :=
  match nth_error (groups m) (i - 1) with
  | Some g => parseFloat g
  | None => Double.NaN
  end.

(** The object [{ lat: parseFloat(m[1]), lng: parseFloat(m[2]) }]. *)
Definition coordinatesOfMatch (m : Match) : LatLng :=
  mkLatLng (parseGroup m 1) (parseGroup m 2).

Definition parseCoordinatesFromLocation (location : string) : Parsed :=
  match exec parenPattern location with
  | Some parenMatch =>
      mkParsed (JsString.trim (JsString.removeFirst (matched parenMatch) location))
               (Some (coordinatesOfMatch parenMatch))
  | None =>
      match exec coordPattern location with
      | Some coordMatch => mkParsed location (Some (coordinatesOfMatch coordMatch))
      | None => mkParsed location None
      end
  end.

Definition isValidCoordinates (la ln : Double.number) : bool :=
  Double.geb la (Double.Finite (-90)) && Double.leb la (Double.Finite 90) &&
  Double.geb ln (Double.Finite (-180)) && Double.leb ln (Double.Finite 180).

(** Coordinates that passed [isValidCoordinates] are finite: as the
    coordinates of a location they are the rationals they stand for. *)
Definition coordinatesOfLatLng (p : LatLng) : Coordinates :=
  mkCoordinates (Double.value (latitude p)) (Double.value (longitude p)).

(** ** The geocoding provider and the environment *)

Module Google.

Record AddressComponent := mkAddressComponent {
  long_name : string;
  short_name : string;
  types : list string
}.

(** One candidate of the provider; [location] is [geometry.location]. *)
Record Result := mkResult {
  formatted_address : string;
  location : Coordinates;
  place_id : option string;
  address_components : option (list AddressComponent)
}.

Record Payload := mkPayload {
  error_message : option string;
  results : option (list Result)
}.

(** What [await fetch(url)] followed by [await response.json()] gives:
    [fetch] rejects with an error, or answers with [ok], [status] and a
    body that is either unreadable ([json] throws) or a payload. *)
Inductive FetchOutcome :=
| FetchRejected (message : string)
| FetchResponse (ok : bool) (status : Z) (body : string + Payload).

End Google.

Record World := mkWorld {
  GOOGLE_MAPS_API_KEY : option string;        (* process.env *)
  fetch : string -> Google.FetchOutcome;      (* by requested address *)
  latency : string -> nat                     (* ms until the answer is handled *)
}.

(** Truthiness of an optional string: [undefined] and [''] are falsy. *)
Definition truthy (s : option string) : bool :=
  match s with
  | Some s' => negb (String.length s' =? 0)
  | None => false
  end.

Inductive Event :=
| CacheRead (key : string)              (* geocodeCache.get(key) *)
| CacheWrite (key : string)             (* geocodeCache.set(key, entry) *)
| ProviderRequest (addr : string)       (* fetch of the geocode URL *)
| ConsoleWarn (failures : JsMap.t string).

(** How a promise settles; a rejection carries [error.message]. *)
Inductive Settled (A : Type) :=
| Fulfilled (value : A)
| Rejected (message : string).
Arguments Fulfilled {A} value.
Arguments Rejected {A} message.

Definition dquote : string := String (chr 34) EmptyString.

Definition stringOfNumber (z : Z) : string :=
  NilZero.string_of_int (Z.to_int z).

(** ** [geocodeAddress] *)

Definition includes (x : string) (l : list string) : bool :=
  existsb (String.eqb x) l.

Definition noComponents : Components := mkComponents None None None None.

Definition addComponent (acc : Components) (c : Google.AddressComponent)
    : Components :=
  if includes "country" (Google.types c) then
    mkComponents (Some (Google.long_name c)) (state acc) (city acc) (street acc)
  else if includes "administrative_area_level_1" (Google.types c) then
    mkComponents (country acc) (Some (Google.short_name c)) (city acc) (street acc)
  else if includes "locality" (Google.types c) then
    mkComponents (country acc) (state acc) (Some (Google.long_name c)) (street acc)
  else if includes "route" (Google.types c) then
    mkComponents (country acc) (state acc) (city acc) (Some (Google.long_name c))
  else acc.

(** [Object.keys(components).length > 0] *)
Definition hasKeys (c : Components) : bool :=
  match country c, state c, city c, street c with
  | None, None, None, None => false
  | _, _, _, _ => true
  end.

Definition componentsOf (r : Google.Result) : option Components :=
  match Google.address_components r with
  | Some l =>
      let cs := fold_left addComponent l noComponents in
      if hasKeys cs then Some cs else None
  | None => None
  end.

Definition locationOf (addr : string) (r : Google.Result) : GeocodedLocation :=
  mkGeocodedLocation addr (Google.formatted_address r) (Google.location r)
    (Google.place_id r) (componentsOf r).

(** [geocodeAddress] runs without interruption up to [await fetch(...)]
    and again from the answer to its end.  [geocodeAddressStart] is the
    first part, read at time [now]: either the promise is already settled,
    or a request is in flight. *)
Inductive Started :=
| Done (r : Settled GeocodedLocation)
| Awaiting.

Definition geocodeAddressStart (w : World) (now : Z) (addr : string)
    (c : Cache) : Started * Cache * list Event :=
  let '(cached, c1) := getCachedResult addr now c in
  let tr := [CacheRead (getCacheKey addr)] in
  match cached with
  | Some loc => (Done (Fulfilled loc), c1, tr)
  | None =>
      if String.length (JsString.trim addr) =? 0 then
        (Done (Rejected "Address is required"), c1, tr)
      else if negb (truthy (GOOGLE_MAPS_API_KEY w)) then
        (Done (Rejected "GOOGLE_MAPS_API_KEY is not configured"), c1, tr)
      else (Awaiting, c1, tr ++ [ProviderRequest addr])
  end.

(** The second part, run at time [now] when the answer has arrived. *)
Definition geocodeAddressFinish (w : World) (now : Z) (addr : string)
    (c : Cache) : Settled GeocodedLocation * Cache * list Event :=
  match fetch w addr with
  | Google.FetchRejected message => (Rejected message, c, [])
  | Google.FetchResponse ok status body =>
      if negb ok then
        (Rejected ("Geocoding API error: " ++ stringOfNumber status)%string, c, [])
      else
        match body with
        | inl message => (Rejected message, c, [])
        | inr payload =>
            if truthy (Google.error_message payload) then
              (Rejected ("Geocoding API error: " ++
                         match Google.error_message payload with
                         | Some m => m
                         | None => EmptyString
                         end)%string, c, [])
            else
              match Google.results payload with
              | Some (result :: _) =>
                  let location := locationOf addr result in
                  (Fulfilled location, cacheResult addr location now c,
                   [CacheWrite (getCacheKey addr)])
              | _ =>
                  (Rejected ("No geocoding results found for " ++ dquote ++
                             addr ++ dquote)%string, c, [])
              end
        end
  end.

Definition geocodeAddress (w : World) (now : Z) (addr : string) (c : Cache)
    : Settled GeocodedLocation * Cache * list Event :=
  let '(started, c1, tr1) := geocodeAddressStart w now addr c in
  match started with
  | Done r => (r, c1, tr1)
  | Awaiting =>
      let '(r, c2, tr2) :=
        geocodeAddressFinish w (now + Z.of_nat (latency w addr)) addr c1 in
      (r, c2, tr1 ++ tr2)
  end.

(** ** [batchGeocodeAddresses] *)

(** [Array.from(new Set(addresses))]: the first occurrence of each string,
    in order. *)
Definition uniqueOf (addresses : list string) : list string :=
  fold_left
    (fun acc a => if existsb (String.eqb a) acc then acc else acc ++ [a])
    addresses [].

(** [array.slice(i, j)] *)
Definition slice {A : Type} (i j : nat) (l : list A) : list A :=
  firstn (j - i) (skipn i l).

Record BatchState := mkBatchState {
  results : JsMap.t GeocodedLocation;
  errors : JsMap.t string;
  cache : Cache;
  trace : list Event
}.

(** The handlers chained on each promise: [then] records a success in
    [results], [catch] records the message of a failure in [errors]. *)
Definition settle (addr : string) (r : Settled GeocodedLocation)
    (st : BatchState) : BatchState :=
  match r with
  | Fulfilled loc =>
      mkBatchState (JsMap.set addr loc (results st)) (errors st)
                   (cache st) (trace st)
  | Rejected message =>
      mkBatchState (results st) (JsMap.set addr message (errors st))
                   (cache st) (trace st)
  end.

(** [chunk.map(addr => geocodeAddress(addr)...)]: every call runs up to its
    first [await] before the next one starts. *)
Fixpoint startAll (w : World) (now : Z) (chunk : list string)
    (st : BatchState) : list (string * Started) * BatchState :=
  match chunk with
  | [] => ([], st)
  | addr :: chunk' =>
      let '(s, c1, tr) := geocodeAddressStart w now addr (cache st) in
      let st1 := mkBatchState (results st) (errors st) c1 (trace st ++ tr) in
      let '(started, st2) := startAll w now chunk' st1 in
      ((addr, s) :: started, st2)
  end.

(** The promises settled without a request run their handlers first. *)
Fixpoint settleDone (started : list (string * Started)) (st : BatchState)
    : BatchState :=
  match started with
  | [] => st
  | (addr, Done r) :: started' => settleDone started' (settle addr r st)
  | (_, Awaiting) :: started' => settleDone started' st
  end.

Fixpoint awaited (started : list (string * Started)) : list string :=
  match started with
  | [] => []
  | (_, Done _) :: started' => awaited started'
  | (addr, Awaiting) :: started' => addr :: awaited started'
  end.

(** The requests in flight are answered in the order of their latencies,
    and each call then runs to its end. *)
Fixpoint finishAll (w : World) (now : Z) (arrivals : list string)
    (st : BatchState) : BatchState :=
  match arrivals with
  | [] => st
  | addr :: arrivals' =>
      let '(r, c1, tr) :=
        geocodeAddressFinish w (now + Z.of_nat (latency w addr)) addr
                             (cache st) in
      let st1 := mkBatchState (results st) (errors st) c1 (trace st ++ tr) in
      finishAll w now arrivals' (settle addr r st1)
  end.

Definition latencyOf (w : World) (addr : string) : Z :=
  Z.of_nat (latency w addr).

(** One iteration of the loop up to [await Promise.all(promises)]; the
    second component is the time at which the last promise has settled. *)
Definition processChunk (w : World) (now : Z) (chunk : list string)
    (st : BatchState) : BatchState * Z :=
  let '(started, st1) := startAll w now chunk st in
  let st2 := settleDone started st1 in
  let arrivals := sortBy (latencyOf w) (awaited started) in
  let st3 := finishAll w now arrivals st2 in
  (st3, fold_left (fun t a => Z.max t (now + latencyOf w a)) arrivals now).

(** The loop [for (let i = 0; i < unique.length; i += parallel)].  It does
    not terminate when [parallel] is 0 and the list is not empty, so the
    model counts iterations down from [fuel] and answers [None] when they
    run out. *)
Fixpoint batchLoop (fuel : nat) (w : World) (parallel : nat)
    (uniqueAddresses : list string) (i : nat) (now : Z) (st : BatchState)
    : option BatchState :=
  if i <? List.length uniqueAddresses then
    match fuel with
    | 0 => None
    | S fuel' =>
        let chunk := slice i (i + parallel) uniqueAddresses in
        let '(st1, now1) := processChunk w now chunk st in
        let now2 :=
          if i + parallel <? List.length uniqueAddresses
          then (now1 + 100)%Z else now1 in
        batchLoop fuel' w parallel uniqueAddresses (i + parallel) now2 st1
    end
  else Some st.

(** What a call leaves behind: the value returned (the [results] map
    only), the [errors] map it dropped after logging it, the cache and the
    effects. *)
Record BatchRun := mkBatchRun {
  returned : JsMap.t GeocodedLocation;
  dropped : JsMap.t string;
  cacheAfter : Cache;
  effects : list Event
}.

Definition batchGeocodeAddresses (w : World) (addresses : list string)
    (parallel : nat) (now : Z) (c : Cache) : option BatchRun :=
  let uniqueAddresses := uniqueOf addresses in
  match batchLoop (S (List.length uniqueAddresses)) w parallel uniqueAddresses
                  0 now (mkBatchState [] [] c []) with
  | Some st =>
      let warn :=
        if 0 <? JsMap.size (errors st) then [ConsoleWarn (errors st)] else [] in
      Some (mkBatchRun (results st) (errors st) (cache st) (trace st ++ warn))
  | None => None
  end.

(** ** The route handler [POST /api/geocode] *)

(** A value of the parsed request body, as far as the handler looks at
    it: strings, arrays (whose items are strings or not), [undefined], and
    any other value with its truthiness. *)
Inductive JsItem :=
| IString (s : string)
| IOther.

Inductive JsValue :=
| VUndefined
| VString (s : string)
| VArray (items : list JsItem)
| VOther (truthyValue : bool).

Definition isTruthy (v : JsValue) : bool :=
  match v with
  | VUndefined => false
  | VString s => negb (String.length s =? 0)
  | VArray _ => true
  | VOther b => b
  end.

(** The fields [{ address, addresses, batch = false }] of the body. *)
Record Body := mkBody {
  bodyAddress : JsValue;
  bodyAddresses : JsValue;
  bodyBatch : JsValue
}.

Inductive Response :=
| GeocodingOk (payload : GeocodedLocation)
| BatchOk (payload : JsMap.t GeocodedLocation) (geocoded cached failed : Z)
| ErrorResponse (status : nat) (error message : string)
| Unanswered.

(** [addresses.filter(addr => typeof addr === 'string' &&
    addr.trim().length > 0)] *)
Fixpoint validAddressesOf (addresses : list JsItem) : list string :=
  match addresses with
  | [] => []
  | IString s :: rest =>
      if 0 <? String.length (JsString.trim s)
      then s :: validAddressesOf rest
      else validAddressesOf rest
  | IOther :: rest => validAddressesOf rest
  end.

Definition handleBatchGeocoding (w : World) (now : Z)
    (addresses : list JsItem) (c : Cache) : Response * Cache * list Event :=
  if List.length addresses =? 0 then
    (ErrorResponse 400 "Bad request" "addresses must be a non-empty array", c, [])
  else if 100 <? List.length addresses then
    (ErrorResponse 400 "Bad request" "Maximum 100 addresses per batch request",
     c, [])
  else
    let validAddresses := validAddressesOf addresses in
    if List.length validAddresses =? 0 then
      (ErrorResponse 400 "Bad request" "No valid addresses provided", c, [])
    else
      match batchGeocodeAddresses w validAddresses 5 now c with
      | Some run =>
          let geocoded := Z.of_nat (JsMap.size (returned run)) in
          let failed := (Z.of_nat (List.length validAddresses) - geocoded)%Z in
          (BatchOk (returned run) geocoded 0 failed,
           cacheAfter run, effects run)
      | None => (Unanswered, c, [])
      end.

(** The answer built from [await geocodeAddress(address)]: the location on
    success, status 404 with the message of the error otherwise. *)
Definition answerOf (run : Settled GeocodedLocation * Cache * list Event)
    : Response * Cache * list Event :=
  match run with
  | (Fulfilled loc, c1, tr) => (GeocodingOk loc, c1, tr)
  | (Rejected message, c1, tr) =>
      (ErrorResponse 404 "Geocoding failed" message, c1, tr)
  end.

Definition POST (w : World) (now : Z) (body : Body) (c : Cache)
    : Response * Cache * list Event :=
  let single :=
    match bodyAddress body with
    | VString addr =>
        if String.length addr =? 0 then
          (ErrorResponse 400 "Bad request"
             "address parameter is required and must be a string", c, [])
        else
          let parsed := parseCoordinatesFromLocation addr in
          match parsedCoordinates parsed with
          | Some coords =>
              if isValidCoordinates (latitude coords) (longitude coords) then
                (GeocodingOk
                   (mkGeocodedLocation addr addr (coordinatesOfLatLng coords)
                      None None),
                 c, [])
              else answerOf (geocodeAddress w now addr c)
          | None => answerOf (geocodeAddress w now addr c)
          end
    | _ =>
        (ErrorResponse 400 "Bad request"
           "address parameter is required and must be a string", c, [])
    end in
  match bodyAddresses body with
  | VArray items =>
      if isTruthy (bodyBatch body) then handleBatchGeocoding w now items c
      else single
  | _ => single
  end.

(** ** [getZoomLevel] ([CalendarMap.tsx]) *)

Record Bounds := mkBounds { ne : Coordinates; sw : Coordinates }.

(** The differences are taken in double arithmetic; [0.1] is the double
    nearest to one tenth. *)
Definition getZoomLevel (bounds : Bounds) : Z :=
  let latDiff := Double.abs (Double.sub (lat (ne bounds)) (lat (sw bounds))) in
  let lngDiff := Double.abs (Double.sub (lng (ne bounds)) (lng (sw bounds))) in
  if Double.eqb latDiff (Double.Finite 0) && Double.eqb lngDiff (Double.Finite 0)
  then 14%Z
  else
    let maxDiff := Double.max latDiff lngDiff in
    if Double.gtb maxDiff (Double.Finite 10) then 6%Z
    else if Double.gtb maxDiff (Double.Finite 5) then 8%Z
    else if Double.gtb maxDiff (Double.Finite 1) then 10%Z
    else if Double.gtb maxDiff (Double.round (1 # 10)) then 12%Z
    else 14%Z.

(** The larger of the two extents of a box, as a real. *)
Definition span (b : Bounds) : Q :=
  Qmax (Qabs (lat (ne b) - lat (sw b))) (Qabs (lng (ne b) - lng (sw b))).

(** A point and a box whose coordinates are doubles. *)
Definition doublePoint (p : Coordinates) : bool :=
  Double.isDouble (lat p) && Double.isDouble (lng p).

Definition doubleBox (b : Bounds) : bool :=
  doublePoint (ne b) && doublePoint (sw b).

(** Two Numbers are the same Number. *)
Definition sameNumber (x y : Double.number) : Prop :=
  match x, y with
  | Double.Finite a, Double.Finite b => (a == b)%Q
  | Double.PosInfinity, Double.PosInfinity => True
  | Double.NegInfinity, Double.NegInfinity => True
  | Double.NaN, Double.NaN => True
  | _, _ => False
  end.

(** ** Filling the cache

    A run of [cacheResult] calls, each with its address, its location and
    the time read by [Date.now()]. *)
Record Insertion := mkInsertion {
  insAddress : string;
  insLocation : GeocodedLocation;
  insTime : Z
}.

Definition insertionKey (i : Insertion) : string := getCacheKey (insAddress i).

(** The entry [cacheResult] stores for an insertion. *)
Definition entryOf (i : Insertion) : string * CacheEntry :=
  (insertionKey i, mkCacheEntry (insLocation i) (insTime i) CACHE_TTL).

Definition insertAll (ins : list Insertion) (c : Cache) : Cache :=
  fold_left (fun c i => cacheResult (insAddress i) (insLocation i) (insTime i) c)
            ins c.

(** A cache as the module can hold it at time [now]: a [Map] has no
    duplicate key, [enforceMaxCacheSize] has run after every insertion, and
    no entry was stamped later than [now]. *)
Definition cacheAt (now : Z) (c : Cache) : Prop :=
  NoDup (JsMap.keys c) /\
  JsMap.size c <= MAX_CACHE_SIZE /\
  Forall (fun e => (entryTimestamp e <= now)%Z) c.

(** ** Decimal numerals and white space, as written

    The strings the second pattern is meant for are built from these. *)

Inductive digit := D0 | D1 | D2 | D3 | D4 | D5 | D6 | D7 | D8 | D9.

Definition digitIndex (d : digit) : nat :=
  match d with
  | D0 => 0 | D1 => 1 | D2 => 2 | D3 => 3 | D4 => 4
  | D5 => 5 | D6 => 6 | D7 => 7 | D8 => 8 | D9 => 9
  end.

Definition digitChar (d : digit) : ascii := chr (48 + digitIndex d).

Fixpoint digitsText (l : list digit) : string :=
  match l with
  | [] => EmptyString
  | d :: l' => String (digitChar d) (digitsText l')
  end.

Fixpoint digitsValueFrom (acc : Z) (l : list digit) : Z :=
  match l with
  | [] => acc
  | d :: l' => digitsValueFrom (10 * acc + Z.of_nat (digitIndex d))%Z l'
  end.

Definition digitsValue (l : list digit) : Z := digitsValueFrom 0%Z l.

(** An optional minus sign, one digit or more, and optionally a point
    followed by digits. *)
Record Numeral := mkNumeral {
  negative : bool;
  intHead : digit;
  intTail : list digit;
  fraction : option (list digit)
}.

Definition fractionDigits (n : Numeral) : list digit :=
  match fraction n with Some f => f | None => [] end.

Definition numeralText (n : Numeral) : string :=
  ((if negative n then String (chr 45) EmptyString else EmptyString) ++
   (digitsText (intHead n :: intTail n) ++
    ((match fraction n with
      | Some _ => String (chr 46) EmptyString
      | None => EmptyString
      end) ++ digitsText (fractionDigits n))))%string.

(** The number a numeral denotes. *)
Definition numeralValue (n : Numeral) : Q :=
  decimal (negative n) (digitsValue (intHead n :: intTail n))
          (digitsValue (fractionDigits n)) (List.length (fractionDigits n)).

Inductive white :=
| Tab | LineFeed | VerticalTab | FormFeed | CarriageReturn | Blank | NoBreakSpace.

Definition whiteChar (x : white) : ascii :=
  match x with
  | Tab => chr 9 | LineFeed => chr 10 | VerticalTab => chr 11
  | FormFeed => chr 12 | CarriageReturn => chr 13 | Blank => chr 32
  | NoBreakSpace => chr 160
  end.

Fixpoint whiteText (l : list white) : string :=
  match l with
  | [] => EmptyString
  | x :: l' => String (whiteChar x) (whiteText l')
  end.

(** The string [<lat>,<lng>], with white space around the comma. *)
Definition pairText (n1 n2 : Numeral) (w1 w2 : list white) : string :=
  (numeralText n1 ++ whiteText w1 ++ String (chr 44) (whiteText w2 ++ numeralText n2))%string.

(** Every character of a string passes a test. *)
Fixpoint allChars (p : ascii -> bool) (s : string) : bool :=
  match s with
  | EmptyString => true
  | String ch s' => p ch && allChars p s'
  end.

(** A string does not begin with a character that passes a test. *)
Definition stopsAt (p : ascii -> bool) (s : string) : bool :=
  match s with
  | EmptyString => true
  | String ch _ => negb (p ch)
  end.

(** ** How the matcher runs on a text it is meant for

    [matchesOn r t g stop]: on an input that begins with [t] and goes on
    with a rest accepted by [stop], the first thing [r] tries is to
    consume exactly [t], adding the captures [g]; if the continuation
    succeeds there, so does the run. *)
Definition matchesOn (r : re) (t : string) (g : Captures)
    (stop : string -> bool) : Prop :=
  forall (R : Type) (k : @Cont R) (rest : string) (caps : Captures) (x : R),
    stop rest = true ->
    (forall j, k t j rest (caps ++ g) = Some x) ->
    forall i, run r i (t ++ rest) caps k = Some x.

(** What may follow a numeral: anything but a digit or a point. *)
Definition numberStop (rest : string) : bool :=
  stopsAt (fun ch => JsString.isDigit ch || Ascii.eqb (chr 46) ch) rest.

Definition atEnd (rest : string) : bool :=
  match rest with
  | EmptyString => true
  | String _ _ => false
  end.

(** A string without opening parenthesis. *)
Definition noParen (s : string) : bool :=
  allChars (fun ch => negb (Ascii.eqb (chr 40) ch)) s.

(** A string with a character that is not white space. *)
Fixpoint hasInk (s : string) : bool :=
  match s with
  | EmptyString => false
  | String ch s' => negb (JsString.isWhiteSpace ch) || hasInk s'
  end.

(** The two maps of a batch split the addresses [done]: each of them is a
    key of one map, and no string is a key of both. *)
Definition partitioned (done : list string) (st : BatchState) : Prop :=
  forall a,
    (JsMap.has a (results st) || JsMap.has a (errors st) = true <-> In a done) /\
    JsMap.has a (results st) && JsMap.has a (errors st) = false.

(** The addresses of a chunk settled before any answer arrives. *)
Fixpoint settledEarly (started : list (string * Started)) : list string :=
  match started with
  | [] => []
  | (addr, Done _) :: started' => addr :: settledEarly started'
  | (_, Awaiting) :: started' => settledEarly started'
  end.

(** ** Decision procedures for the hypotheses on insertions *)

Fixpoint distinctb (l : list string) : bool :=
  match l with
  | [] => true
  | x :: l' => negb (existsb (String.eqb x) l') && distinctb l'
  end.

Fixpoint nondecreasingb (l : list Z) : bool :=
  match l with
  | x :: (y :: _) as l' => (x <=? y)%Z && nondecreasingb l'
  | _ => true
  end.

(** ** Sample data *)

Definition paris : GeocodedLocation :=
  mkGeocodedLocation "Paris" "Paris, France"
    (mkCoordinates (488566 # 10000) (23522 # 10000)) (Some "place-paris"%string) None.

(** From (34, -118.25) to (48.75, 2.25). *)
Definition continentBox : Bounds :=
  mkBounds (mkCoordinates (195 # 4) (9 # 4))
           (mkCoordinates (34 # 1) (-473 # 4)).

Definition pointBox : Bounds :=
  mkBounds (mkCoordinates (195 # 4) (9 # 4))
           (mkCoordinates (195 # 4) (9 # 4)).

(** The double a decimal literal of the source stands for. *)
Definition literal (q : Q) : Q := Double.value (Double.round q).

(** From latitude [1.0] to latitude [1.1], and from latitude 0 to latitude
    [0.1], on one meridian. *)
Definition tenthBox : Bounds :=
  mkBounds (mkCoordinates (literal (11 # 10)) 0) (mkCoordinates 1 0).

Definition tenthFromZeroBox : Bounds :=
  mkBounds (mkCoordinates (literal (1 # 10)) 0) (mkCoordinates 0 0).

(** From latitude [-2 ^ -60] to latitude 10, on one meridian. *)
Definition hairBox : Bounds :=
  mkBounds (mkCoordinates 10 0)
           (mkCoordinates (-1 # 1152921504606846976) 0).


Definition stopNumber (n : nat) : string :=
  ("Stop " ++ NilZero.string_of_uint (Nat.to_uint n))%string.

Definition stopInsertion (n : nat) : Insertion :=
  mkInsertion (stopNumber n) paris (Z.of_nat n).

(** One insertion more than the cache can hold. *)
Definition stopInsertions : list Insertion :=
  map stopInsertion (seq 0 (S MAX_CACHE_SIZE)).

(** As many insertions, the first of them stamped by a clock that is set
    back afterwards. *)
Definition lateInsertion : Insertion := mkInsertion "Stop late" paris 5000.

Definition lateFirst : list Insertion :=
  lateInsertion :: map stopInsertion (seq 0 MAX_CACHE_SIZE).

(** An environment without provider credential. *)
Definition unconfigured : World :=
  mkWorld None (fun _ => Google.FetchRejected "fetch failed") (fun _ => 0).

(** A provider whose only candidate lies beyond the north pole. *)
Definition polarResult : Google.Result :=
  Google.mkResult "Beyond the pole" (mkCoordinates (91 # 1) (0 # 1)) None None.

Definition polarWorld : World :=
  mkWorld (Some "key"%string)
    (fun _ => Google.FetchResponse true 200
                (inr (Google.mkPayload None (Some [polarResult]))))
    (fun _ => 120).

(** A provider that finds nothing. *)
Definition emptyWorld : World :=
  mkWorld (Some "key"%string)
    (fun _ => Google.FetchResponse true 200
                (inr (Google.mkPayload None (Some []))))
    (fun _ => 120).

(** The body [{ address }] of a single-address request. *)
Definition singleRequest (addr : string) : Body :=
  mkBody (VString addr) VUndefined VUndefined.

(** The body [{ addresses, batch: true }] of a batch request. *)
Definition batchRequest (addresses : list JsItem) : Body :=
  mkBody VUndefined (VArray addresses) (VOther true).

(** A cache whose only entry, stored at time 0, is for Paris. *)
Definition parisCache : Cache := [("paris"%string, mkCacheEntry paris 0 CACHE_TTL)].

Definition newYork : Numeral :=
  mkNumeral false D4 [D0] (Some [D7; D1; D2; D8]).

Definition west74 : Numeral :=
  mkNumeral true D7 [D4] (Some [D0; D0; D6; D0]).

(** A provider that knows Paris and nothing else. *)
Definition parisResult : Google.Result :=
  Google.mkResult "Paris, France"
    (mkCoordinates (488566 # 10000) (23522 # 10000))
    (Some "place-paris"%string) None.

Definition parisWorld : World :=
  mkWorld (Some "key"%string)
    (fun addr =>
       Google.FetchResponse true 200
         (inr (Google.mkPayload None
                 (Some (if String.eqb addr "Paris" then [parisResult] else [])))))
    (fun _ => 120).

(** The no-break space U+00A0, and a word in capital and in small
    letters: U+00C9 is E with acute accent, U+00E9 its small letter. *)
Definition nbsp : string := String (chr 160) EmptyString.

Definition ECOLE : string := String (chr 201) "COLE".

Definition ecole : string := String (chr 233) "cole".

(** A provider that answers every request with New York. *)
Definition newYorkResult : Google.Result :=
  Google.mkResult "New York, NY, USA"
    (mkCoordinates (Double.value (Double.round (407128 # 10000)))
                   (Double.value (Double.round (-740060 # 10000))))
    (Some "place-nyc"%string) None.

Definition newYorkWorld : World :=
  mkWorld (Some "key"%string)
    (fun _ => Google.FetchResponse true 200
                (inr (Google.mkPayload None (Some [newYorkResult]))))
    (fun _ => 120).

Definition notFound (addr : string) : string :=
  ("No geocoding results found for " ++ dquote ++ addr ++ dquote)%string.

(** ** More of [geocoding.ts]: bounds, cache maintenance, statistics *)

(** One turn of the loop of [calculateBounds] on
    [(maxLat, minLat, maxLng, minLng)]. *)
Definition boundsStep (acc : Q * Q * Q * Q) (point : Coordinates)
    : Q * Q * Q * Q :=
  let '(maxLat, minLat, maxLng, minLng) := acc in
  (Qmax maxLat (lat point), Qmin minLat (lat point),
   Qmax maxLng (lng point), Qmin minLng (lng point)).

(** [calculateBounds]: the loop runs over every point, the first one
    included, from the coordinates of the first one. *)
Definition calculateBounds (points : list Coordinates) : Bounds :=
  match points with
  | [] => mkBounds (mkCoordinates 0 0) (mkCoordinates 0 0)
  | first :: _ =>
      let '(maxLat, minLat, maxLng, minLng) :=
        fold_left boundsStep points
                  (lat first, lat first, lng first, lng first) in
      mkBounds (mkCoordinates maxLat maxLng) (mkCoordinates minLat minLng)
  end.

(** [clearGeocodeCache] *)
Definition clearGeocodeCache (c : Cache) : Cache := [].

Record CacheStats := mkCacheStats {
  statsSize : nat;
  statsMaxSize : nat;
  statsTtl : Z
}.

(** [getGeocachStats] *)
Definition getGeocachStats (c : Cache) : CacheStats :=
  mkCacheStats (JsMap.size c) MAX_CACHE_SIZE CACHE_TTL.

(** The calls the module makes on its cache, each at the time it reads
    from [Date.now()]. *)
Inductive CacheCall :=
| CallGet (addr : string)                              (* getCachedResult *)
| CallPut (addr : string) (location : GeocodedLocation) (* cacheResult *)
| CallSweep                                            (* clearExpiredCache *)
| CallClear.                                           (* clearGeocodeCache *)

Definition runCall (now : Z) (call : CacheCall) (c : Cache) : Cache :=
  match call with
  | CallGet addr => snd (getCachedResult addr now c)
  | CallPut addr location => cacheResult addr location now c
  | CallSweep => clearExpiredCache now c
  | CallClear => clearGeocodeCache c
  end.

Definition runCalls (calls : list (Z * CacheCall)) (c : Cache) : Cache :=
  fold_left (fun c '(now, call) => runCall now call c) calls c.

(** An entry is expired at [now]. *)
Definition expiredAt (now : Z) (e : CacheEntry) : bool :=
  (now - timestamp e >? ttl e)%Z.

(** ** The view of the map ([CalendarMap.tsx])

    The effect that recentres the map when the events change, for a loaded
    map and a non-empty list of events: [points] are the coordinates of
    the geocoded events, [initial] the [center] and [zoom] properties.
    The centre is the exact midpoint of the box, of which the code takes
    the nearest double. *)
Record MapView := mkMapView { viewCenter : Coordinates; viewZoom : Z }.

Definition fitView (initial : MapView) (points : list Coordinates) : MapView :=
  match points with
  | [] => initial
  | [coords] => mkMapView coords 14
  | _ =>
      let bounds := calculateBounds points in
      mkMapView
        (mkCoordinates ((lat (ne bounds) + lat (sw bounds)) / 2)
                       ((lng (ne bounds) + lng (sw bounds)) / 2))
        (getZoomLevel bounds)
  end.

(** A point inside a box, borders included. *)
Definition inBox (b : Bounds) (p : Coordinates) : Prop :=
  (lat (sw b) <= lat p /\ lat p <= lat (ne b) /\
   lng (sw b) <= lng p /\ lng p <= lng (ne b))%Q.

Definition sanFrancisco : Coordinates :=
  mkCoordinates (377749 # 10000) (-1224194 # 10000).

Definition losAngeles : Coordinates :=
  mkCoordinates (340522 # 10000) (-1182437 # 10000).

(** Two points whose coordinates are doubles: (37.75, -122.5) and
    (37.8125, -122.4375). *)
Definition office : Coordinates := mkCoordinates (151 # 4) (-245 # 2).

Definition cafe : Coordinates := mkCoordinates (605 # 16) (-1959 # 16).

(** Requests to the provider recorded in a trace. *)
Definition isProviderRequest (e : Event) : bool :=
  match e with
  | ProviderRequest _ => true
  | _ => false
  end.

Definition providerRequests (tr : list Event) : list Event :=
  filter isProviderRequest tr.

(** A cache with one live and one stale entry at time 4000000. *)
Definition mixedCache : Cache :=
  [("paris"%string, mkCacheEntry paris 0 CACHE_TTL);
   ("lyon"%string, mkCacheEntry paris 3000000 CACHE_TTL)].

(** A string without comma. *)
Definition noComma (s : string) : bool :=
  allChars (fun ch => negb (Ascii.eqb (chr 44) ch)) s.

(** A pattern that cannot match at the start of any string accepted by
    [P], whatever follows the pattern. *)
Definition failsOn (P : string -> bool) (r : re) : Prop :=
  forall (R : Type) (k : @Cont R) (i : nat) (s : string) (caps : Captures),
    P s = true -> run r i s caps k = None.

(** The text [(<lat>,<lng>)], with white space after the comma. *)
Definition parenText (n1 n2 : Numeral) (w : list white) : string :=
  String (chr 40)
    (numeralText n1 ++
     String (chr 44) (whiteText w ++ numeralText n2 ++ String (chr 41) EmptyString))%string.

Definition room37 : Numeral :=
  mkNumeral false D3 [D7] (Some [D7; D7; D4; D9]).

Definition west122 : Numeral :=
  mkNumeral true D1 [D2; D2] (Some [D4; D1; D9; D4]).

(** What a batch has asked the provider so far: each request is for a
    different address among [done]. *)
Definition askedOnce (done : list string) (st : BatchState) : Prop :=
  exists asked,
    providerRequests (trace st) = map ProviderRequest asked /\
    NoDup asked /\ incl asked done.

(** The cache of a batch is a [Map] within the size limit. *)
Definition cacheBounded (c : Cache) : Prop :=
  NoDup (JsMap.keys c) /\ JsMap.size c <= MAX_CACHE_SIZE.

(** The two maps of a batch are [Map]s and split the addresses [done]. *)
Definition wellSplit (done : list string) (st : BatchState) : Prop :=
  partitioned done st /\
  NoDup (JsMap.keys (results st)) /\ NoDup (JsMap.keys (errors st)).

Definition cacheBoundedIn (done : list string) (st : BatchState) : Prop :=
  cacheBounded (cache st).

(** ** What a call answered

    What a call to [geocodeAddress] settles with, and what the answer of
    the provider makes of an address once the request for it is out: the
    end of [geocodeAddress] looks neither at the clock nor at the cache to
    decide it. *)
Definition settledWith (run : Settled GeocodedLocation * Cache * list Event)
    : Settled GeocodedLocation :=
  fst (fst run).

Definition providerAnswer (w : World) (addr : string)
    : Settled GeocodedLocation :=
  settledWith (geocodeAddressFinish w 0 addr []).

(** [r] is what a call of [geocodeAddress] for [addr] settles with, at
    some time and on some cache. *)
Definition answers (w : World) (addr : string) (r : Settled GeocodedLocation)
    : Prop :=
  exists t c, settledWith (geocodeAddress w t addr c) = r.

(** Where a location served under [key] comes from: an entry of the cache
    [c0] as it was to begin with, or the answer of the provider for one of
    the addresses [asked] that has this key. *)
Definition sourced (w : World) (c0 : Cache) (asked : list string)
    (key : string) (loc : GeocodedLocation) : Prop :=
  (exists e, In (key, e) c0 /\ data e = loc) \/
  (exists b, In b asked /\ getCacheKey b = key /\
             providerAnswer w b = Fulfilled loc).

(** What [then] or [catch] may record for an address. *)
Definition recorded (w : World) (c0 : Cache) (asked : list string)
    (addr : string) (r : Settled GeocodedLocation) : Prop :=
  match r with
  | Fulfilled loc =>
      answers w addr (Fulfilled loc) /\ sourced w c0 asked (getCacheKey addr) loc
  | Rejected message => answers w addr (Rejected message)
  end.

Definition isWarning (e : Event) : bool :=
  match e with
  | ConsoleWarn _ => true
  | _ => false
  end.

Definition quiet (tr : list Event) : bool :=
  forallb (fun e => negb (isWarning e)) tr.

(** The state of a batch holds what the calls answered and nothing else:
    every entry of [results] and of [errors] is what [geocodeAddress]
    settled with for its address, every location comes from the initial
    cache or from the provider, and nothing was logged. *)
Definition faithful (w : World) (c0 : Cache) (done : list string)
    (st : BatchState) : Prop :=
  (forall k e, In (k, e) (cache st) -> sourced w c0 done k (data e)) /\
  (forall a loc, JsMap.get a (results st) = Some loc ->
     recorded w c0 done a (Fulfilled loc)) /\
  (forall a m, JsMap.get a (errors st) = Some m ->
     recorded w c0 done a (Rejected m)) /\
  quiet (trace st) = true.

Definition settledWell (w : World) (c0 : Cache) (done : list string)
    (st : BatchState) : Prop :=
  wellSplit done st /\ faithful w c0 done st.

(** ** Enriching events ([calendar-service.ts])

    Of a calendar event the enrichment reads the location only; the other
    fields are copied as they are, and are stood for here by [eventId] and
    [summary]. *)
Record CalendarEvent := mkCalendarEvent {
  eventId : string;
  summary : string;
  eventLocation : option string
}.

Record EventWithLocation := mkEventWithLocation {
  enrichedEvent : CalendarEvent;
  geocoded : option GeocodedLocation;
  geocodeError : option string
}.

(** [event.location!] *)
Definition locationText (e : CalendarEvent) : string :=
  match eventLocation e with
  | Some s => s
  | None => EmptyString
  end.

(** [getEventsWithLocations]: [e.location && e.location.trim().length > 0] *)
Definition getEventsWithLocations (events : list CalendarEvent)
    : list CalendarEvent :=
  filter (fun e => truthy (eventLocation e) &&
                   (0 <? String.length (JsString.trim (locationText e))))
         events.

(** A promise of the array given to [Promise.all]: pending ([None]) or
    settled. *)
Definition Promise := option (Settled GeocodedLocation).

Definition promiseOf (s : Started) : Promise :=
  match s with
  | Done r => Some r
  | Awaiting => None
  end.

(** [events.map(async (event) => ... geocodeAddress(event.location!) ...)]:
    each call runs up to its first [await] before the next one starts. *)
Fixpoint startEvents (w : World) (now : Z) (events : list CalendarEvent)
    (c : Cache) (tr : list Event) : list Promise * Cache * list Event :=
  match events with
  | [] => ([], c, tr)
  | e :: rest =>
      let '(s, c1, tr1) := geocodeAddressStart w now (locationText e) c in
      let '(promises, c2, tr2) := startEvents w now rest c1 (tr ++ tr1) in
      (promiseOf s :: promises, c2, tr2)
  end.

(** The pending promises, by index, with the address each waits for. *)
Fixpoint pendingFrom (i : nat) (events : list CalendarEvent)
    (promises : list Promise) : list (nat * string) :=
  match events, promises with
  | e :: events', None :: promises' =>
      (i, locationText e) :: pendingFrom (S i) events' promises'
  | _ :: events', Some _ :: promises' => pendingFrom (S i) events' promises'
  | _, _ => []
  end.

Fixpoint resolveAt (i : nat) (r : Settled GeocodedLocation)
    (promises : list Promise) : list Promise :=
  match promises, i with
  | [], _ => []
  | _ :: promises', 0 => Some r :: promises'
  | p :: promises', S i' => p :: resolveAt i' r promises'
  end.

(** The answers arrive in the order of their latencies; each call then
    runs to its end and settles its promise. *)
Fixpoint finishEvents (w : World) (now : Z) (arrivals : list (nat * string))
    (promises : list Promise) (c : Cache) (tr : list Event)
    : list Promise * Cache * list Event :=
  match arrivals with
  | [] => (promises, c, tr)
  | (i, addr) :: arrivals' =>
      let '(r, c1, tr1) :=
        geocodeAddressFinish w (now + Z.of_nat (latency w addr)) addr c in
      finishEvents w now arrivals' (resolveAt i r promises) c1 (tr ++ tr1)
  end.

(** The two branches of the [try] of each call. *)
Definition attach (e : CalendarEvent) (r : Settled GeocodedLocation)
    : EventWithLocation :=
  match r with
  | Fulfilled loc => mkEventWithLocation e (Some loc) None
  | Rejected message => mkEventWithLocation e None (Some message)
  end.

(** [await Promise.all(...)]: the values in the order of the events, once
    every promise is settled. *)
Fixpoint collect (events : list CalendarEvent) (promises : list Promise)
    : option (list EventWithLocation) :=
  match events, promises with
  | [], [] => Some []
  | e :: events', Some r :: promises' =>
      option_map (cons (attach e r)) (collect events' promises')
  | _, _ => None
  end.

Definition enrichEventsWithLocations (w : World) (now : Z)
    (events : list CalendarEvent) (c : Cache)
    : option (list EventWithLocation) * Cache * list Event :=
  let eventsWithLocation := filter (fun e => truthy (eventLocation e)) events in
  let '(promises, c1, tr1) := startEvents w now eventsWithLocation c [] in
  let arrivals :=
    sortBy (fun p => latencyOf w (snd p))
           (pendingFrom 0 eventsWithLocation promises) in
  let '(settled, c2, tr2) := finishEvents w now arrivals promises c1 tr1 in
  (collect eventsWithLocation settled, c2, tr2).


Definition standup : CalendarEvent :=
  mkCalendarEvent "ev-1" "Stand-up" (Some "Paris"%string).

Definition review : CalendarEvent :=
  mkCalendarEvent "ev-2" "Review" (Some "Paris"%string).

Definition remote : CalendarEvent :=
  mkCalendarEvent "ev-3" "Remote call" None.




(** ** Address components, as found

    The last element of a list that passes a test. *)
Definition lastWhere {A : Type} (p : A -> bool) (l : list A) : option A :=
  find p (rev l).

Definition typed (t : string) (comp : Google.AddressComponent) : bool :=
  includes t (Google.types comp).

(** The types a component is filed under, in the order of the [else if]
    chain: the first of the four that it has. *)
Definition filedAsCountry (comp : Google.AddressComponent) : bool :=
  typed "country" comp.

Definition filedAsState (comp : Google.AddressComponent) : bool :=
  negb (typed "country" comp) && typed "administrative_area_level_1" comp.

Definition filedAsCity (comp : Google.AddressComponent) : bool :=
  negb (typed "country" comp) &&
  negb (typed "administrative_area_level_1" comp) && typed "locality" comp.

Definition filedAsStreet (comp : Google.AddressComponent) : bool :=
  negb (typed "country" comp) &&
  negb (typed "administrative_area_level_1" comp) &&
  negb (typed "locality" comp) && typed "route" comp.

Definition franceComponent : Google.AddressComponent :=
  Google.mkAddressComponent "France" "FR" ["country"; "political"]%string.

Definition idfComponent : Google.AddressComponent :=
  Google.mkAddressComponent "Ile-de-France" "IDF"
    ["administrative_area_level_1"; "political"]%string.

Definition parisComponent : Google.AddressComponent :=
  Google.mkAddressComponent "Paris" "Paris" ["locality"; "political"]%string.
(** * Properties *)

(** ** Rounding to a double *)

Section DoubleFacts.
Local Open Scope Q_scope.
Import Double.

Lemma two_neq_0 : ~ 2 == 0.
Proof. discriminate. Qed.

Lemma pow2_pos (k : Z) : 0 < 2 ^ k.
Proof. apply Qpower_0_lt. reflexivity. Qed.

Lemma pow2_add (a b : Z) : 2 ^ (a + b) == 2 ^ a * 2 ^ b.
Proof. apply Qpower_plus, two_neq_0. Qed.

Lemma pow2_le (a b : Z) : (a <= b)%Z -> 2 ^ a <= 2 ^ b.
Proof. intros H. apply Qpower_le_compat_l; [exact H | discriminate]. Qed.

Lemma pow2_lt (a b : Z) : (a < b)%Z -> 2 ^ a < 2 ^ b.
Proof. intros H. apply Qpower_lt_compat_l; [exact H | reflexivity]. Qed.

Lemma pow2_lt_inv (a b : Z) : 2 ^ a < 2 ^ b -> (a < b)%Z.
Proof. intros H. apply (Qpower_lt_compat_l_inv 2); [exact H | reflexivity]. Qed.

Lemma pow2_Z (k : Z) : (0 <= k)%Z -> 2 ^ k == inject_Z (2 ^ k).
Proof. intros H. symmetry. apply (Zpower_Qpower 2 k H). Qed.

Lemma pow2_succ (k : Z) : 2 ^ (k + 1) == 2 * 2 ^ k.
Proof. rewrite pow2_add. change (2 ^ 1) with 2. ring. Qed.

(** [ilog2] is the exponent of the binade of a positive rational. *)
Lemma ilog2_spec (q : Q) :
  0 < q -> 2 ^ ilog2 q <= q /\ q < 2 ^ (ilog2 q + 1).
Proof.
  intros Hq. destruct q as [n d].
  assert (Hn : (0 < n)%Z).
  { unfold Qlt in Hq. simpl in Hq. lia. }
  unfold ilog2. cbn [Qnum Qden].
  set (a := Z.log2 n). set (b := Z.log2 (Z.pos d)).
  destruct (Z.log2_spec n Hn) as [Ha1 Ha2]. fold a in Ha1, Ha2.
  destruct (Z.log2_spec (Z.pos d) eq_refl) as [Hb1 Hb2]. fold b in Hb1, Hb2.
  assert (Ha0 : (0 <= a)%Z) by apply Z.log2_nonneg.
  assert (Hb0 : (0 <= b)%Z) by apply Z.log2_nonneg.
  set (N := inject_Z n). set (D := inject_Z (Z.pos d)).
  assert (Hq' : n # d == N / D) by apply Qmake_Qdiv.
  assert (HD : 0 < D) by reflexivity.
  assert (HN1 : 2 ^ a <= N).
  { rewrite pow2_Z by exact Ha0. unfold N. rewrite <- Zle_Qle. exact Ha1. }
  assert (HN2 : N < 2 ^ (a + 1)).
  { rewrite pow2_Z by lia. unfold N. rewrite <- Zlt_Qlt.
    now rewrite <- Z.add_1_r in Ha2. }
  assert (HD1 : 2 ^ b <= D).
  { rewrite pow2_Z by exact Hb0. unfold D. rewrite <- Zle_Qle. exact Hb1. }
  assert (HD2 : D < 2 ^ (b + 1)).
  { rewrite pow2_Z by lia. unfold D. rewrite <- Zlt_Qlt.
    now rewrite <- Z.add_1_r in Hb2. }
  assert (Hmul : (n # d) * D == N).
  { rewrite Hq'. field. intros E. rewrite E in HD. discriminate HD. }
  assert (Hup : n # d < 2 ^ (a - b + 1)).
  { apply (Qmult_lt_r _ _ D HD). rewrite Hmul.
    apply (Qlt_le_trans _ _ _ HN2).
    replace (a + 1)%Z with ((a - b + 1) + b)%Z by lia.
    rewrite pow2_add. apply Qmult_le_l; [apply pow2_pos | exact HD1]. }
  assert (Hlow : 2 ^ (a - b - 1) < n # d).
  { apply (Qmult_lt_r _ _ D HD). rewrite Hmul.
    apply (Qlt_le_trans _ (2 ^ (a - b - 1) * 2 ^ (b + 1))).
    - apply Qmult_lt_l; [apply pow2_pos | exact HD2].
    - rewrite <- pow2_add. replace (a - b - 1 + (b + 1))%Z with a by lia.
      exact HN1. }
  destruct (Qle_bool (2 ^ (a - b)) (n # d)) eqn:E.
  - apply Qle_bool_iff in E. split; assumption.
  - assert (E' : n # d < 2 ^ (a - b)).
    { apply Qnot_le_lt. intros H. apply Qle_bool_iff in H. congruence. }
    split; [apply Qlt_le_weak, Hlow |].
    replace (a - b - 1 + 1)%Z with (a - b)%Z by lia. exact E'.
Qed.

Lemma ilog2_unique (q : Q) (k : Z) :
  2 ^ k <= q -> q < 2 ^ (k + 1) -> ilog2 q = k.
Proof.
  intros H1 H2.
  assert (Hq : 0 < q) by (apply (Qlt_le_trans _ (2 ^ k)); [apply pow2_pos | exact H1]).
  destruct (ilog2_spec q Hq) as [H3 H4].
  assert (A : (k < ilog2 q + 1)%Z).
  { apply pow2_lt_inv. apply (Qle_lt_trans _ q); assumption. }
  assert (B : (ilog2 q < k + 1)%Z).
  { apply pow2_lt_inv. apply (Qle_lt_trans _ q); assumption. }
  lia.
Qed.

Lemma ilog2_comp (x y : Q) : 0 < x -> x == y -> ilog2 x = ilog2 y.
Proof.
  intros Hx E. destruct (ilog2_spec x Hx) as [H1 H2].
  symmetry. apply ilog2_unique; rewrite <- E; assumption.
Qed.

Lemma ilog2_mono (x y : Q) : 0 < x -> x <= y -> (ilog2 x <= ilog2 y)%Z.
Proof.
  intros Hx Hxy.
  assert (Hy : 0 < y) by (apply (Qlt_le_trans _ x); assumption).
  destruct (ilog2_spec x Hx) as [H1 _]. destruct (ilog2_spec y Hy) as [_ H2].
  assert (A : (ilog2 x < ilog2 y + 1)%Z).
  { apply pow2_lt_inv. apply (Qle_lt_trans _ x); [exact H1 |].
    apply (Qle_lt_trans _ y); assumption. }
  lia.
Qed.

(** Rounding to the nearest integer. *)
Lemma rne_comp (x y : Q) : x == y -> rne x = rne y.
Proof.
  intros E. unfold rne. rewrite (Qfloor_comp x y E).
  assert (E' : x - inject_Z (Qfloor y) == y - inject_Z (Qfloor y))
    by (rewrite E; reflexivity).
  now rewrite (Qcompare_comp _ _ E' (1 # 2) (1 # 2) (Qeq_refl _)).
Qed.

Lemma rne_inject_Z (z : Z) : rne (inject_Z z) = z.
Proof.
  unfold rne. rewrite Qfloor_Z.
  assert (E : inject_Z z - inject_Z z == 0) by ring.
  now rewrite (Qcompare_comp _ _ E (1 # 2) (1 # 2) (Qeq_refl _)).
Qed.

Lemma rne_bounds (x : Q) : (Qfloor x <= rne x <= Qfloor x + 1)%Z.
Proof.
  unfold rne. destruct (x - inject_Z (Qfloor x) ?= 1 # 2);
    [destruct (Z.even (Qfloor x)) | |]; lia.
Qed.

Lemma rne_mono (x y : Q) : x <= y -> (rne x <= rne y)%Z.
Proof.
  intros Hxy. pose proof (Qfloor_resp_le x y Hxy) as Hf.
  pose proof (rne_bounds x) as Bx. pose proof (rne_bounds y) as By.
  destruct (Z.eq_dec (Qfloor x) (Qfloor y)) as [E | NE]; [| lia].
  unfold rne in *. rewrite <- E in *.
  set (f := Qfloor x) in *.
  destruct (Qcompare_spec (x - inject_Z f) (1 # 2)) as [Hx | Hx | Hx];
    destruct (Qcompare_spec (y - inject_Z f) (1 # 2)) as [Hy | Hy | Hy];
    try destruct (Z.even f); try lia; exfalso; lra.
Qed.

Lemma rne_nonneg (x : Q) : 0 <= x -> (0 <= rne x)%Z.
Proof.
  intros H. pose proof (rne_mono (inject_Z 0) x H) as H'.
  now rewrite (rne_inject_Z 0) in H'.
Qed.

Lemma ulp_pos (q : Q) : 0 < ulp q.
Proof. apply pow2_pos. Qed.

Lemma nearest_nonneg (q : Q) : 0 < q -> 0 <= nearest q.
Proof.
  intros Hq. unfold nearest. apply Qmult_le_0_compat.
  - change 0 with (inject_Z 0). rewrite <- Zle_Qle. apply rne_nonneg.
    apply Qle_shift_div_l; [apply ulp_pos | lra].
  - apply Qlt_le_weak, ulp_pos.
Qed.

Lemma nearest_comp (x y : Q) : 0 < x -> x == y -> nearest x == nearest y.
Proof.
  intros Hx E. unfold nearest, ulp. rewrite (ilog2_comp x y Hx E).
  assert (E' : x / 2 ^ Z.max (ilog2 y - 52) (-1074) ==
               y / 2 ^ Z.max (ilog2 y - 52) (-1074)) by (rewrite E; reflexivity).
  rewrite (rne_comp _ _ E'). reflexivity.
Qed.

(** Scaling by the unit in the last place. *)
Lemma scaled_pow2 (k e : Z) : (e <= k)%Z ->
  2 ^ k / 2 ^ e == inject_Z (2 ^ (k - e)).
Proof.
  intros H. rewrite <- pow2_Z by lia. rewrite Qpower_minus by apply two_neq_0.
  reflexivity.
Qed.

Lemma nearest_le_pow2 (x : Q) (k : Z) :
  0 < x -> x <= 2 ^ k -> (Z.max (ilog2 x - 52) (-1074) <= k)%Z ->
  nearest x <= 2 ^ k.
Proof.
  intros Hx Hk He. unfold nearest, ulp.
  set (e := Z.max (ilog2 x - 52) (-1074)) in *.
  assert (H : (rne (x / 2 ^ e) <= 2 ^ (k - e))%Z).
  { rewrite <- (rne_inject_Z (2 ^ (k - e))). apply rne_mono.
    rewrite <- scaled_pow2 by exact He.
    apply Qmult_le_compat_r; [exact Hk |].
    apply Qlt_le_weak, Qinv_lt_0_compat, pow2_pos. }
  rewrite Zle_Qle in H. rewrite <- scaled_pow2 in H by exact He.
  apply (Qmult_le_compat_r _ _ (2 ^ e)) in H; [| apply Qlt_le_weak, pow2_pos].
  assert (E : 2 ^ k / 2 ^ e * 2 ^ e == 2 ^ k).
  { field. intros E. pose proof (pow2_pos e) as P. rewrite E in P. discriminate P. }
  now rewrite E in H.
Qed.

Lemma nearest_ge_pow2 (x : Q) (k : Z) :
  0 < x -> 2 ^ k <= x -> (Z.max (ilog2 x - 52) (-1074) <= k)%Z ->
  2 ^ k <= nearest x.
Proof.
  intros Hx Hk He. unfold nearest, ulp.
  set (e := Z.max (ilog2 x - 52) (-1074)) in *.
  assert (H : (2 ^ (k - e) <= rne (x / 2 ^ e))%Z).
  { rewrite <- (rne_inject_Z (2 ^ (k - e))) at 1. apply rne_mono.
    rewrite <- scaled_pow2 by exact He.
    apply Qmult_le_compat_r; [exact Hk |].
    apply Qlt_le_weak, Qinv_lt_0_compat, pow2_pos. }
  rewrite Zle_Qle in H. rewrite <- scaled_pow2 in H by exact He.
  apply (Qmult_le_compat_r _ _ (2 ^ e)) in H; [| apply Qlt_le_weak, pow2_pos].
  assert (E : 2 ^ k / 2 ^ e * 2 ^ e == 2 ^ k).
  { field. intros E. pose proof (pow2_pos e) as P. rewrite E in P. discriminate P. }
  now rewrite E in H.
Qed.

(** Rounding keeps the order of the positive rationals. *)
Lemma nearest_mono (x y : Q) : 0 < x -> x <= y -> nearest x <= nearest y.
Proof.
  intros Hx Hxy.
  assert (Hy : 0 < y) by (apply (Qlt_le_trans _ x); assumption).
  pose proof (ilog2_mono x y Hx Hxy) as Hk.
  destruct (Z.eq_dec (Z.max (ilog2 x - 52) (-1074))
                     (Z.max (ilog2 y - 52) (-1074))) as [E | NE].
  - unfold nearest, ulp. rewrite E.
    set (e := Z.max (ilog2 y - 52) (-1074)).
    apply Qmult_le_compat_r; [| apply Qlt_le_weak, pow2_pos].
    rewrite <- Zle_Qle. apply rne_mono.
    apply Qmult_le_compat_r; [exact Hxy |].
    apply Qlt_le_weak, Qinv_lt_0_compat, pow2_pos.
  - destruct (ilog2_spec x Hx) as [_ Hx2]. destruct (ilog2_spec y Hy) as [Hy1 _].
    apply (Qle_trans _ (2 ^ ilog2 y)).
    + apply nearest_le_pow2; [exact Hx | | lia].
      apply Qlt_le_weak, (Qlt_le_trans _ _ _ Hx2), pow2_le. lia.
    + apply nearest_ge_pow2; [exact Hy | exact Hy1 | lia].
Qed.


Lemma overflows_comp (a b : Q) : a == b -> overflows a = overflows b.
Proof.
  intros E. unfold overflows.
  destruct (Qle_bool (2 ^ 1024) a) eqn:Ha, (Qle_bool (2 ^ 1024) b) eqn:Hb;
    trivial.
  - apply Qle_bool_iff in Ha. rewrite E in Ha. apply Qle_bool_iff in Ha.
    congruence.
  - apply Qle_bool_iff in Hb. rewrite <- E in Hb. apply Qle_bool_iff in Hb.
    congruence.
Qed.

Lemma overflows_mono (a b : Q) :
  a <= b -> overflows a = true -> overflows b = true.
Proof.
  unfold overflows. intros Hab Ha. apply Qle_bool_iff in Ha.
  apply Qle_bool_iff. now apply (Qle_trans _ a).
Qed.

Lemma round_pos (q : Q) :
  0 < q ->
  round q = if overflows (nearest q) then PosInfinity
            else Finite (Qred (nearest q)).
Proof.
  intros H. unfold round.
  destruct (Qcompare_spec q 0) as [E | E | E]; [| | reflexivity];
    exfalso; lra.
Qed.

Lemma round_neg (q : Q) :
  q < 0 ->
  round q = if overflows (nearest (- q)) then NegInfinity
            else Finite (Qred (- nearest (- q))).
Proof.
  intros H. unfold round.
  destruct (Qcompare_spec q 0) as [E | E | E]; [| reflexivity |];
    exfalso; lra.
Qed.

Lemma round_zero (q : Q) : q == 0 -> round q = Finite 0.
Proof.
  intros H. unfold round.
  destruct (Qcompare_spec q 0) as [E | E | E]; [reflexivity | |];
    exfalso; lra.
Qed.

(** Rounding does not depend on how the rational is written. *)
Lemma round_comp (x y : Q) : x == y -> round x = round y.
Proof.
  intros E. destruct (Q_dec x 0) as [[H | H] | H].
  - assert (H' : y < 0) by now rewrite <- E.
    rewrite (round_neg x H), (round_neg y H').
    assert (En : nearest (- x) == nearest (- y)).
    { apply nearest_comp; [lra | now rewrite E]. }
    rewrite (overflows_comp _ _ En).
    destruct (overflows (nearest (- y))); [reflexivity |].
    f_equal. apply Qred_complete. now rewrite En.
  - assert (H' : 0 < y) by now rewrite <- E.
    rewrite (round_pos x H), (round_pos y H').
    assert (En : nearest x == nearest y) by now apply nearest_comp.
    rewrite (overflows_comp _ _ En).
    destruct (overflows (nearest y)); [reflexivity |].
    f_equal. now apply Qred_complete.
  - rewrite (round_zero x H). symmetry. apply round_zero. now rewrite <- E.
Qed.

Lemma round_not_NaN (q : Q) : round q <> NaN.
Proof.
  destruct (Q_dec q 0) as [[H | H] | H].
  - rewrite (round_neg q H). now destruct (overflows _).
  - rewrite (round_pos q H). now destruct (overflows _).
  - now rewrite (round_zero q H).
Qed.

(** Rounding keeps the order. *)
Lemma round_mono (x y : Q) : x <= y -> leb (round x) (round y) = true.
Proof.
  intros Hxy.
  destruct (Q_dec x 0) as [[Hx | Hx] | Hx];
    destruct (Q_dec y 0) as [[Hy | Hy] | Hy];
    try (exfalso; lra).
  - rewrite (round_neg x Hx), (round_neg y Hy).
    assert (Hn : nearest (- y) <= nearest (- x)) by (apply nearest_mono; lra).
    destruct (overflows (nearest (- x))) eqn:Ox.
    + now destruct (overflows (nearest (- y))).
    + destruct (overflows (nearest (- y))) eqn:Oy.
      * rewrite (overflows_mono _ _ Hn Oy) in Ox. discriminate Ox.
      * cbn [leb]. apply Qle_bool_iff. rewrite !Qred_correct. lra.
  - rewrite (round_neg x Hx), (round_pos y Hy).
    pose proof (nearest_nonneg (- x)) as Nx. pose proof (nearest_nonneg y Hy) as Ny.
    destruct (overflows (nearest (- x))), (overflows (nearest y)); trivial.
    cbn [leb]. apply Qle_bool_iff. rewrite !Qred_correct.
    assert (0 <= nearest (- x)) by (apply Nx; lra). lra.
  - rewrite (round_neg x Hx), (round_zero y Hy).
    pose proof (nearest_nonneg (- x)) as Nx.
    destruct (overflows (nearest (- x))); trivial.
    cbn [leb]. apply Qle_bool_iff. rewrite !Qred_correct.
    assert (0 <= nearest (- x)) by (apply Nx; lra). lra.
  - rewrite (round_pos x Hx), (round_pos y Hy).
    assert (Hn : nearest x <= nearest y) by now apply nearest_mono.
    destruct (overflows (nearest x)) eqn:Ox.
    + now rewrite (overflows_mono _ _ Hn Ox).
    + destruct (overflows (nearest y)); trivial.
      cbn [leb]. apply Qle_bool_iff. now rewrite !Qred_correct.
  - rewrite (round_zero x Hx), (round_pos y Hy).
    pose proof (nearest_nonneg y Hy) as Ny.
    destruct (overflows (nearest y)); trivial.
    cbn [leb]. apply Qle_bool_iff. now rewrite Qred_correct.
  - now rewrite (round_zero x Hx), (round_zero y Hy).
Qed.

(** The same Number, and the comparisons. *)
Lemma sameNumber_refl (x : number) : sameNumber x x.
Proof. destruct x; simpl; trivial. reflexivity. Qed.

Lemma sameNumber_sym (x y : number) : sameNumber x y -> sameNumber y x.
Proof. destruct x, y; simpl; trivial. intros H. now symmetry. Qed.

Lemma sameNumber_trans (x y z : number) :
  sameNumber x y -> sameNumber y z -> sameNumber x z.
Proof.
  destruct x, y, z; simpl; trivial; try contradiction.
  intros H1 H2. now rewrite H1.
Qed.

Lemma Qle_bool_comp (a a' b b' : Q) :
  a == a' -> b == b' -> Qle_bool a b = Qle_bool a' b'.
Proof.
  intros Ea Eb.
  destruct (Qle_bool a b) eqn:H, (Qle_bool a' b') eqn:H'; trivial.
  - apply Qle_bool_iff in H. rewrite Ea, Eb in H. apply Qle_bool_iff in H.
    congruence.
  - apply Qle_bool_iff in H'. rewrite <- Ea, <- Eb in H'.
    apply Qle_bool_iff in H'. congruence.
Qed.

Lemma leb_same (x x' y y' : number) :
  sameNumber x x' -> sameNumber y y' -> leb x y = leb x' y'.
Proof.
  destruct x, x', y, y'; simpl; trivial; try contradiction.
  apply Qle_bool_comp.
Qed.

Lemma ltb_same (x x' y y' : number) :
  sameNumber x x' -> sameNumber y y' -> ltb x y = ltb x' y'.
Proof.
  destruct x, x', y, y'; simpl; trivial; try contradiction.
  intros E1 E2. f_equal. now apply Qle_bool_comp.
Qed.

Lemma gtb_same (x x' y y' : number) :
  sameNumber x x' -> sameNumber y y' -> gtb x y = gtb x' y'.
Proof. intros E1 E2. unfold gtb. now apply ltb_same. Qed.

Lemma leb_antisym (x y : number) :
  leb x y = true -> leb y x = true -> sameNumber x y.
Proof.
  destruct x, y; simpl; trivial; try discriminate.
  rewrite !Qle_bool_iff. intros H1 H2. now apply Qle_antisym.
Qed.

Lemma ltb_leb_trans (x y z : number) :
  ltb x y = true -> leb y z = true -> ltb x z = true.
Proof.
  destruct x, y, z; simpl; trivial; try discriminate.
  rewrite !negb_true_iff, Qle_bool_iff. intros H1 H2.
  apply not_true_iff_false. rewrite Qle_bool_iff. intros H3.
  apply not_true_iff_false in H1. apply H1, Qle_bool_iff. lra.
Qed.

Lemma ltb_irrefl_same (x y : number) : sameNumber x y -> ltb x y = false.
Proof.
  destruct x, y; simpl; trivial; try contradiction.
  intros E. apply negb_false_iff, Qle_bool_iff. rewrite E. lra.
Qed.

(** [Math.abs] and [Math.max] of rounded numbers. *)
Lemma abs_round (x : Q) : sameNumber (abs (round x)) (round (Qabs x)).
Proof.
  destruct (Q_dec x 0) as [[H | H] | H].
  - assert (E : Qabs x == - x) by (apply Qabs_neg; lra).
    rewrite (round_comp _ _ E), (round_neg x H), (round_pos (- x)) by lra.
    destruct (overflows (nearest (- x))); cbn [abs sameNumber]; trivial.
    rewrite !Qred_correct, Qabs_opp. apply Qabs_pos.
    apply nearest_nonneg. lra.
  - assert (E : Qabs x == x) by (apply Qabs_pos; lra).
    rewrite (round_comp _ _ E), (round_pos x H).
    destruct (overflows (nearest x)); cbn [abs sameNumber]; trivial.
    rewrite !Qred_correct. apply Qabs_pos. now apply nearest_nonneg.
  - assert (E : Qabs x == 0) by (rewrite H; reflexivity).
    rewrite (round_zero _ E), (round_zero x H). reflexivity.
Qed.

Lemma max_round (x y : Q) :
  sameNumber (max (round x) (round y)) (round (Qmax x y)).
Proof.
  pose proof (round_not_NaN x) as Nx. pose proof (round_not_NaN y) as Ny.
  destruct (Qlt_le_dec y x) as [H | H].
  - assert (E : Qmax x y == x) by (apply Q.max_l; lra).
    rewrite (round_comp _ _ E).
    assert (L : leb (round y) (round x) = true) by (apply round_mono; lra).
    destruct (leb (round x) (round y)) eqn:L'.
    + replace (max (round x) (round y)) with (round y).
      * now apply leb_antisym.
      * unfold max. rewrite L'. now destruct (round x), (round y).
    + replace (max (round x) (round y)) with (round x).
      * apply sameNumber_refl.
      * unfold max. rewrite L'. now destruct (round x), (round y).
  - assert (E : Qmax x y == y) by (apply Q.max_r; lra).
    rewrite (round_comp _ _ E).
    assert (L : leb (round x) (round y) = true) by now apply round_mono.
    replace (max (round x) (round y)) with (round y).
    + apply sameNumber_refl.
    + unfold max. rewrite L. now destruct (round x), (round y).
Qed.

Lemma max_same (x x' y y' : number) :
  sameNumber x x' -> sameNumber y y' -> sameNumber (max x y) (max x' y').
Proof.
  intros Ex Ey. unfold max. rewrite (leb_same x x' y y' Ex Ey).
  destruct x, x', y, y'; simpl in *; trivial; try contradiction;
    destruct (Qle_bool _ _); trivial.
Qed.

End DoubleFacts.

(** ** Zoom level *)

Section ZoomLevel.
Local Open Scope Q_scope.

Lemma leb_ltb_trans (x y z : Double.number) :
  Double.leb x y = true -> Double.ltb y z = true -> Double.ltb x z = true.
Proof.
  destruct x, y, z; simpl; trivial; try discriminate.
  rewrite !negb_true_iff, Qle_bool_iff. intros H1 H2.
  apply not_true_iff_false. rewrite Qle_bool_iff. intros H3.
  apply not_true_iff_false in H2. apply H2, Qle_bool_iff. lra.
Qed.

(** The literal [0.1]. *)
Lemma tenth_value :
  Double.round (1 # 10) =
  Double.Finite (3602879701896397 # 36028797018963968).
Proof. vm_compute. reflexivity. Qed.

(** The larger of the two differences, as computed, is the larger of the
    two extents, rounded. *)
Lemma maxDiff_span (b : Bounds) :
  sameNumber
    (Double.max (Double.abs (Double.sub (lat (ne b)) (lat (sw b))))
                (Double.abs (Double.sub (lng (ne b)) (lng (sw b)))))
    (Double.round (span b)).
Proof.
  unfold span, Double.sub.
  eapply sameNumber_trans; [apply max_same; apply abs_round | apply max_round].
Qed.

(** A span that rounds to 0 is below every threshold. *)
Lemma below_thresholds (m : Double.number) :
  sameNumber m (Double.Finite 0) ->
  Double.gtb m (Double.Finite 10) = false /\
  Double.gtb m (Double.Finite 5) = false /\
  Double.gtb m (Double.Finite 1) = false /\
  Double.gtb m (Double.round (1 # 10)) = false.
Proof.
  intros E. rewrite tenth_value.
  assert (H : forall t, Double.gtb m t = Double.gtb (Double.Finite 0) t).
  { intros t. apply gtb_same; [exact E | apply sameNumber_refl]. }
  rewrite !H. repeat split; reflexivity.
Qed.

Lemma eqb_zero (x : Double.number) :
  Double.eqb x (Double.Finite 0) = true -> sameNumber x (Double.Finite 0).
Proof.
  destruct x; simpl; try discriminate. apply Qeq_bool_iff.
Qed.

(** The value of [getZoomLevel] is decided by the rounded span alone. *)
Lemma getZoomLevel_chain (b : Bounds) :
  getZoomLevel b =
    if Double.gtb (Double.round (span b)) (Double.Finite 10) then 6%Z
    else if Double.gtb (Double.round (span b)) (Double.Finite 5) then 8%Z
    else if Double.gtb (Double.round (span b)) (Double.Finite 1) then 10%Z
    else if Double.gtb (Double.round (span b)) (Double.round (1 # 10)) then 12%Z
    else 14%Z.
Proof.
  pose proof (maxDiff_span b) as Hm. unfold getZoomLevel.
  set (latDiff := Double.abs (Double.sub (lat (ne b)) (lat (sw b)))) in *.
  set (lngDiff := Double.abs (Double.sub (lng (ne b)) (lng (sw b)))) in *.
  set (s := Double.round (span b)) in *.
  assert (Hgt : forall t, Double.gtb (Double.max latDiff lngDiff) t = Double.gtb s t).
  { intros t. apply gtb_same; [exact Hm | apply sameNumber_refl]. }
  rewrite !Hgt.
  destruct (Double.eqb latDiff (Double.Finite 0) &&
            Double.eqb lngDiff (Double.Finite 0)) eqn:Hzero; [| reflexivity].
  apply andb_true_iff in Hzero as [Ha Hb].
  apply eqb_zero in Ha, Hb.
  assert (Hs : sameNumber s (Double.Finite 0)).
  { apply (sameNumber_trans _ (Double.max latDiff lngDiff));
      [apply sameNumber_sym, Hm |].
    apply (sameNumber_trans _ (Double.max (Double.Finite 0) (Double.Finite 0)));
      [now apply max_same | reflexivity]. }
  destruct (below_thresholds s Hs) as (-> & -> & -> & ->). reflexivity.
Qed.

(** A larger span is above every threshold a smaller one is above. *)
Lemma gtb_round_mono (x y : Q) (t : Double.number) :
  x <= y ->
  Double.gtb (Double.round x) t = true -> Double.gtb (Double.round y) t = true.
Proof.
  intros Hxy H. unfold Double.gtb in *.
  apply (ltb_leb_trans _ (Double.round x)); [exact H | now apply round_mono].
Qed.

Lemma gtb_thresholds (s : Double.number) :
  (Double.gtb s (Double.Finite 10) = true -> Double.gtb s (Double.Finite 5) = true) /\
  (Double.gtb s (Double.Finite 5) = true -> Double.gtb s (Double.Finite 1) = true) /\
  (Double.gtb s (Double.Finite 1) = true ->
   Double.gtb s (Double.round (1 # 10)) = true).
Proof.
  rewrite tenth_value. unfold Double.gtb.
  repeat split; apply leb_ltb_trans; reflexivity.
Qed.

Lemma getZoomLevel_range (b : Bounds) : (6 <= getZoomLevel b <= 14)%Z.
Proof.
  rewrite getZoomLevel_chain.
  set (tenth := Double.round (1 # 10)).
  set (g10 := Double.gtb _ (Double.Finite 10)).
  set (g5 := Double.gtb _ (Double.Finite 5)).
  set (g1 := Double.gtb _ (Double.Finite 1)).
  set (g01 := Double.gtb _ tenth).
  clearbody g10 g5 g1 g01 tenth.
  destruct g10, g5, g1, g01; lia.
Qed.

Lemma getZoomLevel_far (b : Bounds) :
  Double.gtb (Double.round (span b)) (Double.Finite 10) = true ->
  getZoomLevel b = 6%Z.
Proof. intros H. now rewrite getZoomLevel_chain, H. Qed.

Lemma getZoomLevel_near (b : Bounds) :
  span b <= 1 # 10 -> getZoomLevel b = 14%Z.
Proof.
  intros H. rewrite getZoomLevel_chain.
  assert (H01 : Double.gtb (Double.round (span b)) (Double.round (1 # 10)) = false).
  { pose proof (round_mono _ _ H) as L.
    pose proof (round_not_NaN (span b)) as N1.
    pose proof (round_not_NaN (1 # 10)) as N2.
    unfold Double.gtb.
    destruct (Double.round (span b)), (Double.round (1 # 10));
      try discriminate; try reflexivity; try congruence.
    cbn [Double.leb Double.ltb] in *. now rewrite L. }
  destruct (gtb_thresholds (Double.round (span b))) as (T1 & T2 & T3).
  set (tenth := Double.round (1 # 10)) in *.
  set (g10 := Double.gtb _ (Double.Finite 10)) in *.
  set (g5 := Double.gtb _ (Double.Finite 5)) in *.
  set (g1 := Double.gtb _ (Double.Finite 1)) in *.
  set (g01 := Double.gtb _ tenth) in *.
  clearbody g10 g5 g1 g01 tenth.
  destruct g10, g5, g1, g01; try reflexivity; try discriminate;
    exfalso; intuition discriminate.
Qed.

(** C9, as the code has it.  The two differences are computed in double
    arithmetic, so what [getZoomLevel] looks at is the larger of the lat-span
    and the lng-span of the box rounded to a double.  Of that number it is
    a step function: 6 above 10 degrees, 8 above 5, 10 above 1, 12 above
    the double [0.1], and 14 below, span 0 included.  A box with a larger
    span never gets a higher zoom level. *)
Theorem getZoomLevel_step_monotone (b b' : Bounds) :
  doubleBox b = true -> doubleBox b' = true ->
  let s := Double.round (span b) in
  (Double.gtb s (Double.Finite 10) = true -> getZoomLevel b = 6%Z) /\
  (Double.gtb s (Double.Finite 10) = false ->
   Double.gtb s (Double.Finite 5) = true -> getZoomLevel b = 8%Z) /\
  (Double.gtb s (Double.Finite 5) = false ->
   Double.gtb s (Double.Finite 1) = true -> getZoomLevel b = 10%Z) /\
  (Double.gtb s (Double.Finite 1) = false ->
   Double.gtb s (Double.round (1 # 10)) = true -> getZoomLevel b = 12%Z) /\
  (Double.gtb s (Double.round (1 # 10)) = false -> getZoomLevel b = 14%Z) /\
  (span b == 0 -> getZoomLevel b = 14%Z) /\
  (span b <= span b' -> (getZoomLevel b' <= getZoomLevel b)%Z).
Proof.
  intros _ _ s.
  pose proof (getZoomLevel_chain b) as Hb. fold s in Hb.
  pose proof (getZoomLevel_chain b') as Hb'.
  destruct (gtb_thresholds s) as (T1 & T2 & T3).
  destruct (gtb_thresholds (Double.round (span b'))) as (T1' & T2' & T3').
  pose proof (fun t => gtb_round_mono (span b) (span b') t) as Hm.
  fold s in Hm.
  assert (Hz : span b == 0 ->
               Double.gtb s (Double.round (1 # 10)) = false).
  { intros Hz. unfold s. rewrite (round_zero _ Hz).
    apply (below_thresholds (Double.Finite 0)). reflexivity. }
  set (tenth := Double.round (1 # 10)) in *.
  pose proof (Hm (Double.Finite 10)) as M10.
  pose proof (Hm (Double.Finite 5)) as M5.
  pose proof (Hm (Double.Finite 1)) as M1.
  pose proof (Hm tenth) as M01. clear Hm.
  set (g10 := Double.gtb s (Double.Finite 10)) in *.
  set (g5 := Double.gtb s (Double.Finite 5)) in *.
  set (g1 := Double.gtb s (Double.Finite 1)) in *.
  set (g01 := Double.gtb s tenth) in *.
  set (h10 := Double.gtb (Double.round (span b')) (Double.Finite 10)) in *.
  set (h5 := Double.gtb (Double.round (span b')) (Double.Finite 5)) in *.
  set (h1 := Double.gtb (Double.round (span b')) (Double.Finite 1)) in *.
  set (h01 := Double.gtb (Double.round (span b')) tenth) in *.
  clearbody g10 g5 g1 g01 h10 h5 h1 h01 tenth. rewrite Hb.
  repeat split.
  - now intros ->.
  - now intros -> ->.
  - intros H1 H2. destruct g10, g5, g1; try reflexivity; try discriminate;
      exfalso; intuition discriminate.
  - intros H1 H2. destruct g10, g5, g1, g01; try reflexivity;
      try discriminate; exfalso; intuition discriminate.
  - intros H. destruct g10, g5, g1, g01; try reflexivity;
      try discriminate; exfalso; intuition discriminate.
  - intros E. specialize (Hz E).
    destruct g10, g5, g1, g01; try reflexivity;
      try discriminate; exfalso; intuition discriminate.
  - intros Hle. rewrite Hb'.
    specialize (M10 Hle). specialize (M5 Hle). specialize (M1 Hle).
    specialize (M01 Hle).
    destruct g10; [rewrite M10 by reflexivity; lia |].
    destruct g5; [rewrite M5 by reflexivity; destruct h10; lia |].
    destruct g1; [rewrite M1 by reflexivity; destruct h10, h5; lia |].
    destruct g01; [rewrite M01 by reflexivity; destruct h10, h5, h1; lia |].
    destruct h10, h5, h1, h01; lia.
Qed.

Lemma getZoomLevel_step_monotone_counterexample :
  doubleBox hairBox = true /\
  10 < span hairBox /\
  getZoomLevel hairBox = 8%Z.
Proof. repeat split; vm_compute; reflexivity. Qed.

(** The difference [1.1 - 1.0] is above the double [0.1], which is not
    above itself. *)
Example getZoomLevel_tenth :
  doubleBox tenthBox = true /\ getZoomLevel tenthBox = 12%Z /\
  doubleBox tenthFromZeroBox = true /\ getZoomLevel tenthFromZeroBox = 14%Z.
Proof. repeat split; vm_compute; reflexivity. Qed.

Lemma getZoomLevel_step_monotone_witness :
  getZoomLevel pointBox = 14%Z /\
  getZoomLevel continentBox = 6%Z /\
  (getZoomLevel continentBox <= getZoomLevel pointBox)%Z.
Proof.
  assert (Hp : doubleBox pointBox = true) by (vm_compute; reflexivity).
  assert (Hc : doubleBox continentBox = true) by (vm_compute; reflexivity).
  split; [| split].
  - apply (getZoomLevel_step_monotone pointBox continentBox Hp Hc). reflexivity.
  - apply (getZoomLevel_step_monotone continentBox pointBox Hc Hp).
    vm_compute. reflexivity.
  - apply (getZoomLevel_step_monotone pointBox continentBox Hp Hc).
    vm_compute. discriminate.
Defined.

End ZoomLevel.


(** ** JavaScript [Map] *)

Section JsMapFacts.
Context {V : Type}.
Implicit Types (m : JsMap.t V) (k : string) (v : V).

Lemma get_none_iff m k : JsMap.get k m = None <-> ~ In k (JsMap.keys m).
Proof.
  induction m as [| [k' v'] m IH]; simpl.
  - tauto.
  - destruct (String.eqb_spec k k') as [-> | Hne].
    + split; [discriminate | intros H; exfalso; apply H; now left].
    + rewrite IH. split; [intros H [E | I]; [congruence | tauto] | tauto].
Qed.

Lemma get_some_in m k v : JsMap.get k m = Some v -> In (k, v) m.
Proof.
  induction m as [| [k' v'] m IH]; simpl; [discriminate |].
  destruct (String.eqb_spec k k') as [-> | Hne].
  - intros [= ->]. now left.
  - intros H. right. now apply IH.
Qed.

Lemma in_get_some m k v :
  NoDup (JsMap.keys m) -> In (k, v) m -> JsMap.get k m = Some v.
Proof.
  induction m as [| [k' v'] m IH]; simpl; [tauto |].
  intros Hnd [E | I].
  - injection E as -> ->. now rewrite String.eqb_refl.
  - inversion Hnd as [| ? ? Hout Hnd']; subst.
    destruct (String.eqb_spec k k') as [-> | Hne].
    + exfalso. apply Hout. change k' with (fst (k', v)). now apply in_map.
    + now apply IH.
Qed.

Lemma get_set_same m k v : JsMap.get k (JsMap.set k v m) = Some v.
Proof.
  induction m as [| [k' v'] m IH]; simpl.
  - now rewrite String.eqb_refl.
  - destruct (String.eqb_spec k k') as [-> | Hne]; simpl.
    + now rewrite String.eqb_refl.
    + destruct (String.eqb_spec k k'); [contradiction | exact IH].
Qed.

Lemma get_set_other m k k' v :
  k <> k' -> JsMap.get k (JsMap.set k' v m) = JsMap.get k m.
Proof.
  intros Hne. induction m as [| [k0 v0] m IH]; simpl.
  - destruct (String.eqb_spec k k'); [contradiction | reflexivity].
  - destruct (String.eqb_spec k' k0) as [-> | Hne0]; simpl.
    + destruct (String.eqb_spec k k0); [contradiction | reflexivity].
    + destruct (String.eqb_spec k k0); [reflexivity | exact IH].
Qed.

Lemma has_set m k k' v :
  JsMap.has k (JsMap.set k' v m) = String.eqb k k' || JsMap.has k m.
Proof.
  unfold JsMap.has. destruct (String.eqb_spec k k') as [-> | Hne]; simpl.
  - now rewrite get_set_same.
  - now rewrite get_set_other.
Qed.

Lemma set_fresh m k v :
  JsMap.get k m = None -> JsMap.set k v m = m ++ [(k, v)].
Proof.
  induction m as [| [k' v'] m IH]; simpl; [reflexivity |].
  destruct (String.eqb_spec k k'); [discriminate |].
  intros H. now rewrite IH.
Qed.

Lemma set_present_size m k v :
  JsMap.get k m <> None -> JsMap.size (JsMap.set k v m) = JsMap.size m.
Proof.
  unfold JsMap.size.
  induction m as [| [k' v'] m IH]; simpl; [congruence |].
  destruct (String.eqb_spec k k'); simpl; [reflexivity |].
  intros H. now rewrite IH.
Qed.

Lemma keys_set_present m k v :
  JsMap.get k m <> None -> JsMap.keys (JsMap.set k v m) = JsMap.keys m.
Proof.
  induction m as [| [k' v'] m IH]; simpl; [congruence |].
  destruct (String.eqb_spec k k') as [-> | Hne]; simpl; [reflexivity |].
  intros H. now rewrite IH.
Qed.

Lemma NoDup_keys_set m k v :
  NoDup (JsMap.keys m) -> NoDup (JsMap.keys (JsMap.set k v m)).
Proof.
  intros Hnd. destruct (JsMap.get k m) eqn:E.
  - rewrite keys_set_present; [assumption | congruence].
  - rewrite set_fresh by assumption.
    unfold JsMap.keys. rewrite map_app. simpl.
    apply NoDup_app; [assumption | repeat constructor; simpl; tauto |].
    intros x Hx [<- | []]. now apply get_none_iff in E.
Qed.

Lemma delete_absent m k : ~ In k (JsMap.keys m) -> JsMap.delete k m = m.
Proof.
  induction m as [| [k' v'] m IH]; simpl; [reflexivity |].
  intros H. destruct (String.eqb_spec k k') as [-> | Hne]; [tauto |].
  rewrite IH; tauto.
Qed.

Lemma in_keys_delete m k k' :
  In k (JsMap.keys (JsMap.delete k' m)) -> In k (JsMap.keys m).
Proof.
  induction m as [| [k0 v0] m IH]; simpl; [tauto |].
  destruct (String.eqb_spec k' k0); simpl; tauto.
Qed.

Lemma in_delete m k x : In x (JsMap.delete k m) -> In x m.
Proof.
  induction m as [| [k0 v0] m IH]; simpl; [tauto |].
  destruct (String.eqb_spec k k0); simpl; tauto.
Qed.

Lemma NoDup_keys_delete m k :
  NoDup (JsMap.keys m) -> NoDup (JsMap.keys (JsMap.delete k m)).
Proof.
  induction m as [| [k0 v0] m IH]; simpl; [trivial |].
  intros Hnd. inversion Hnd as [| ? ? Hout Hnd']; subst.
  destruct (String.eqb_spec k k0); [assumption |].
  simpl. constructor; [| now apply IH].
  intros H. apply Hout. now apply in_keys_delete in H.
Qed.

Lemma get_delete_same m k :
  NoDup (JsMap.keys m) -> JsMap.get k (JsMap.delete k m) = None.
Proof.
  induction m as [| [k0 v0] m IH]; simpl; [reflexivity |].
  intros Hnd. inversion Hnd as [| ? ? Hout Hnd']; subst.
  destruct (String.eqb_spec k k0) as [-> | Hne].
  - now apply get_none_iff.
  - simpl. destruct (String.eqb_spec k k0); [contradiction | now apply IH].
Qed.

Lemma get_delete_other m k k' :
  k <> k' -> JsMap.get k (JsMap.delete k' m) = JsMap.get k m.
Proof.
  intros Hne. induction m as [| [k0 v0] m IH]; simpl; [reflexivity |].
  destruct (String.eqb_spec k' k0) as [-> | Hne0]; simpl.
  - destruct (String.eqb_spec k k0); [contradiction | reflexivity].
  - destruct (String.eqb_spec k k0); [reflexivity | exact IH].
Qed.

Lemma delete_head_size m k :
  In k (JsMap.keys m) -> S (JsMap.size (JsMap.delete k m)) = JsMap.size m.
Proof.
  unfold JsMap.size.
  induction m as [| [k0 v0] m IH]; simpl; [tauto |].
  destruct (String.eqb_spec k k0) as [-> | Hne]; [reflexivity |].
  intros [E | I]; [congruence |]. simpl. now rewrite IH.
Qed.

End JsMapFacts.

(** ** Stable sort *)

Section StableSortFacts.
Context {A : Type} (key : A -> Z).

Lemma insertBy_perm (x : A) (l : list A) :
  Permutation (insertBy key x l) (x :: l).
Proof.
  induction l as [| y l IH]; simpl; [reflexivity |].
  destruct (key x <=? key y)%Z; [reflexivity |].
  rewrite IH. apply perm_swap.
Qed.

Lemma sortBy_perm (l : list A) : Permutation (sortBy key l) l.
Proof.
  induction l as [| x l IH]; simpl; [reflexivity |].
  rewrite insertBy_perm. now constructor.
Qed.

Lemma sortBy_length (l : list A) :
  List.length (sortBy key l) = List.length l.
Proof. apply Permutation_length, sortBy_perm. Qed.

Lemma insertBy_snoc (x e : A) (l : list A) :
  (key x <= key e)%Z ->
  insertBy key x (l ++ [e]) = insertBy key x l ++ [e].
Proof.
  intros Hle. induction l as [| y l IH]; simpl.
  - apply Z.leb_le in Hle. now rewrite Hle.
  - destruct (key x <=? key y)%Z; [reflexivity |]. now rewrite IH.
Qed.

(** An element that is last and has the largest key stays last. *)
Lemma sortBy_snoc (e : A) (l : list A) :
  Forall (fun x => (key x <= key e)%Z) l ->
  sortBy key (l ++ [e]) = sortBy key l ++ [e].
Proof.
  induction 1 as [| x l Hx Hl IH]; simpl; [reflexivity |].
  rewrite IH. now apply insertBy_snoc.
Qed.

(** A list already in order is left as it is. *)
Lemma sortBy_sorted (l : list A) :
  StronglySorted Z.le (map key l) -> sortBy key l = l.
Proof.
  induction l as [| x l IH]; simpl; [reflexivity |].
  intros H. inversion H as [| ? ? Hs Hall]; subst.
  rewrite IH by assumption.
  destruct l as [| y l]; simpl; [reflexivity |].
  inversion Hall as [| ? ? Hxy _]; subst.
  apply Z.leb_le in Hxy. now rewrite Hxy.
Qed.

End StableSortFacts.

Lemma StronglySorted_skipn {A : Type} (R : A -> A -> Prop) (n : nat)
    (l : list A) :
  StronglySorted R l -> StronglySorted R (skipn n l).
Proof.
  revert l. induction n as [| n IH]; intros l H; [exact H |].
  destruct l as [| x l]; [exact H |].
  simpl. apply IH. now inversion H.
Qed.

Lemma StronglySorted_snoc_inv {A : Type} (R : A -> A -> Prop) (l : list A)
    (x : A) :
  StronglySorted R (l ++ [x]) ->
  StronglySorted R l /\ Forall (fun y => R y x) l.
Proof.
  induction l as [| y l IH]; simpl; intros H.
  - split; constructor.
  - inversion H as [| ? ? Hs Hall]; subst.
    destruct (IH Hs) as [Hl Hx].
    apply Forall_app in Hall as [Hall1 Hall2].
    split; constructor; trivial.
    now inversion Hall2.
Qed.

Lemma NoDup_skipn {A : Type} (n : nat) (l : list A) :
  NoDup l -> NoDup (skipn n l).
Proof.
  revert l. induction n as [| n IH]; intros l H; [exact H |].
  destruct l as [| x l]; [exact H |].
  simpl. apply IH. now inversion H.
Qed.

Lemma NoDup_firstn {A : Type} (n : nat) (l : list A) :
  NoDup l -> NoDup (firstn n l).
Proof.
  intros H. rewrite <- (firstn_skipn n l) in H.
  now apply NoDup_app_remove_r in H.
Qed.

Lemma NoDup_app_disjoint {A : Type} (l1 l2 : list A) (a : A) :
  NoDup (l1 ++ l2) -> In a l1 -> ~ In a l2.
Proof.
  induction l1 as [| x l1 IH]; simpl; [tauto |].
  intros H [-> | Hin] H2; inversion H as [| ? ? Hout Hnd]; subst.
  - apply Hout, in_or_app. now right.
  - now apply (IH Hnd Hin).
Qed.

Lemma in_firstn {A : Type} (n : nat) (l : list A) (x : A) :
  In x (firstn n l) -> In x l.
Proof.
  intros H. rewrite <- (firstn_skipn n l). apply in_or_app. now left.
Qed.

Lemma in_skipn {A : Type} (n : nat) (l : list A) (x : A) :
  In x (skipn n l) -> In x l.
Proof.
  intros H. rewrite <- (firstn_skipn n l). apply in_or_app. now right.
Qed.

(** ** The cache *)

Section CacheFacts.
Implicit Types (c : Cache) (k : string).

Lemma in_keys_delete_other c k k' :
  k <> k' -> In k (JsMap.keys c) -> In k (JsMap.keys (JsMap.delete k' c)).
Proof.
  intros Hne. induction c as [| [k0 v0] c IH]; simpl; [tauto |].
  destruct (String.eqb_spec k' k0) as [-> | Hne0]; simpl.
  - intros [E | I]; [congruence | assumption].
  - tauto.
Qed.

Lemma deleteAll_in victims c x : In x (deleteAll victims c) -> In x c.
Proof.
  revert c. induction victims as [| v victims IH]; intros c; simpl;
    [trivial |].
  intros H. apply IH in H. now apply in_delete in H.
Qed.

Lemma deleteAll_NoDup victims c :
  NoDup (JsMap.keys c) -> NoDup (JsMap.keys (deleteAll victims c)).
Proof.
  revert c. induction victims as [| v victims IH]; intros c H; simpl;
    [exact H |].
  apply IH. now apply NoDup_keys_delete.
Qed.

Lemma deleteAll_get_other victims c k :
  ~ In k (map fst victims) ->
  JsMap.get k (deleteAll victims c) = JsMap.get k c.
Proof.
  revert c. induction victims as [| v victims IH]; intros c H; simpl in *;
    [reflexivity |].
  rewrite IH by tauto. apply get_delete_other. intros ->. tauto.
Qed.

(** Deleting distinct keys of the map removes that many entries. *)
Lemma deleteAll_size victims c :
  NoDup (JsMap.keys c) ->
  NoDup (map fst victims) ->
  incl (map fst victims) (JsMap.keys c) ->
  JsMap.size (deleteAll victims c) + List.length victims = JsMap.size c.
Proof.
  revert c. induction victims as [| v victims IH]; intros c Hc Hv Hin;
    simpl in *; [lia |].
  inversion Hv as [| ? ? Hout Hv']; subst.
  rewrite Nat.add_succ_r, IH.
  - apply delete_head_size, Hin. now left.
  - now apply NoDup_keys_delete.
  - assumption.
  - intros k Hk. apply in_keys_delete_other.
    + intros ->. contradiction.
    + apply Hin. now right.
Qed.

(** Deleting the first [d] entries by key drops them. *)
Lemma deleteAll_prefix (d : nat) c :
  NoDup (JsMap.keys c) -> deleteAll (firstn d c) c = skipn d c.
Proof.
  revert c. induction d as [| d IH]; intros c H; [reflexivity |].
  destruct c as [| [k v] c]; [reflexivity |].
  inversion H; subst. simpl. rewrite String.eqb_refl. now apply IH.
Qed.

Lemma sorted_keys_NoDup c :
  NoDup (JsMap.keys c) -> NoDup (map fst (sortBy entryTimestamp c)).
Proof.
  intros H. eapply Permutation_NoDup; [| exact H].
  apply Permutation_map, Permutation_sym, sortBy_perm.
Qed.

Lemma sorted_keys_incl (d : nat) c :
  incl (map fst (firstn d (sortBy entryTimestamp c))) (JsMap.keys c).
Proof.
  intros k Hk. apply in_map_iff in Hk as [e [<- He]].
  apply in_map. eapply Permutation_in; [apply sortBy_perm |].
  eapply in_firstn; exact He.
Qed.

(** After [enforceMaxCacheSize] the map holds at most [MAX_CACHE_SIZE]
    entries, whatever it held before. *)
Lemma enforceMaxCacheSize_size c :
  NoDup (JsMap.keys c) -> JsMap.size (enforceMaxCacheSize c) <= MAX_CACHE_SIZE.
Proof.
  intros Hnd. unfold enforceMaxCacheSize.
  destruct (Nat.ltb_spec MAX_CACHE_SIZE (JsMap.size c)) as [Hlt | Hge];
    [| exact Hge].
  cbv zeta.
  pose proof (deleteAll_size
                (firstn (List.length (sortBy entryTimestamp c) - MAX_CACHE_SIZE)
                        (sortBy entryTimestamp c)) c Hnd) as Hsz.
  rewrite length_firstn, sortBy_length in Hsz.
  unfold JsMap.size in *.
  rewrite sortBy_length.
  assert (Hv : NoDup (map fst
                (firstn (List.length c - MAX_CACHE_SIZE)
                        (sortBy entryTimestamp c)))).
  { rewrite <- firstn_map. apply NoDup_firstn, sorted_keys_NoDup, Hnd. }
  specialize (Hsz Hv (sorted_keys_incl _ c)).
  lia.
Qed.

Lemma enforceMaxCacheSize_in c x : In x (enforceMaxCacheSize c) -> In x c.
Proof.
  unfold enforceMaxCacheSize.
  destruct (MAX_CACHE_SIZE <? JsMap.size c); [apply deleteAll_in | trivial].
Qed.

Lemma enforceMaxCacheSize_NoDup c :
  NoDup (JsMap.keys c) -> NoDup (JsMap.keys (enforceMaxCacheSize c)).
Proof.
  unfold enforceMaxCacheSize.
  destruct (MAX_CACHE_SIZE <? JsMap.size c); [apply deleteAll_NoDup | trivial].
Qed.

(** A map in timestamp order loses its first entries. *)
Lemma enforceMaxCacheSize_sorted c :
  NoDup (JsMap.keys c) ->
  StronglySorted Z.le (map entryTimestamp c) ->
  enforceMaxCacheSize c = skipn (JsMap.size c - MAX_CACHE_SIZE) c.
Proof.
  intros Hnd Hs. unfold enforceMaxCacheSize.
  destruct (Nat.ltb_spec MAX_CACHE_SIZE (JsMap.size c)) as [Hlt | Hge].
  - cbv zeta. rewrite sortBy_sorted by assumption.
    now apply deleteAll_prefix.
  - replace (JsMap.size c - MAX_CACHE_SIZE) with 0 by lia. reflexivity.
Qed.

Lemma in_set c k (e : CacheEntry) x :
  In x (JsMap.set k e c) -> x = (k, e) \/ In x c.
Proof.
  induction c as [| [k0 v0] c IH]; simpl.
  - intros [<- | []]. now left.
  - destruct (String.eqb_spec k k0); simpl.
    + intros [<- | I]; [now left | right; now right].
    + intros [<- | I]; [right; now left |].
      destruct (IH I) as [-> | I']; [now left | right; now right].
Qed.

Lemma cacheAt_empty (now : Z) : cacheAt now [].
Proof. repeat split; [constructor | apply Nat.le_0_l | constructor]. Qed.

Lemma cacheAt_later (now later : Z) c :
  (now <= later)%Z -> cacheAt now c -> cacheAt later c.
Proof.
  intros Hle (Hnd & Hsz & Hts). repeat split; trivial.
  eapply Forall_impl; [| exact Hts]. simpl. intros; lia.
Qed.

Lemma cacheResult_cacheAt (now : Z) c addr loc :
  cacheAt now c -> cacheAt now (cacheResult addr loc now c).
Proof.
  intros (Hnd & Hsz & Hts). unfold cacheResult.
  pose proof (NoDup_keys_set c (getCacheKey addr)
                (mkCacheEntry loc now CACHE_TTL) Hnd) as Hnd'.
  repeat split.
  - now apply enforceMaxCacheSize_NoDup.
  - now apply enforceMaxCacheSize_size.
  - apply Forall_forall. intros x Hx.
    apply enforceMaxCacheSize_in, in_set in Hx as [-> | Hx].
    + unfold entryTimestamp. simpl. lia.
    + rewrite Forall_forall in Hts. now apply Hts.
Qed.

Lemma getCachedResult_cacheAt (now : Z) c addr :
  cacheAt now c -> cacheAt now (snd (getCachedResult addr now c)).
Proof.
  intros (Hnd & Hsz & Hts). unfold getCachedResult.
  destruct (JsMap.get (getCacheKey addr) c) as [e |] eqn:E;
    [| now repeat split].
  destruct (now - timestamp e >? ttl e)%Z; [| now repeat split].
  simpl. repeat split.
  - now apply NoDup_keys_delete.
  - assert (In (getCacheKey addr) (JsMap.keys c)) as Hin.
    { apply get_some_in in E. change (getCacheKey addr) with
        (fst (getCacheKey addr, e)). now apply in_map. }
    pose proof (delete_head_size c _ Hin). lia.
  - apply Forall_forall. intros x Hx. apply in_delete in Hx.
    rewrite Forall_forall in Hts. now apply Hts.
Qed.

(** The entry just stored is never the one evicted. *)
Lemma cacheResult_get (now : Z) c addr loc :
  cacheAt now c ->
  JsMap.get (getCacheKey addr) (cacheResult addr loc now c) =
  Some (mkCacheEntry loc now CACHE_TTL).
Proof.
  intros (Hnd & Hsz & Hts). unfold cacheResult.
  set (key := getCacheKey addr). set (e := mkCacheEntry loc now CACHE_TTL).
  destruct (JsMap.get key c) as [old |] eqn:E.
  - unfold enforceMaxCacheSize.
    rewrite set_present_size by congruence.
    destruct (Nat.ltb_spec MAX_CACHE_SIZE (JsMap.size c)); [lia |].
    apply get_set_same.
  - pose proof (get_set_same c key e) as Hget.
    rewrite set_fresh in * by assumption.
    unfold enforceMaxCacheSize.
    destruct (Nat.ltb_spec MAX_CACHE_SIZE (JsMap.size (c ++ [(key, e)])))
      as [Hlt | Hge]; [| exact Hget].
    cbv zeta. rewrite sortBy_snoc by exact Hts.
    unfold JsMap.size in *. rewrite length_app in *. simpl in Hlt.
    rewrite sortBy_length. simpl List.length.
    replace (List.length c + 1 - MAX_CACHE_SIZE) with 1 by lia.
    pose proof (sortBy_perm entryTimestamp c) as Hperm.
    destruct (sortBy entryTimestamp c) as [| h t] eqn:Hs.
    + apply Permutation_length in Hperm. simpl in Hperm.
      assert (0 < MAX_CACHE_SIZE) by (unfold MAX_CACHE_SIZE; lia). lia.
    + simpl. rewrite get_delete_other; [exact Hget |].
      intros ->. apply get_none_iff in E. apply E.
      apply in_map. eapply Permutation_in; [exact Hperm | now left].
Qed.

End CacheFacts.

(** C6.  In a cache as the module holds it, storing [loc] under [addr] and
    then looking up any variant of [addr] with the same lower-cased,
    trimmed key returns [loc] and leaves the cache as it is while the age
    of the entry does not exceed the TTL of one hour; once the age exceeds
    it, the lookup deletes the entry and reports absent. *)
Theorem cache_roundtrip (c : Cache) (addr variant : string)
    (loc : GeocodedLocation) (now later : Z) :
  cacheAt now c ->
  getCacheKey variant = getCacheKey addr ->
  let c1 := cacheResult addr loc now c in
  ((later - now <= 3600000)%Z ->
   getCachedResult variant later c1 = (Some loc, c1)) /\
  ((later - now > 3600000)%Z ->
   getCachedResult variant later c1 =
     (None, JsMap.delete (getCacheKey addr) c1) /\
   JsMap.get (getCacheKey addr) (JsMap.delete (getCacheKey addr) c1) = None).
Proof.
  intros Hc Hkey c1.
  pose proof (cacheResult_get now c addr loc Hc) as Hget.
  pose proof (cacheResult_cacheAt now c addr loc Hc) as (Hnd & _ & _).
  fold c1 in Hget, Hnd.
  unfold getCachedResult. rewrite Hkey, Hget. simpl.
  change CACHE_TTL with 3600000%Z.
  split; intros Hage.
  - destruct (Z.gtb_spec (later - now) 3600000); [lia | reflexivity].
  - destruct (Z.gtb_spec (later - now) 3600000); [| lia].
    split; [reflexivity | now apply get_delete_same].
Qed.

Lemma cache_roundtrip_witness :
  getCachedResult "  PARIS " 3600000 (cacheResult "Paris" paris 0 []) =
    (Some paris, cacheResult "Paris" paris 0 []) /\
  getCachedResult "paris  " 3600001 (cacheResult "Paris" paris 0 []) =
    (None, JsMap.delete "paris" (cacheResult "Paris" paris 0 [])).
Proof.
  split.
  - apply (cache_roundtrip [] "Paris" "  PARIS " paris 0 3600000
             (cacheAt_empty 0) eq_refl).
    lia.
  - apply (cache_roundtrip [] "Paris" "paris  " paris 0 3600001
             (cacheAt_empty 0) eq_refl).
    lia.
Defined.

(** The first half of the round trip, for later use. *)
Lemma cache_roundtrip_core (c : Cache) (addr variant : string)
    (loc : GeocodedLocation) (now later : Z) :
  cacheAt now c ->
  getCacheKey variant = getCacheKey addr ->
  (later - now <= 3600000)%Z ->
  getCachedResult variant later (cacheResult addr loc now c) =
    (Some loc, cacheResult addr loc now c).
Proof.
  intros Hc Hkey Hage.
  pose proof (cacheResult_get now c addr loc Hc) as Hget.
  unfold getCachedResult. rewrite Hkey, Hget. simpl.
  change CACHE_TTL with 3600000%Z.
  destruct (Z.gtb_spec (later - now) 3600000); [lia | reflexivity].
Qed.

(** ** Eviction order *)

Section Eviction.

Lemma map_entryOf_keys (ins : list Insertion) :
  JsMap.keys (map entryOf ins) = map insertionKey ins.
Proof. unfold JsMap.keys. rewrite map_map. reflexivity. Qed.

Lemma map_entryOf_times (ins : list Insertion) :
  map entryTimestamp (map entryOf ins) = map insTime ins.
Proof. rewrite map_map. reflexivity. Qed.

Lemma insertAll_snoc (ins : list Insertion) (i : Insertion) (c : Cache) :
  insertAll (ins ++ [i]) c =
  cacheResult (insAddress i) (insLocation i) (insTime i) (insertAll ins c).
Proof. unfold insertAll. now rewrite fold_left_app. Qed.

(** Filling an empty cache with distinct keys at non-decreasing times
    keeps the last [MAX_CACHE_SIZE] insertions, in insertion order. *)
Lemma insertAll_fifo (ins : list Insertion) :
  NoDup (map insertionKey ins) ->
  StronglySorted Z.le (map insTime ins) ->
  insertAll ins [] =
  map entryOf (skipn (List.length ins - MAX_CACHE_SIZE) ins).
Proof.
  induction ins as [| i ins IH] using rev_ind; intros Hnd Hs;
    [reflexivity |].
  rewrite map_app in Hnd, Hs. simpl in Hnd, Hs.
  pose proof (NoDup_remove_1 _ _ _ Hnd) as Hnd1.
  pose proof (NoDup_remove_2 _ _ _ Hnd) as Hfresh.
  rewrite app_nil_r in Hnd1, Hfresh.
  apply StronglySorted_snoc_inv in Hs as Hs'. destruct Hs' as [Hs1 _].
  rewrite insertAll_snoc, IH by assumption.
  unfold cacheResult. fold (insertionKey i).
  set (d := List.length ins - MAX_CACHE_SIZE).
  assert (Hd : d <= List.length ins) by (unfold d; lia).
  rewrite set_fresh.
  2:{ apply get_none_iff. rewrite map_entryOf_keys. intros Hin.
      apply Hfresh. apply in_map_iff in Hin as [j [Hj Hin]].
      apply in_skipn in Hin. rewrite <- Hj. now apply in_map. }
  change [(insertionKey i, mkCacheEntry (insLocation i) (insTime i) CACHE_TTL)]
    with (map entryOf [i]).
  rewrite <- map_app.
  replace (skipn d ins ++ [i]) with (skipn d (ins ++ [i])).
  2:{ rewrite skipn_app. replace (d - List.length ins) with 0 by lia.
      reflexivity. }
  rewrite enforceMaxCacheSize_sorted.
  - rewrite <- skipn_map, <- skipn_map, skipn_skipn. f_equal.
    unfold JsMap.size. rewrite length_skipn, length_map, !length_app.
    simpl. unfold d. lia.
  - rewrite map_entryOf_keys, <- skipn_map. apply NoDup_skipn.
    now rewrite map_app.
  - rewrite map_entryOf_times, <- skipn_map. apply StronglySorted_skipn.
    now rewrite map_app.
Qed.

End Eviction.

Lemma distinctb_sound (l : list string) : distinctb l = true -> NoDup l.
Proof.
  induction l as [| x l IH]; simpl; [constructor |].
  rewrite andb_true_iff, negb_true_iff. intros [Hx Hl].
  constructor; [| now apply IH].
  intros Hin. apply not_true_iff_false in Hx. apply Hx.
  apply existsb_exists. exists x. split; [exact Hin | apply String.eqb_refl].
Qed.

Lemma nondecreasingb_sound (l : list Z) :
  nondecreasingb l = true -> StronglySorted Z.le l.
Proof.
  intros H. apply Sorted_StronglySorted; [exact Z.le_trans |].
  induction l as [| x l IH]; [constructor |].
  destruct l as [| y l]; [repeat constructor |].
  simpl in H. apply andb_true_iff in H as [Hxy Hl].
  constructor; [now apply IH | constructor; now apply Z.leb_le].
Qed.

(** ** Single-address resolution *)

Section Resolution.
Implicit Types (w : World) (c : Cache) (addr : string).

Lemma geocodeAddressStart_cache w now addr c :
  snd (fst (geocodeAddressStart w now addr c)) =
  snd (getCachedResult addr now c).
Proof.
  unfold geocodeAddressStart.
  destruct (getCachedResult addr now c) as [[loc |] c1]; simpl;
    [reflexivity |].
  destruct (String.length (JsString.trim addr) =? 0); [reflexivity |].
  destruct (negb (truthy (GOOGLE_MAPS_API_KEY w))); reflexivity.
Qed.

Lemma geocodeAddressStart_no_write w now addr c k :
  ~ In (CacheWrite k) (snd (geocodeAddressStart w now addr c)).
Proof.
  unfold geocodeAddressStart.
  destruct (getCachedResult addr now c) as [[loc |] c0]; simpl.
  - intros [H | []]. discriminate.
  - destruct (String.length (JsString.trim addr) =? 0); simpl;
      [intros [H | []]; discriminate |].
    destruct (negb (truthy (GOOGLE_MAPS_API_KEY w))); simpl;
      intros H; repeat (destruct H as [H | H]; try discriminate); exact H.
Qed.

(** A call that is not answered from the cache found no live entry. *)
Lemma geocodeAddressStart_miss w now addr c s c1 tr :
  geocodeAddressStart w now addr c = (s, c1, tr) ->
  (forall loc, s <> Done (Fulfilled loc)) ->
  fst (getCachedResult addr now c) = None.
Proof.
  unfold geocodeAddressStart.
  destruct (getCachedResult addr now c) as [[loc |] c0]; simpl;
    [| reflexivity].
  intros E H. injection E as <- _ _. now destruct (H loc).
Qed.

(** A failure after the answer of the provider touches nothing. *)
Lemma geocodeAddressFinish_rejected w now addr c message c1 tr :
  geocodeAddressFinish w now addr c = (Rejected message, c1, tr) ->
  c1 = c /\ tr = [].
Proof.
  unfold geocodeAddressFinish.
  destruct (fetch w addr) as [m | ok status [m | payload]].
  - now intros [= _ <- <-].
  - destruct (negb ok); now intros [= _ <- <-].
  - destruct (negb ok); [now intros [= _ <- <-] |].
    destruct (truthy (Google.error_message payload));
      [now intros [= _ <- <-] |].
    destruct (Google.results payload) as [[| r rs] |];
      try discriminate; now intros [= _ <- <-].
Qed.

Lemma getCachedResult_miss_get now addr c :
  NoDup (JsMap.keys c) ->
  fst (getCachedResult addr now c) = None ->
  JsMap.get (getCacheKey addr) (snd (getCachedResult addr now c)) = None.
Proof.
  intros Hnd. unfold getCachedResult.
  destruct (JsMap.get (getCacheKey addr) c) as [e |] eqn:E; simpl;
    [| now intros _].
  destruct (now - timestamp e >? ttl e)%Z; simpl; [| discriminate].
  intros _. now apply get_delete_same.
Qed.

Lemma getCachedResult_absent now addr c :
  JsMap.get (getCacheKey addr) c = None ->
  getCachedResult addr now c = (None, c).
Proof. unfold getCachedResult. now intros ->. Qed.

End Resolution.

(** C10, as the code has it.  When [geocodeAddress] fails, for whatever
    reason, it has written nothing to the cache: the cache it leaves is
    the one left by its initial lookup, that is the cache it found, less
    the expired entry of the address's own key if there was one.  No entry
    is stored under that key, so a later call is not answered from the
    cache. *)
Theorem geocodeAddress_failure_cache (w : World) (now later : Z)
    (addr message : string) (c c1 : Cache) (tr : list Event) :
  NoDup (JsMap.keys c) ->
  geocodeAddress w now addr c = (Rejected message, c1, tr) ->
  c1 = snd (getCachedResult addr now c) /\
  (c1 = c \/
   exists e, JsMap.get (getCacheKey addr) c = Some e /\
             (now - timestamp e > ttl e)%Z /\
             c1 = JsMap.delete (getCacheKey addr) c) /\
  ~ In (CacheWrite (getCacheKey addr)) tr /\
  getCachedResult addr later c1 = (None, c1).
Proof.
  intros Hnd Hrun.
  assert (Hc1 : c1 = snd (getCachedResult addr now c) /\
                ~ In (CacheWrite (getCacheKey addr)) tr /\
                fst (getCachedResult addr now c) = None).
  { unfold geocodeAddress in Hrun.
    pose proof (geocodeAddressStart_cache w now addr c) as Hs.
    destruct (geocodeAddressStart w now addr c) as [[s c0] tr0] eqn:Es.
    simpl in Hs. subst c0.
    pose proof (geocodeAddressStart_no_write w now addr c (getCacheKey addr))
      as Htr0.
    rewrite Es in Htr0. simpl in Htr0.
    destruct s as [r |].
    - injection Hrun as -> <- <-.
      repeat split; trivial.
      eapply geocodeAddressStart_miss; [exact Es | discriminate].
    - destruct (geocodeAddressFinish w (now + Z.of_nat (latency w addr)) addr
                  (snd (getCachedResult addr now c))) as [[r c2] tr2] eqn:Ef.
      injection Hrun as -> <- <-.
      apply geocodeAddressFinish_rejected in Ef as [-> ->].
      rewrite app_nil_r. repeat split; trivial.
      eapply geocodeAddressStart_miss; [exact Es | discriminate]. }
  destruct Hc1 as (Hc1 & Htr & Hmiss).
  repeat split; trivial.
  - rewrite Hc1. unfold getCachedResult.
    destruct (JsMap.get (getCacheKey addr) c) as [e |] eqn:E;
      [| now left].
    destruct (Z.gtb_spec (now - timestamp e) (ttl e)); [| now left].
    right. exists e. repeat split; trivial; lia.
  - apply getCachedResult_absent. rewrite Hc1.
    now apply getCachedResult_miss_get.
Qed.

Lemma geocodeAddress_failure_cache_counterexample :
  geocodeAddress unconfigured 3600001 "Paris" parisCache =
    (Rejected "GOOGLE_MAPS_API_KEY is not configured", [],
     [CacheRead "paris"]) /\
  JsMap.size parisCache = 1.
Proof. split; reflexivity. Qed.

Lemma geocodeAddress_failure_cache_witness :
  ([] : Cache) = snd (getCachedResult "Paris" 3600001 parisCache) /\
  (([] : Cache) = parisCache \/
   exists e, JsMap.get (getCacheKey "Paris") parisCache = Some e /\
             (3600001 - timestamp e > ttl e)%Z /\
             ([] : Cache) = JsMap.delete (getCacheKey "Paris") parisCache) /\
  ~ In (CacheWrite (getCacheKey "Paris")) [CacheRead "paris"] /\
  getCachedResult "Paris" 3600002 [] = (None, []).
Proof.
  apply (geocodeAddress_failure_cache unconfigured 3600001 3600002 "Paris"
           "GOOGLE_MAPS_API_KEY is not configured" parisCache []
           [CacheRead "paris"]).
  - apply distinctb_sound. reflexivity.
  - reflexivity.
Defined.

(** ** Blank addresses *)

Section Blank.

Lemma isWhiteSpace_lowerChar (ch : ascii) :
  JsString.isWhiteSpace (JsString.lowerChar ch) = JsString.isWhiteSpace ch.
Proof.
  destruct ch as [[] [] [] [] [] [] [] []]; reflexivity.
Qed.

Lemma hasInk_toLowerCase (s : string) :
  hasInk (JsString.toLowerCase s) = hasInk s.
Proof.
  induction s as [| ch s IH]; simpl; [reflexivity |].
  now rewrite isWhiteSpace_lowerChar, IH.
Qed.

Lemma hasInk_trimStart (s : string) : hasInk (JsString.trimStart s) = hasInk s.
Proof.
  induction s as [| ch s IH]; simpl; [reflexivity |].
  destruct (JsString.isWhiteSpace ch) eqn:E; simpl; [exact IH |].
  now rewrite E.
Qed.

Lemma hasInk_rev_append (s acc : string) :
  hasInk (JsString.rev_append s acc) = hasInk s || hasInk acc.
Proof.
  revert acc. induction s as [| ch s IH]; intros acc; simpl; [reflexivity |].
  rewrite IH. simpl.
  destruct (JsString.isWhiteSpace ch), (hasInk s), (hasInk acc); reflexivity.
Qed.

Lemma hasInk_rev (s : string) : hasInk (JsString.rev s) = hasInk s.
Proof.
  unfold JsString.rev. rewrite hasInk_rev_append. simpl. apply orb_false_r.
Qed.

Lemma hasInk_trim (s : string) : hasInk (JsString.trim s) = hasInk s.
Proof.
  unfold JsString.trim, JsString.trimEnd.
  now rewrite hasInk_rev, hasInk_trimStart, hasInk_rev, hasInk_trimStart.
Qed.

Lemma trimStart_empty (s : string) :
  hasInk s = false -> JsString.trimStart s = EmptyString.
Proof.
  induction s as [| ch s IH]; simpl; [reflexivity |].
  destruct (JsString.isWhiteSpace ch); simpl; [exact IH | discriminate].
Qed.

(** [s.trim()] is empty exactly when [s] is made of white space. *)
Lemma trim_empty_iff (s : string) :
  String.length (JsString.trim s) = 0 <-> hasInk s = false.
Proof.
  split.
  - intros H. rewrite <- hasInk_trim.
    destruct (JsString.trim s); [reflexivity | discriminate].
  - intros H. unfold JsString.trim. now rewrite (trimStart_empty s H).
Qed.

(** The cache key of a blank address is the empty string. *)
Lemma blank_key (addr : string) :
  String.length (JsString.trim addr) = 0 -> getCacheKey addr = EmptyString.
Proof.
  intros H. apply trim_empty_iff in H. unfold getCacheKey.
  assert (H' : String.length (JsString.trim (JsString.toLowerCase addr)) = 0)
    by (apply trim_empty_iff; now rewrite hasInk_toLowerCase).
  destruct (JsString.trim (JsString.toLowerCase addr));
    [reflexivity | discriminate].
Qed.

(** The no-break space is white space, and letters with accents have a
    lower case. *)
Example trim_no_break_space :
  JsString.trim (nbsp ++ " Paris" ++ nbsp)%string = "Paris"%string /\
  hasInk nbsp = false /\
  validAddressesOf [IString nbsp; IString "Paris"] = ["Paris"%string] /\
  getCacheKey ECOLE = ecole /\ getCacheKey ecole = ecole.
Proof. repeat split; reflexivity. Qed.

End Blank.

(** C5, as the code has it.  For an empty or white-space-only address
    [geocodeAddress] first looks the empty key up in the cache, and only
    then validates: it makes no provider request and stores nothing, and
    unless the lookup finds a live entry under the empty key it fails with
    the message 'Address is required'.  The code has no failure kinds. *)
Theorem geocodeAddress_blank (w : World) (now : Z) (addr : string) (c : Cache) :
  String.length (JsString.trim addr) = 0 ->
  geocodeAddress w now addr c =
    (match fst (getCachedResult addr now c) with
     | Some loc => Fulfilled loc
     | None => Rejected "Address is required"
     end,
     snd (getCachedResult addr now c),
     [CacheRead EmptyString]) /\
  (JsMap.get EmptyString c = None ->
   geocodeAddress w now addr c =
     (Rejected "Address is required", c, [CacheRead EmptyString])).
Proof.
  intros Hblank.
  assert (Hrun : geocodeAddress w now addr c =
    (match fst (getCachedResult addr now c) with
     | Some loc => Fulfilled loc
     | None => Rejected "Address is required"
     end,
     snd (getCachedResult addr now c),
     [CacheRead EmptyString])).
  { unfold geocodeAddress, geocodeAddressStart.
    rewrite (blank_key addr Hblank), Hblank.
    destruct (getCachedResult addr now c) as [[loc |] c1]; reflexivity. }
  split; [exact Hrun |].
  intros Habsent. rewrite Hrun.
  rewrite getCachedResult_absent by now rewrite blank_key.
  reflexivity.
Qed.

Lemma geocodeAddress_blank_counterexample :
  geocodeAddress polarWorld 0 "   " parisCache =
    (Rejected "Address is required", parisCache, [CacheRead ""]).
Proof. reflexivity. Qed.

Lemma geocodeAddress_blank_witness :
  geocodeAddress unconfigured 5 "  " parisCache =
    (Rejected "Address is required", parisCache, [CacheRead ""]).
Proof.
  apply (geocodeAddress_blank unconfigured 5 "  " parisCache);
    reflexivity.
Defined.

(** ** The coordinate parser *)

Section Parser.
Local Open Scope string_scope.

Lemma append_nil_r (s : string) : s ++ "" = s.
Proof. induction s as [| ch s IH]; simpl; [reflexivity | now rewrite IH]. Qed.

Lemma append_assoc (s1 s2 s3 : string) : (s1 ++ s2) ++ s3 = s1 ++ (s2 ++ s3).
Proof. induction s1 as [| ch s1 IH]; simpl; [reflexivity | now rewrite IH]. Qed.

Lemma allChars_app (p : ascii -> bool) (s1 s2 : string) :
  allChars p (s1 ++ s2) = allChars p s1 && allChars p s2.
Proof.
  induction s1 as [| ch s1 IH]; simpl; [reflexivity |].
  now rewrite IH, andb_assoc.
Qed.

Lemma allChars_impl (p q : ascii -> bool) (s : string) :
  (forall ch, p ch = true -> q ch = true) ->
  allChars p s = true -> allChars q s = true.
Proof.
  intros Hpq. induction s as [| ch s IH]; simpl; [reflexivity |].
  rewrite !andb_true_iff. intros [H1 H2]. split; [now apply Hpq | now apply IH].
Qed.

Lemma digitChar_isDigit (d : digit) : JsString.isDigit (digitChar d) = true.
Proof. destruct d; reflexivity. Qed.

Lemma whiteChar_isWhiteSpace (x : white) :
  JsString.isWhiteSpace (whiteChar x) = true.
Proof. destruct x; reflexivity. Qed.

Lemma digitsText_digits (l : list digit) :
  allChars JsString.isDigit (digitsText l) = true.
Proof.
  induction l as [| d l IH]; cbn [digitsText allChars]; [reflexivity |].
  now rewrite digitChar_isDigit, IH.
Qed.

Lemma whiteText_white (l : list white) :
  allChars JsString.isWhiteSpace (whiteText l) = true.
Proof.
  induction l as [| x l IH]; cbn [whiteText allChars]; [reflexivity |].
  now rewrite whiteChar_isWhiteSpace, IH.
Qed.

Lemma star_greedy {R : Type} (a : atom) (t rest : string)
    (k : string -> nat -> string -> option R) (x : R) :
  allChars (test a) t = true ->
  stopsAt (test a) rest = true ->
  (forall j, k t j rest = Some x) ->
  forall i, star a i (t ++ rest) k = Some x.
Proof.
  revert k. induction t as [| ch t IH]; intros k Ht Hrest Hk i; simpl.
  - destruct rest as [| ch rest]; simpl in *; [apply Hk |].
    apply negb_true_iff in Hrest. rewrite Hrest. apply Hk.
  - simpl in Ht. apply andb_true_iff in Ht as [Hch Ht]. rewrite Hch.
    rewrite (IH (fun t' => k (String ch t'))); trivial.
Qed.

Lemma matchesOn_star (a : atom) (t : string) :
  allChars (test a) t = true -> matchesOn (Star a) t [] (stopsAt (test a)).
Proof.
  intros Ht R k rest caps x Hrest Hk i. simpl.
  apply star_greedy; trivial. intros j. specialize (Hk j).
  now rewrite app_nil_r in Hk.
Qed.

Lemma matchesOn_plus (a : atom) (ch : ascii) (t : string) :
  test a ch = true -> allChars (test a) t = true ->
  matchesOn (Plus a) (String ch t) [] (stopsAt (test a)).
Proof.
  intros Hch Ht R k rest caps x Hrest Hk i. simpl. rewrite Hch.
  apply star_greedy; trivial. intros j. specialize (Hk j).
  now rewrite app_nil_r in Hk.
Qed.

Lemma matchesOn_one (a : atom) (ch : ascii) :
  test a ch = true -> matchesOn (One a) (String ch "") [] (fun _ => true).
Proof.
  intros Hch R k rest caps x _ Hk i. simpl. rewrite Hch.
  specialize (Hk (S i)). now rewrite app_nil_r in Hk.
Qed.

Lemma matchesOn_opt_some (a : atom) (ch : ascii) :
  test a ch = true -> matchesOn (Opt a) (String ch "") [] (fun _ => true).
Proof.
  intros Hch R k rest caps x _ Hk i. simpl. rewrite Hch.
  specialize (Hk (S i)). rewrite app_nil_r in Hk. now rewrite Hk.
Qed.

Lemma matchesOn_opt_none (a : atom) :
  matchesOn (Opt a) "" [] (stopsAt (test a)).
Proof.
  intros R k rest caps x Hrest Hk i. simpl.
  specialize (Hk i). rewrite app_nil_r in Hk.
  destruct rest as [| ch rest]; [exact Hk |].
  simpl in Hrest. apply negb_true_iff in Hrest. now rewrite Hrest.
Qed.

Lemma matchesOn_eol : matchesOn Eol "" [] atEnd.
Proof.
  intros R k rest caps x Hrest Hk i. simpl.
  destruct rest; [| discriminate].
  specialize (Hk i). now rewrite app_nil_r in Hk.
Qed.

Lemma matchesOn_cat (r1 r2 : re) (t1 t2 : string) (g1 g2 : Captures)
    (stop1 stop2 : string -> bool) :
  matchesOn r1 t1 g1 stop1 ->
  matchesOn r2 t2 g2 stop2 ->
  (forall rest, stop2 rest = true -> stop1 (t2 ++ rest) = true) ->
  matchesOn (r1 ;; r2)%re (t1 ++ t2) (g1 ++ g2)%list stop2.
Proof.
  intros H1 H2 Hstop R k rest caps x Hrest Hk i.
  rewrite append_assoc. cbn [run].
  apply H1; [now apply Hstop |].
  intros j. apply H2; [exact Hrest |].
  intros j'. rewrite <- app_assoc. apply Hk.
Qed.

Lemma matchesOn_group (r : re) (t : string) (g : Captures)
    (stop : string -> bool) :
  matchesOn r t g stop -> matchesOn (Group r) t (g ++ [t])%list stop.
Proof.
  intros H R k rest caps x Hrest Hk i. cbn [run].
  apply H; [exact Hrest |].
  intros j. rewrite <- app_assoc. apply Hk.
Qed.

Lemma matchesOn_stop (r : re) (t : string) (g : Captures)
    (stop stop' : string -> bool) :
  matchesOn r t g stop ->
  (forall rest, stop' rest = true -> stop rest = true) ->
  matchesOn r t g stop'.
Proof.
  intros H Himp R k rest caps x Hrest Hk i. apply H; auto.
Qed.

Lemma numberStop_digit (rest : string) :
  numberStop rest = true -> stopsAt (test Digit) rest = true.
Proof.
  destruct rest as [| ch rest]; simpl; [reflexivity |].
  rewrite !negb_true_iff, orb_false_iff. tauto.
Qed.

Lemma numberStop_point (rest : string) :
  numberStop rest = true -> stopsAt (test (Lit (chr 46))) rest = true.
Proof.
  destruct rest as [| ch rest]; simpl; [reflexivity |].
  rewrite !negb_true_iff, orb_false_iff. tauto.
Qed.

(** NUM consumes a numeral whole. *)
Lemma matchesOn_number (n : Numeral) :
  matchesOn numberRe (numeralText n) [] numberStop.
Proof.
  destruct n as [neg h tl fr]. unfold numberRe, numeralText.
  cbn [negative intHead intTail fraction fractionDigits].
  refine (matchesOn_cat _ _ _ _ [] []
            (if neg then fun _ => true else stopsAt (test (Lit (chr 45))))
            numberStop _ _ _).
  - destruct neg; [now apply matchesOn_opt_some | apply matchesOn_opt_none].
  - refine (matchesOn_cat _ _ _ _ [] [] (stopsAt (test Digit)) numberStop _ _ _).
    + apply matchesOn_plus; [apply digitChar_isDigit | apply digitsText_digits].
    + refine (matchesOn_cat _ _ _ _ [] []
                (match fr with
                 | Some _ => fun _ => true
                 | None => stopsAt (test (Lit (chr 46)))
                 end) numberStop _ _ _).
      * destruct fr; [now apply matchesOn_opt_some | apply matchesOn_opt_none].
      * apply (matchesOn_stop _ _ _ (stopsAt (test Digit)));
          [apply matchesOn_star, digitsText_digits | apply numberStop_digit].
      * intros rest Hrest. destruct fr; [reflexivity |].
        now apply numberStop_point.
    + intros rest Hrest. destruct fr; [reflexivity |].
      now apply numberStop_digit.
  - intros rest Hrest. destruct neg; [reflexivity |].
    destruct h; reflexivity.
Qed.

Lemma numeralText_head (n : Numeral) (rest : string) :
  stopsAt (test Space) (numeralText n ++ rest) = true.
Proof.
  destruct n as [[] h tl fr]; [reflexivity |]. destruct h; reflexivity.
Qed.

Lemma whiteText_comma_stop (l : list white) (rest : string) :
  numberStop (whiteText l ++ String (chr 44) rest) = true.
Proof. destruct l as [| [] l]; reflexivity. Qed.

(** The second pattern, less its [^], consumes a pair whole. *)
Lemma matchesOn_pair (n1 n2 : Numeral) (w1 w2 : list white) :
  matchesOn
    (Group numberRe ;; Star Space ;; One (Lit (chr 44)) ;; Star Space ;;
     Group numberRe ;; Eol)%re
    (pairText n1 n2 w1 w2)
    [numeralText n1; numeralText n2] atEnd.
Proof.
  unfold pairText. rewrite <- (append_nil_r (numeralText n2)) at 1.
  refine (matchesOn_cat _ _ _ _ [numeralText n1] [numeralText n2]
            numberStop atEnd _ _ _).
  - apply (matchesOn_group numberRe _ []), matchesOn_number.
  - refine (matchesOn_cat _ _ _ _ [] [numeralText n2]
              (stopsAt (test Space)) atEnd _ _ _).
    + apply matchesOn_star, whiteText_white.
    + refine (matchesOn_cat _ _ (String (chr 44) "") _ [] [numeralText n2]
                (fun _ => true) atEnd _ _ _).
      * now apply matchesOn_one.
      * refine (matchesOn_cat _ _ _ _ [] [numeralText n2]
                  (stopsAt (test Space)) atEnd _ _ _).
        -- apply matchesOn_star, whiteText_white.
        -- refine (matchesOn_cat _ _ _ _ [numeralText n2] []
                     numberStop atEnd _ _ _).
           ++ apply (matchesOn_group numberRe _ []), matchesOn_number.
           ++ apply matchesOn_eol.
           ++ intros rest Hrest. destruct rest; [reflexivity | discriminate].
        -- intros rest _. rewrite append_assoc. apply numeralText_head.
      * reflexivity.
    + reflexivity.
  - intros rest _. rewrite append_assoc. apply whiteText_comma_stop.
Qed.

Lemma execFrom_hit (r : re) (i : nat) (s : string) (m : Match) :
  run r i s [] (fun t _ _ caps => Some (mkMatch i t caps)) = Some m ->
  execFrom r i s = Some m.
Proof. destruct s; simpl; now intros ->. Qed.

(** At index 0 the assertion [^] holds. *)
Lemma run_bol {R : Type} (r : re) (s : string) (caps : Captures)
    (k : @Cont R) :
  run (Bol ;; r)%re 0 s caps k = run r 0 s caps k.
Proof. reflexivity. Qed.

Lemma coordPattern_exec (n1 n2 : Numeral) (w1 w2 : list white) :
  exec coordPattern (pairText n1 n2 w1 w2) =
    Some (mkMatch 0 (pairText n1 n2 w1 w2) [numeralText n1; numeralText n2]).
Proof.
  apply execFrom_hit. unfold coordPattern. rewrite run_bol.
  rewrite <- (append_nil_r (pairText n1 n2 w1 w2)) at 1.
  apply (matchesOn_pair n1 n2 w1 w2); [reflexivity |].
  intros j. reflexivity.
Qed.

Lemma execFrom_paren_none (s : string) :
  noParen s = true -> forall i, execFrom parenPattern i s = None.
Proof.
  induction s as [| ch s IH]; intros Hs i; [reflexivity |].
  unfold noParen in Hs. cbn [allChars] in Hs.
  apply andb_true_iff in Hs as [Hch Hs]. apply negb_true_iff in Hch.
  unfold parenPattern. cbn [execFrom run test]. rewrite Hch.
  apply IH, Hs.
Qed.

Lemma numeralText_noParen (n : Numeral) : noParen (numeralText n) = true.
Proof.
  destruct n as [neg h tl fr]. unfold noParen, numeralText.
  cbn [negative intHead intTail fraction fractionDigits].
  assert (Hd : forall l, allChars (fun ch => negb (Ascii.eqb (chr 40) ch))
                           (digitsText l) = true).
  { intros l. apply (allChars_impl JsString.isDigit); [| apply digitsText_digits].
    intros ch. destruct ch as [[] [] [] [] [] [] [] []]; vm_compute;
      intros H; first [reflexivity | discriminate H]. }
  rewrite !allChars_app, !Hd. destruct neg, fr; reflexivity.
Qed.

Lemma pairText_noParen (n1 n2 : Numeral) (w1 w2 : list white) :
  noParen (pairText n1 n2 w1 w2) = true.
Proof.
  unfold pairText.
  assert (Hw : forall l, noParen (whiteText l) = true).
  { intros l. apply (allChars_impl JsString.isWhiteSpace);
      [| apply whiteText_white].
    intros ch. destruct ch as [[] [] [] [] [] [] [] []]; vm_compute;
      intros H; first [reflexivity | discriminate H]. }
  pose proof (numeralText_noParen n1) as H1.
  pose proof (numeralText_noParen n2) as H2.
  pose proof (Hw w1) as Hw1. pose proof (Hw w2) as Hw2.
  unfold noParen in *.
  rewrite !allChars_app. cbn [allChars]. rewrite !allChars_app.
  rewrite H1, H2, Hw1, Hw2. reflexivity.
Qed.

Lemma digitValue_digitChar (d : digit) :
  digitValue (digitChar d) = Z.of_nat (digitIndex d).
Proof. destruct d; reflexivity. Qed.

Lemma readDigits_text (l : list digit) (rest : string) (acc : Z) (k : nat) :
  stopsAt JsString.isDigit rest = true ->
  readDigits (digitsText l ++ rest) acc k =
    (digitsValueFrom acc l, (k + List.length l)%nat, rest).
Proof.
  intros Hrest. revert acc k.
  induction l as [| d l IH]; intros acc k.
  - cbn [digitsText append digitsValueFrom List.length].
    rewrite Nat.add_0_r. destruct rest as [| ch rest]; [reflexivity |].
    cbn [stopsAt] in Hrest. apply negb_true_iff in Hrest.
    cbn [readDigits]. now rewrite Hrest.
  - cbn [digitsText append digitsValueFrom List.length readDigits].
    rewrite digitChar_isDigit, IH, digitValue_digitChar.
    now rewrite Nat.add_succ_r.
Qed.

Lemma parseFloat_numeral (n : Numeral) :
  parseFloat (numeralText n) = Double.round (numeralValue n).
Proof.
  destruct n as [neg h tl fr].
  unfold parseFloat, numeralValue, numeralText, fractionDigits.
  cbn [negative intHead intTail fraction].
  assert (Hsign :
    readSign (JsString.trimStart
      ((if neg then String (chr 45) "" else "") ++
       digitsText (h :: tl) ++
       (match fr with Some _ => String (chr 46) "" | None => "" end) ++
       digitsText (match fr with Some f => f | None => [] end))) =
    (neg, digitsText (h :: tl) ++
          (match fr with Some _ => String (chr 46) "" | None => "" end) ++
          digitsText (match fr with Some f => f | None => [] end))).
  { destruct neg; [reflexivity |]. destruct h; reflexivity. }
  rewrite Hsign. rewrite readDigits_text by (destruct fr; reflexivity).
  destruct fr as [f |]; cbn [append].
  - change (Ascii.eqb (chr 46) (chr 46)) with true. cbv iota.
    rewrite <- (append_nil_r (digitsText f)).
    rewrite readDigits_text by reflexivity. reflexivity.
  - reflexivity.
Qed.

End Parser.

(** C8, as the code has it.  For every string that is, from its first to
    its last character, a decimal numeral, a comma and a decimal numeral
    (each numeral with an optional minus sign and an optional decimal
    part, white space allowed on either side of the comma), the parser
    returns the two numbers, each as the double nearest to it, as
    coordinates and the input string, as it is, as address. *)
Theorem parse_bare_pair (n1 n2 : Numeral) (w1 w2 : list white) :
  parseCoordinatesFromLocation (pairText n1 n2 w1 w2) =
    mkParsed (pairText n1 n2 w1 w2)
      (Some (mkLatLng (Double.round (numeralValue n1))
                      (Double.round (numeralValue n2)))).
Proof.
  unfold parseCoordinatesFromLocation.
  unfold exec at 1. rewrite execFrom_paren_none by apply pairText_noParen.
  rewrite coordPattern_exec. unfold coordinatesOfMatch, parseGroup.
  cbn [groups Nat.sub nth_error].
  now rewrite !parseFloat_numeral.
Qed.

Lemma parse_bare_pair_counterexample :
  parseCoordinatesFromLocation " 40.7128,-74.0060" =
    mkParsed " 40.7128,-74.0060" None /\
  JsString.trim " 40.7128,-74.0060" = pairText newYork west74 [] [].
Proof. split; reflexivity. Qed.

Lemma parse_bare_pair_witness :
  parseCoordinatesFromLocation "40.7128, -74.0060" =
    mkParsed "40.7128, -74.0060"
      (Some (mkLatLng (Double.round (407128 # 10000))
                      (Double.round (-740060 # 10000)))).
Proof. exact (parse_bare_pair newYork west74 [] [Blank]). Defined.

(** ** Batch resolution *)

Section Batch.
Implicit Types (w : World) (st : BatchState) (a addr : string).

Lemma uniqueOf_acc (l acc : list string) :
  NoDup acc ->
  let u := fold_left
             (fun acc a => if existsb (String.eqb a) acc then acc else acc ++ [a])
             l acc in
  NoDup u /\ (forall x, In x u <-> In x acc \/ In x l).
Proof.
  revert acc. induction l as [| a l IH]; intros acc Hacc; simpl.
  - split; [exact Hacc | tauto].
  - destruct (existsb (String.eqb a) acc) eqn:E.
    + destruct (IH acc Hacc) as [Hnd Hin]. split; [exact Hnd |].
      intros x. rewrite Hin. apply existsb_exists in E as [y [Hy Heq]].
      apply String.eqb_eq in Heq. subst y.
      split; [tauto | intros [H | [<- | H]]; tauto].
    + assert (Hnew : ~ In a acc).
      { intros Hin. apply not_true_iff_false in E. apply E.
        apply existsb_exists. exists a. split; [exact Hin | apply String.eqb_refl]. }
      assert (Hacc' : NoDup (acc ++ [a])).
      { apply NoDup_app; [exact Hacc | repeat constructor; simpl; tauto |].
        intros x Hx [<- | []]. contradiction. }
      destruct (IH (acc ++ [a]) Hacc') as [Hnd Hin]. split; [exact Hnd |].
      intros x. rewrite Hin, in_app_iff. simpl. tauto.
Qed.

Lemma uniqueOf_NoDup (l : list string) : NoDup (uniqueOf l).
Proof. apply (uniqueOf_acc l []). constructor. Qed.

Lemma uniqueOf_In (l : list string) (x : string) :
  In x (uniqueOf l) <-> In x l.
Proof.
  destruct (uniqueOf_acc l [] (NoDup_nil _)) as [_ H].
  unfold uniqueOf. rewrite H. simpl. tauto.
Qed.

Lemma partitioned_ext (S S' : list string) st :
  (forall x, In x S <-> In x S') -> partitioned S st -> partitioned S' st.
Proof.
  intros Heq H a. destruct (H a) as [H1 H2]. split; [| exact H2].
  now rewrite H1.
Qed.

Lemma partitioned_same (S : list string) st st' :
  results st' = results st -> errors st' = errors st ->
  partitioned S st -> partitioned S st'.
Proof. intros Hr He H a. rewrite Hr, He. apply H. Qed.

(** Settling a new address keeps the two maps apart. *)
Lemma settle_partitioned (S : list string) st addr
    (r : Settled GeocodedLocation) :
  partitioned S st -> ~ In addr S -> partitioned (addr :: S) (settle addr r st).
Proof.
  intros H Hnew a. destruct (H a) as [H1 H2].
  assert (Hfresh : a = addr ->
            JsMap.has a (results st) = false /\ JsMap.has a (errors st) = false).
  { intros ->. apply orb_false_iff. apply not_true_iff_false.
    intros Hc. apply H1 in Hc. contradiction. }
  destruct r as [loc | message]; simpl; rewrite has_set;
    destruct (String.eqb_spec a addr) as [E | E]; simpl.
  - destruct (Hfresh E) as [_ ->]. split; [| reflexivity].
    split; [intros _; left; now symmetry | intros _; reflexivity].
  - split; [| exact H2]. rewrite H1.
    split; [tauto | intros [E' | I]; [congruence | exact I]].
  - destruct (Hfresh E) as [-> _]. split; [| reflexivity].
    split; [intros _; left; now symmetry | intros _; reflexivity].
  - split; [| exact H2]. rewrite H1.
    split; [tauto | intros [E' | I]; [congruence | exact I]].
Qed.

Lemma startAll_spec w now (chunk : list string) st :
  map fst (fst (startAll w now chunk st)) = chunk /\
  results (snd (startAll w now chunk st)) = results st /\
  errors (snd (startAll w now chunk st)) = errors st.
Proof.
  revert st. induction chunk as [| addr chunk IH]; intros st; simpl;
    [repeat split |].
  destruct (geocodeAddressStart w now addr (cache st)) as [[s c1] tr].
  specialize (IH (mkBatchState (results st) (errors st) c1 (trace st ++ tr))).
  destruct (startAll w now chunk
              (mkBatchState (results st) (errors st) c1 (trace st ++ tr)))
    as [started st2].
  simpl in *. destruct IH as (-> & -> & ->). repeat split.
Qed.

Lemma started_split (started : list (string * Started)) :
  NoDup (map fst started) ->
  NoDup (settledEarly started) /\ NoDup (awaited started) /\
  (forall x, In x (map fst started) <->
             In x (settledEarly started) \/ In x (awaited started)) /\
  (forall x, In x (settledEarly started) -> ~ In x (awaited started)).
Proof.
  induction started as [| [addr s] started IH]; simpl; intros Hnd.
  - repeat split; try constructor; tauto.
  - inversion Hnd as [| ? ? Hout Hnd']; subst.
    destruct (IH Hnd') as (H1 & H2 & H3 & H4).
    destruct s as [r |]; simpl.
    + repeat split; trivial.
      * constructor; [| exact H1]. intros Hin. apply Hout, H3. now left.
      * rewrite H3. tauto.
      * rewrite H3. tauto.
      * intros x [<- | Hx] Hw; [apply Hout, H3; now right | now apply (H4 x)].
    + repeat split; trivial.
      * constructor; [| exact H2]. intros Hin. apply Hout, H3. now right.
      * rewrite H3. tauto.
      * rewrite H3. tauto.
      * intros x Hx [<- | Hw]; [apply Hout, H3; now left | now apply (H4 x)].
Qed.

Lemma settleDone_partitioned (started : list (string * Started)) st
    (S S' : list string) :
  partitioned S st ->
  NoDup (settledEarly started) ->
  (forall x, In x (settledEarly started) -> ~ In x S) ->
  (forall x, In x S' <-> In x (settledEarly started) \/ In x S) ->
  partitioned S' (settleDone started st).
Proof.
  revert st S. induction started as [| [addr s] started IH];
    intros st S HS Hnd Hnew Heq; simpl.
  - apply (partitioned_ext S); [| exact HS]. intros x. rewrite Heq. simpl. tauto.
  - destruct s as [r |]; simpl in *.
    + inversion Hnd as [| ? ? Hout Hnd']; subst.
      apply (IH _ (addr :: S)); trivial.
      * apply settle_partitioned; [exact HS | apply Hnew; now left].
      * intros x Hx [<- | Hin]; [contradiction | apply (Hnew x); tauto].
      * intros x. rewrite Heq. simpl. tauto.
    + now apply (IH _ S).
Qed.

Lemma finishAll_partitioned w now (arrivals : list string) st
    (S S' : list string) :
  partitioned S st ->
  NoDup arrivals ->
  (forall x, In x arrivals -> ~ In x S) ->
  (forall x, In x S' <-> In x arrivals \/ In x S) ->
  partitioned S' (finishAll w now arrivals st).
Proof.
  revert st S. induction arrivals as [| addr arrivals IH];
    intros st S HS Hnd Hnew Heq; simpl.
  - apply (partitioned_ext S); [| exact HS]. intros x. rewrite Heq. simpl. tauto.
  - destruct (geocodeAddressFinish w (now + Z.of_nat (latency w addr)) addr
                (cache st)) as [[r c1] tr].
    inversion Hnd as [| ? ? Hout Hnd']; subst.
    apply (IH _ (addr :: S)); trivial.
    + apply settle_partitioned; [| apply Hnew; now left].
      now apply (partitioned_same S st).
    + intros x Hx [<- | Hin]; [contradiction | apply (Hnew x); simpl; tauto].
    + intros x. rewrite Heq. simpl. tauto.
Qed.

(** One iteration settles every address of its chunk, once. *)
Lemma processChunk_partitioned w now (chunk : list string) st
    (S : list string) :
  partitioned S st ->
  NoDup chunk ->
  (forall x, In x chunk -> ~ In x S) ->
  partitioned (S ++ chunk) (fst (processChunk w now chunk st)).
Proof.
  intros HS Hnd Hnew. unfold processChunk.
  destruct (startAll_spec w now chunk st) as (Hfst & Hres & Herr).
  destruct (startAll w now chunk st) as [started st1]. simpl in *.
  rewrite <- Hfst in Hnd.
  destruct (started_split started Hnd) as (H1 & H2 & H3 & H4).
  pose proof (sortBy_perm (latencyOf w) (awaited started)) as Hperm.
  apply (finishAll_partitioned w now _ _ (settledEarly started ++ S)).
  - apply (settleDone_partitioned started st1 S); trivial.
    + now apply (partitioned_same S st).
    + intros x Hx. apply Hnew. rewrite <- Hfst. apply H3. now left.
    + intros x. apply in_app_iff.
  - eapply Permutation_NoDup; [apply Permutation_sym, Hperm | exact H2].
  - intros x Hx Hin. apply (Permutation_in _ Hperm) in Hx.
    apply in_app_iff in Hin as [Hin | Hin].
    + now apply (H4 x).
    + apply (Hnew x); [| exact Hin]. rewrite <- Hfst. apply H3. now right.
  - intros x. rewrite !in_app_iff, <- Hfst, H3.
    split.
    + intros [Hx | [Hx | Hx]]; [tauto | tauto |].
      left. eapply Permutation_in; [apply Permutation_sym, Hperm | exact Hx].
    + intros [Hx | [Hx | Hx]]; [| tauto | tauto].
      right. right. eapply Permutation_in; [exact Hperm | exact Hx].
Qed.

Lemma firstn_add {A : Type} (i p : nat) (l : list A) :
  firstn (i + p) l = firstn i l ++ firstn p (skipn i l).
Proof.
  revert l. induction i as [| i IH]; intros l; [reflexivity |].
  destruct l as [| x l]; simpl; [now rewrite firstn_nil | now rewrite IH].
Qed.

Lemma slice_chunk {A : Type} (i p : nat) (l : list A) :
  slice i (i + p) l = firstn p (skipn i l).
Proof. unfold slice. f_equal. lia. Qed.

(** With a positive chunk size the loop ends, and every address has then
    been settled once. *)
Lemma batchLoop_partitioned w (parallel : nat) (uniqueAddresses : list string) :
  NoDup uniqueAddresses ->
  0 < parallel ->
  forall (fuel i : nat) (now : Z) st,
    List.length uniqueAddresses < fuel + i ->
    partitioned (firstn i uniqueAddresses) st ->
    exists st',
      batchLoop fuel w parallel uniqueAddresses i now st = Some st' /\
      partitioned uniqueAddresses st'.
Proof.
  intros Hnd Hpar. induction fuel as [| fuel IH]; intros i now st Hfuel HS.
  - simpl in *. destruct (Nat.ltb_spec i (List.length uniqueAddresses)); [lia |].
    exists st. split; [reflexivity |]. now rewrite firstn_all2 in HS by lia.
  - cbn [batchLoop].
    destruct (Nat.ltb_spec i (List.length uniqueAddresses)) as [Hlt | Hge].
    + rewrite slice_chunk.
      pose proof (processChunk_partitioned w now
                    (firstn parallel (skipn i uniqueAddresses)) st
                    (firstn i uniqueAddresses) HS) as Hchunk.
      destruct (processChunk w now (firstn parallel (skipn i uniqueAddresses)) st)
        as [st1 now1]. simpl in Hchunk.
      apply IH; [lia |].
      rewrite firstn_add. apply Hchunk.
      * apply NoDup_firstn, NoDup_skipn, Hnd.
      * intros x Hx Hin. apply in_firstn in Hx.
        rewrite <- (firstn_skipn i uniqueAddresses) in Hnd.
        now apply (NoDup_app_disjoint _ _ x Hnd).
    + exists st. split; [reflexivity |]. now rewrite firstn_all2 in HS by lia.
Qed.

Lemma partitioned_start (c : Cache) : partitioned [] (mkBatchState [] [] c []).
Proof. intros a. simpl. split; [split; [discriminate | tauto] | reflexivity]. Qed.

(** [batchGeocodeAddresses] returns, and its two maps split the distinct
    addresses of its input. *)
Lemma batchGeocodeAddresses_partitioned w (addresses : list string)
    (parallel : nat) (now : Z) (c : Cache) :
  0 < parallel ->
  exists run,
    batchGeocodeAddresses w addresses parallel now c = Some run /\
    forall a,
      (JsMap.has a (returned run) || JsMap.has a (dropped run) = true <->
       In a addresses) /\
      JsMap.has a (returned run) && JsMap.has a (dropped run) = false.
Proof.
  intros Hpar. unfold batchGeocodeAddresses.
  destruct (batchLoop_partitioned w parallel (uniqueOf addresses)
              (uniqueOf_NoDup addresses) Hpar
              (S (List.length (uniqueOf addresses))) 0 now
              (mkBatchState [] [] c []))
    as (st & -> & Hst); [lia | apply partitioned_start |].
  eexists. split; [reflexivity |]. simpl.
  intros a. destruct (Hst a) as [H1 H2]. split; [| exact H2].
  now rewrite H1, uniqueOf_In.
Qed.

(** With chunk size 0 the loop never ends on a non-empty list. *)
Lemma batchLoop_zero w (uniqueAddresses : list string) (fuel : nat) (now : Z)
    st :
  uniqueAddresses <> [] ->
  batchLoop fuel w 0 uniqueAddresses 0 now st = None.
Proof.
  intros Hne. revert now st. induction fuel as [| fuel IH]; intros now st;
    cbn [batchLoop]; destruct uniqueAddresses as [| a l]; try congruence;
    cbn [List.length Nat.ltb Nat.leb]; [reflexivity |].
  destruct (processChunk w now (slice 0 (0 + 0) (a :: l)) st) as [st1 now1].
  apply IH.
Qed.

End Batch.

(** C3, as the code has it.  The route handler rejects a batch before any
    work (no cache access, no provider request, status 400) exactly when
    the list is empty, or has more than 100 items, or has no item that is
    a string with a character other than white space.  Every other batch
    is resolved and answered with a success, failures being per address.
    [batchGeocodeAddresses] itself validates nothing. *)
Theorem handleBatchGeocoding_validation (w : World) (now : Z)
    (addresses : list JsItem) (c : Cache) :
  (List.length addresses = 0 \/ 100 < List.length addresses \/
   validAddressesOf addresses = [] ->
   exists message,
     handleBatchGeocoding w now addresses c =
       (ErrorResponse 400 "Bad request" message, c, [])) /\
  (0 < List.length addresses -> List.length addresses <= 100 ->
   validAddressesOf addresses <> [] ->
   exists run,
     batchGeocodeAddresses w (validAddressesOf addresses) 5 now c = Some run /\
     handleBatchGeocoding w now addresses c =
       (BatchOk (returned run) (Z.of_nat (JsMap.size (returned run))) 0
          (Z.of_nat (List.length (validAddressesOf addresses)) -
           Z.of_nat (JsMap.size (returned run))),
        cacheAfter run, effects run)).
Proof.
  unfold handleBatchGeocoding. split.
  - intros H.
    destruct (Nat.eqb_spec (List.length addresses) 0); [eexists; reflexivity |].
    destruct (Nat.ltb_spec 100 (List.length addresses)); [eexists; reflexivity |].
    destruct H as [H | [H | H]]; [lia | lia |].
    rewrite H. eexists; reflexivity.
  - intros Hpos Hmax Hvalid.
    destruct (Nat.eqb_spec (List.length addresses) 0); [lia |].
    destruct (Nat.ltb_spec 100 (List.length addresses)); [lia |].
    destruct (validAddressesOf addresses) as [| a l] eqn:E; [congruence |].
    cbn [List.length Nat.eqb].
    destruct (batchGeocodeAddresses_partitioned w (a :: l) 5 now c)
      as (run & Hrun & _); [lia |].
    exists run. rewrite Hrun. split; reflexivity.
Qed.

Lemma handleBatchGeocoding_validation_counterexample :
  handleBatchGeocoding parisWorld 0 [IString "   "; IOther] [] =
    (ErrorResponse 400 "Bad request" "No valid addresses provided", [], []) /\
  option_map returned (batchGeocodeAddresses parisWorld [] 5 0 []) = Some [].
Proof. split; reflexivity. Qed.

Lemma handleBatchGeocoding_validation_witness :
  exists message,
    handleBatchGeocoding parisWorld 0 [] parisCache =
      (ErrorResponse 400 "Bad request" message, parisCache, []).
Proof.
  apply (handleBatchGeocoding_validation parisWorld 0 [] parisCache).
  left. reflexivity.
Defined.

(** * Further properties *)

(** ** Bounding box and map view *)

Section BoundingBox.
Local Open Scope Q_scope.

Lemma Qmax_cases (x y : Q) : Qmax x y = x \/ Qmax x y = y.
Proof.
  unfold Qmax, GenericMinMax.gmax. destruct (x ?= y); auto.
Qed.

Lemma Qmin_cases (x y : Q) : Qmin x y = x \/ Qmin x y = y.
Proof.
  unfold Qmin, GenericMinMax.gmin. destruct (x ?= y); auto.
Qed.

(** What the loop of [calculateBounds] computes from an accumulator. *)
Lemma bounds_fold (l : list Coordinates) (a b c d : Q) :
  exists A B C D,
    fold_left boundsStep l (a, b, c, d) = (A, B, C, D) /\
    (a <= A /\ B <= b /\ c <= C /\ D <= d) /\
    (forall p, In p l ->
       lat p <= A /\ B <= lat p /\ lng p <= C /\ D <= lng p) /\
    (A = a \/ exists p, In p l /\ A = lat p) /\
    (B = b \/ exists p, In p l /\ B = lat p) /\
    (C = c \/ exists p, In p l /\ C = lng p) /\
    (D = d \/ exists p, In p l /\ D = lng p).
Proof.
  revert a b c d. induction l as [| x l IH]; intros a b c d.
  - exists a, b, c, d. split; [reflexivity |].
    split; [repeat split; apply Qle_refl |].
    split; [intros p [] |]. repeat split; now left.
  - cbn [fold_left boundsStep].
    destruct (IH (Qmax a (lat x)) (Qmin b (lat x))
                 (Qmax c (lng x)) (Qmin d (lng x)))
      as (A & B & C & D & Hfold & (Ha & Hb & Hc & Hd) & Hin & HA & HB & HC & HD).
    exists A, B, C, D. split; [exact Hfold |].
    pose proof (Q.le_max_l a (lat x)). pose proof (Q.le_max_r a (lat x)).
    pose proof (Q.le_min_l b (lat x)). pose proof (Q.le_min_r b (lat x)).
    pose proof (Q.le_max_l c (lng x)). pose proof (Q.le_max_r c (lng x)).
    pose proof (Q.le_min_l d (lng x)). pose proof (Q.le_min_r d (lng x)).
    split; [repeat split; lra |].
    split.
    { intros q [E | Hq]; [subst q; repeat split; lra | now apply Hin]. }
    repeat split.
    + destruct HA as [-> | (p & Hp & ->)]; [| right; exists p; simpl; auto].
      destruct (Qmax_cases a (lat x)) as [-> | ->]; [now left |].
      right. exists x. simpl. auto.
    + destruct HB as [-> | (p & Hp & ->)]; [| right; exists p; simpl; auto].
      destruct (Qmin_cases b (lat x)) as [-> | ->]; [now left |].
      right. exists x. simpl. auto.
    + destruct HC as [-> | (p & Hp & ->)]; [| right; exists p; simpl; auto].
      destruct (Qmax_cases c (lng x)) as [-> | ->]; [now left |].
      right. exists x. simpl. auto.
    + destruct HD as [-> | (p & Hp & ->)]; [| right; exists p; simpl; auto].
      destruct (Qmin_cases d (lng x)) as [-> | ->]; [now left |].
      right. exists x. simpl. auto.
Qed.

Lemma calculateBounds_fold (first : Coordinates) (rest : list Coordinates) :
  calculateBounds (first :: rest) =
    let '(maxLat, minLat, maxLng, minLng) :=
      fold_left boundsStep (first :: rest)
                (lat first, lat first, lng first, lng first) in
    mkBounds (mkCoordinates maxLat maxLng) (mkCoordinates minLat minLng).
Proof. reflexivity. Qed.

Lemma calculateBounds_box (points : list Coordinates) :
  (forall p, In p points -> inBox (calculateBounds points) p) /\
  (points <> [] ->
   (exists p, In p points /\ lat (ne (calculateBounds points)) = lat p) /\
   (exists p, In p points /\ lat (sw (calculateBounds points)) = lat p) /\
   (exists p, In p points /\ lng (ne (calculateBounds points)) = lng p) /\
   (exists p, In p points /\ lng (sw (calculateBounds points)) = lng p)) /\
  (points = [] ->
   calculateBounds points = mkBounds (mkCoordinates 0 0) (mkCoordinates 0 0)).
Proof.
  destruct points as [| first rest].
  - split; [intros p [] | split; [congruence | reflexivity]].
  - rewrite calculateBounds_fold.
    destruct (bounds_fold (first :: rest) (lat first) (lat first)
                          (lng first) (lng first))
      as (A & B & C & D & -> & _ & Hin & HA & HB & HC & HD).
    cbn [ne sw lat lng]. split; [| split; [| discriminate]].
    + intros p Hp. destruct (Hin p Hp) as (H1 & H2 & H3 & H4).
      unfold inBox. cbn [ne sw lat lng]. tauto.
    + intros _. repeat split.
      * destruct HA as [-> | H]; [exists first; simpl; auto | exact H].
      * destruct HB as [-> | H]; [exists first; simpl; auto | exact H].
      * destruct HC as [-> | H]; [exists first; simpl; auto | exact H].
      * destruct HD as [-> | H]; [exists first; simpl; auto | exact H].
Qed.

(** X1.  [calculateBounds] returns the smallest box around its points:
    every point lies inside the box, each of the four sides passes through
    one of the points, and the empty list gives the box at the origin. *)
Theorem calculateBounds_smallest_box (points : list Coordinates) :
  (forall p, In p points -> inBox (calculateBounds points) p) /\
  (points <> [] ->
   (exists p, In p points /\ lat (ne (calculateBounds points)) = lat p) /\
   (exists p, In p points /\ lat (sw (calculateBounds points)) = lat p) /\
   (exists p, In p points /\ lng (ne (calculateBounds points)) = lng p) /\
   (exists p, In p points /\ lng (sw (calculateBounds points)) = lng p)) /\
  (points = [] ->
   calculateBounds points = mkBounds (mkCoordinates 0 0) (mkCoordinates 0 0)).
Proof. exact (calculateBounds_box points). Qed.

Lemma calculateBounds_smallest_box_witness :
  inBox (calculateBounds [sanFrancisco; losAngeles]) losAngeles /\
  calculateBounds [sanFrancisco; losAngeles] =
    mkBounds (mkCoordinates (377749 # 10000) (-1182437 # 10000))
             (mkCoordinates (340522 # 10000) (-1224194 # 10000)).
Proof.
  split; [| reflexivity].
  apply (calculateBounds_smallest_box [sanFrancisco; losAngeles]).
  right. left. reflexivity.
Defined.

Lemma zoom_range (b : Bounds) : (6 <= getZoomLevel b <= 14)%Z.
Proof. apply getZoomLevel_range. Qed.

Lemma fitView_inside_core (initial : MapView) (points : list Coordinates) :
  (points <> [] ->
   inBox (calculateBounds points) (viewCenter (fitView initial points)) /\
   (6 <= viewZoom (fitView initial points) <= 14)%Z) /\
  (points = [] -> fitView initial points = initial).
Proof.
  split; [| now intros ->].
  intros Hne. destruct (calculateBounds_box points) as (Hin & _ & _).
  destruct points as [| p [| q rest]]; [congruence | |].
  - split; [apply Hin; now left | cbn [fitView viewZoom]; lia].
  - cbn [fitView viewCenter viewZoom]. split; [| apply zoom_range].
    destruct (Hin p (or_introl eq_refl)) as (H1 & H2 & H3 & H4).
    unfold inBox. cbn [lat lng].
    set (b := calculateBounds (p :: q :: rest)) in *.
    assert (Hhalf : forall x y, x <= y -> x <= (y + x) / 2 /\ (y + x) / 2 <= y).
    { intros x y Hxy. split.
      - apply Qle_shift_div_l; [reflexivity | lra].
      - apply Qle_shift_div_r; [reflexivity | lra]. }
    destruct (Hhalf (lat (sw b)) (lat (ne b))) as [? ?]; [lra |].
    destruct (Hhalf (lng (sw b)) (lng (ne b))) as [? ?]; [lra |].
    tauto.
Qed.



(** The span of the box is the largest distance, on either axis, between
    two of the points. *)
Lemma span_upper (points : list Coordinates) (d : Q) :
  points <> [] ->
  (forall p q, In p points -> In q points ->
     Qabs (lat p - lat q) <= d /\ Qabs (lng p - lng q) <= d) ->
  span (calculateBounds points) <= d.
Proof.
  intros Hne Hclose.
  destruct (calculateBounds_box points) as (_ & Htight & _).
  destruct (Htight Hne)
    as ((p1 & Hp1 & E1) & (p2 & Hp2 & E2) & (p3 & Hp3 & E3) & (p4 & Hp4 & E4)).
  unfold span. rewrite E1, E2, E3, E4.
  apply Q.max_lub; [apply (Hclose p1 p2) | apply (Hclose p3 p4)]; assumption.
Qed.

Lemma span_lower (points : list Coordinates) (p q : Coordinates) :
  In p points -> In q points ->
  Qabs (lat p - lat q) <= span (calculateBounds points) /\
  Qabs (lng p - lng q) <= span (calculateBounds points).
Proof.
  intros Hp Hq.
  destruct (calculateBounds_box points) as (Hin & _ & _).
  destruct (Hin p Hp) as (P1 & P2 & P3 & P4).
  destruct (Hin q Hq) as (Q1 & Q2 & Q3 & Q4).
  unfold span.
  set (b := calculateBounds points) in *.
  pose proof (Qle_Qabs (lat (ne b) - lat (sw b))).
  pose proof (Qle_Qabs (lng (ne b) - lng (sw b))).
  pose proof (Q.le_max_l (Qabs (lat (ne b) - lat (sw b)))
                         (Qabs (lng (ne b) - lng (sw b)))).
  pose proof (Q.le_max_r (Qabs (lat (ne b) - lat (sw b)))
                         (Qabs (lng (ne b) - lng (sw b)))).
  split; apply Qabs_Qle_condition; split; lra.
Qed.

(** X3.  The zoom level follows the spread of the geocoded events, their
    coordinates being doubles: when all of them lie within 0.1 degree of
    one another on both axes the map is zoomed in to level 14, and as soon
    as the difference of two of them on one axis, computed as the code
    computes it, exceeds 10 degrees it is zoomed out to level 6. *)
Theorem fitView_zoom_spread (initial : MapView) (points : list Coordinates) :
  (forall p, In p points -> doublePoint p = true) ->
  (points <> [] ->
   (forall p q, In p points -> In q points ->
      Qabs (lat p - lat q) <= 1 # 10 /\ Qabs (lng p - lng q) <= 1 # 10) ->
   viewZoom (fitView initial points) = 14%Z) /\
  (forall p q, In p points -> In q points ->
     Double.gtb (Double.abs (Double.sub (lat p) (lat q))) (Double.Finite 10) = true \/
     Double.gtb (Double.abs (Double.sub (lng p) (lng q))) (Double.Finite 10) = true ->
     viewZoom (fitView initial points) = 6%Z).
Proof.
  intros _. split.
  - intros Hne Hclose. pose proof (span_upper points (1 # 10) Hne Hclose) as Hs.
    destruct points as [| p [| q rest]]; [congruence | reflexivity |].
    cbn [fitView viewZoom]. now apply getZoomLevel_near.
  - intros p q Hp Hq Hfar.
    destruct (span_lower points p q Hp Hq) as [Hlat Hlng].
    assert (Hs : Double.gtb (Double.round (span (calculateBounds points)))
                            (Double.Finite 10) = true).
    { destruct Hfar as [H | H]; unfold Double.sub in H;
        rewrite (gtb_same _ _ _ _ (abs_round _) (sameNumber_refl _)) in H.
      - exact (gtb_round_mono _ _ _ Hlat H).
      - exact (gtb_round_mono _ _ _ Hlng H). }
    destruct points as [| p0 [| q0 rest]]; [destruct Hp | |].
    + exfalso. destruct Hp as [<- | []]. destruct Hq as [<- | []].
      assert (E1 : lat p0 - lat p0 == 0) by ring.
      assert (E2 : lng p0 - lng p0 == 0) by ring.
      unfold Double.sub in Hfar.
      rewrite (round_zero _ E1), (round_zero _ E2) in Hfar.
      destruct Hfar as [H | H]; discriminate H.
    + cbn [fitView viewZoom]. now apply getZoomLevel_far.
Qed.

Lemma fitView_zoom_spread_witness :
  viewZoom (fitView (mkMapView losAngeles 12) [office; cafe]) = 14%Z.
Proof.
  apply (fitView_zoom_spread (mkMapView losAngeles 12) [office; cafe]).
  - intros p [<- | [<- | []]]; vm_compute; reflexivity.
  - discriminate.
  - intros p q [<- | [<- | []]] [<- | [<- | []]]; split; vm_compute;
      discriminate.
Defined.

Lemma isValidCoordinates_iff (la ln : Q) :
  isValidCoordinates (Double.Finite la) (Double.Finite ln) = true <->
  -90 <= la /\ la <= 90 /\ -180 <= ln /\ ln <= 180.
Proof.
  unfold isValidCoordinates, Double.geb. cbn [Double.leb].
  rewrite !andb_true_iff, !Qle_bool_iff. tauto.
Qed.

(** X15.  Valid coordinates give a valid map: when every point passes
    [isValidCoordinates], so do both corners of [calculateBounds] and, if
    there is a point at all, the centre the map view is given. *)
Theorem bounds_of_valid_points (initial : MapView) (points : list Coordinates) :
  (forall p, In p points -> isValidCoordinates (Double.Finite (lat p)) (Double.Finite (lng p)) = true) ->
  isValidCoordinates (Double.Finite (lat (ne (calculateBounds points))))
                     (Double.Finite (lng (ne (calculateBounds points)))) = true /\
  isValidCoordinates (Double.Finite (lat (sw (calculateBounds points))))
                     (Double.Finite (lng (sw (calculateBounds points)))) = true /\
  (points <> [] ->
   isValidCoordinates
     (Double.Finite (lat (viewCenter (fitView initial points))))
     (Double.Finite (lng (viewCenter (fitView initial points)))) = true).
Proof.
  intros Hvalid.
  assert (Hcorners :
    isValidCoordinates (Double.Finite (lat (ne (calculateBounds points))))
                       (Double.Finite (lng (ne (calculateBounds points)))) = true /\
    isValidCoordinates (Double.Finite (lat (sw (calculateBounds points))))
                       (Double.Finite (lng (sw (calculateBounds points)))) = true).
  { destruct points as [| first rest]; [split; reflexivity |].
    destruct (calculateBounds_box (first :: rest)) as (_ & Htight & _).
    destruct Htight
      as ((p1 & Hp1 & ->) & (p2 & Hp2 & ->) & (p3 & Hp3 & ->) & (p4 & Hp4 & ->));
      [discriminate |].
    pose proof (proj1 (isValidCoordinates_iff _ _) (Hvalid p1 Hp1)).
    pose proof (proj1 (isValidCoordinates_iff _ _) (Hvalid p2 Hp2)).
    pose proof (proj1 (isValidCoordinates_iff _ _) (Hvalid p3 Hp3)).
    pose proof (proj1 (isValidCoordinates_iff _ _) (Hvalid p4 Hp4)).
    split; apply isValidCoordinates_iff; tauto. }
  destruct Hcorners as [Hne Hsw]. repeat split; trivial.
  intros Hpts.
  destruct (proj1 (fitView_inside_core initial points) Hpts) as [Hin _].
  apply isValidCoordinates_iff in Hne, Hsw. apply isValidCoordinates_iff.
  unfold inBox in Hin. lra.
Qed.

Lemma bounds_of_valid_points_witness :
  isValidCoordinates
    (Double.Finite
       (lat (viewCenter (fitView (mkMapView losAngeles 12)
                                 [sanFrancisco; losAngeles]))))
    (Double.Finite
       (lng (viewCenter (fitView (mkMapView losAngeles 12)
                                 [sanFrancisco; losAngeles])))) =
  true.
Proof.
  apply (bounds_of_valid_points (mkMapView losAngeles 12)
           [sanFrancisco; losAngeles]); [| discriminate].
  intros p [<- | [<- | []]]; reflexivity.
Defined.

End BoundingBox.

(** ** Cache maintenance *)

Section Maintenance.
Implicit Types (c : Cache) (k : string).

Lemma keys_filter_incl (f : string * CacheEntry -> bool) c k :
  In k (JsMap.keys (filter f c)) -> In k (JsMap.keys c).
Proof.
  unfold JsMap.keys. intros H. apply in_map_iff in H as [x [<- Hx]].
  apply filter_In in Hx as [Hx _]. now apply in_map.
Qed.

Lemma NoDup_keys_filter (f : string * CacheEntry -> bool) c :
  NoDup (JsMap.keys c) -> NoDup (JsMap.keys (filter f c)).
Proof.
  induction c as [| [k0 e0] c IH]; simpl; [trivial |].
  intros H. inversion H as [| ? ? Hout Hnd]; subst.
  destruct (f (k0, e0)); [| now apply IH].
  simpl. constructor; [| now apply IH].
  intros Hin. apply Hout. now apply keys_filter_incl in Hin.
Qed.

Lemma get_filter (f : string * CacheEntry -> bool) c k :
  NoDup (JsMap.keys c) ->
  JsMap.get k (filter f c) =
    match JsMap.get k c with
    | Some e => if f (k, e) then Some e else None
    | None => None
    end.
Proof.
  induction c as [| [k0 e0] c IH]; simpl; [reflexivity |].
  intros H. inversion H as [| ? ? Hout Hnd]; subst.
  destruct (String.eqb_spec k k0) as [-> | Hne].
  - destruct (f (k0, e0)) eqn:E; simpl.
    + now rewrite String.eqb_refl.
    + apply get_none_iff. intros Hin. apply Hout.
      now apply keys_filter_incl in Hin.
  - destruct (f (k0, e0)); simpl.
    + destruct (String.eqb_spec k k0); [contradiction | now apply IH].
    + now apply IH.
Qed.

(** X4.  [clearExpiredCache] removes the entries that are expired at the
    time of the sweep and leaves the others in place; it is invisible to
    the callers of the cache: a lookup made at the time of the sweep or
    later returns the same answer with or without it. *)
Theorem clearExpiredCache_transparent (c : Cache) (now later : Z)
    (addr : string) :
  NoDup (JsMap.keys c) ->
  (now <= later)%Z ->
  (forall k e, In (k, e) (clearExpiredCache now c) <->
               In (k, e) c /\ (now - timestamp e <= ttl e)%Z) /\
  fst (getCachedResult addr later (clearExpiredCache now c)) =
  fst (getCachedResult addr later c).
Proof.
  intros Hnd Hle. split.
  - intros k e. unfold clearExpiredCache. rewrite filter_In. simpl.
    rewrite negb_true_iff. destruct (Z.gtb_spec (now - timestamp e) (ttl e));
      split; intros [H1 H2]; split; trivial; try lia; discriminate.
  - unfold getCachedResult, clearExpiredCache. rewrite get_filter by exact Hnd.
    destruct (JsMap.get (getCacheKey addr) c) as [e |]; [| reflexivity].
    simpl. destruct (Z.gtb_spec (now - timestamp e) (ttl e)); simpl.
    + destruct (Z.gtb_spec (later - timestamp e) (ttl e)); [reflexivity | lia].
    + destruct (later - timestamp e >? ttl e)%Z; reflexivity.
Qed.

Lemma clearExpiredCache_transparent_witness :
  (forall k e, In (k, e) (clearExpiredCache 4000000 mixedCache) <->
               In (k, e) mixedCache /\ (4000000 - timestamp e <= ttl e)%Z) /\
  fst (getCachedResult "Lyon" 4000001 (clearExpiredCache 4000000 mixedCache)) =
  fst (getCachedResult "Lyon" 4000001 mixedCache).
Proof.
  apply (clearExpiredCache_transparent mixedCache 4000000 4000001 "Lyon").
  - apply distinctb_sound. reflexivity.
  - lia.
Defined.

Lemma runCall_bounded (now : Z) (call : CacheCall) c :
  NoDup (JsMap.keys c) /\ JsMap.size c <= MAX_CACHE_SIZE ->
  NoDup (JsMap.keys (runCall now call c)) /\
  JsMap.size (runCall now call c) <= MAX_CACHE_SIZE.
Proof.
  intros [Hnd Hsz]. destruct call as [addr | addr loc | |]; simpl.
  - unfold getCachedResult.
    destruct (JsMap.get (getCacheKey addr) c) as [e |] eqn:E; [| now split].
    destruct (now - timestamp e >? ttl e)%Z; [| now split]. simpl.
    split; [now apply NoDup_keys_delete |].
    assert (In (getCacheKey addr) (JsMap.keys c)) as Hin.
    { apply get_some_in in E.
      change (getCacheKey addr) with (fst (getCacheKey addr, e)).
      now apply in_map. }
    pose proof (delete_head_size c _ Hin). lia.
  - unfold cacheResult.
    pose proof (NoDup_keys_set c (getCacheKey addr)
                  (mkCacheEntry loc now CACHE_TTL) Hnd) as Hnd'.
    split; [now apply enforceMaxCacheSize_NoDup |
            now apply enforceMaxCacheSize_size].
  - unfold clearExpiredCache. split; [now apply NoDup_keys_filter |].
    unfold JsMap.size in *.
    pose proof (filter_length_le
                  (fun kv => negb (now - timestamp (snd kv) >? ttl (snd kv))%Z) c).
    lia.
  - split; [constructor | apply Nat.le_0_l].
Qed.

(** X5.  Whatever calls the module makes on its cache, in whatever order
    and at whatever times, the statistics never report more entries than
    the maximum of 1000, and no key is stored twice. *)
Theorem cache_never_overflows (calls : list (Z * CacheCall)) :
  statsSize (getGeocachStats (runCalls calls [])) <=
    statsMaxSize (getGeocachStats (runCalls calls [])) /\
  statsMaxSize (getGeocachStats (runCalls calls [])) = 1000 /\
  NoDup (JsMap.keys (runCalls calls [])).
Proof.
  assert (H : forall c,
             NoDup (JsMap.keys c) /\ JsMap.size c <= MAX_CACHE_SIZE ->
             NoDup (JsMap.keys (runCalls calls c)) /\
             JsMap.size (runCalls calls c) <= MAX_CACHE_SIZE).
  { induction calls as [| [now call] calls IH]; intros c Hc; [exact Hc |].
    apply IH. now apply runCall_bounded. }
  destruct (H []) as [Hnd Hsz]; [split; [constructor | apply Nat.le_0_l] |].
  cbn [getGeocachStats statsSize statsMaxSize]. repeat split; trivial.
Qed.

End Maintenance.

(** ** Eviction in general *)

Section EvictionOrder.
Implicit Types (c : Cache) (k : string).

Lemma insertBy_sorted {A : Type} (key : A -> Z) (x : A) (l : list A) :
  StronglySorted (fun a b => (key a <= key b)%Z) l ->
  StronglySorted (fun a b => (key a <= key b)%Z) (insertBy key x l).
Proof.
  induction l as [| y l IH]; simpl; intros Hs.
  - repeat constructor.
  - inversion Hs as [| ? ? Hs' Hall]; subst.
    destruct (Z.leb_spec (key x) (key y)).
    + constructor; [exact Hs |]. constructor; [assumption |].
      eapply Forall_impl; [| exact Hall]. simpl. intros; lia.
    + constructor; [now apply IH |].
      apply Forall_forall. intros z Hz.
      apply (Permutation_in _ (insertBy_perm key x l)) in Hz.
      destruct Hz as [<- | Hz]; [lia |].
      rewrite Forall_forall in Hall. now apply Hall.
Qed.

Lemma sortBy_sorted_out {A : Type} (key : A -> Z) (l : list A) :
  StronglySorted (fun a b => (key a <= key b)%Z) (sortBy key l).
Proof.
  induction l as [| x l IH]; simpl; [constructor | now apply insertBy_sorted].
Qed.

Lemma sorted_split {A : Type} (R : A -> A -> Prop) (d : nat) (l : list A)
    (x y : A) :
  StronglySorted R l -> In x (firstn d l) -> In y (skipn d l) -> R x y.
Proof.
  revert l. induction d as [| d IH]; intros l Hs Hx Hy; [destruct Hx |].
  destruct l as [| z l]; [destruct Hx |].
  inversion Hs as [| ? ? Hs' Hall]; subst. simpl in Hx, Hy.
  destruct Hx as [<- | Hx]; [| now apply (IH l)].
  rewrite Forall_forall in Hall. apply Hall. now apply in_skipn in Hy.
Qed.

Lemma in_delete_iff c k (x : string * CacheEntry) :
  NoDup (JsMap.keys c) ->
  (In x (JsMap.delete k c) <-> In x c /\ fst x <> k).
Proof.
  induction c as [| [k0 e0] c IH]; simpl; intros Hnd; [tauto |].
  inversion Hnd as [| ? ? Hout Hnd']; subst.
  destruct (String.eqb_spec k k0) as [-> | Hne].
  - split.
    + intros Hx. split; [now right |]. intros E. apply Hout.
      rewrite <- E. now apply in_map.
    + intros [[<- | Hx] Hk]; [now destruct Hk | exact Hx].
  - simpl. rewrite (IH Hnd'). split.
    + intros [<- | [Hx Hk]]; [split; [now left | simpl; congruence] | tauto].
    + intros [[<- | Hx] Hk]; [now left | right; tauto].
Qed.

Lemma in_deleteAll_iff (victims : list (string * CacheEntry)) c
    (x : string * CacheEntry) :
  NoDup (JsMap.keys c) ->
  (In x (deleteAll victims c) <-> In x c /\ ~ In (fst x) (map fst victims)).
Proof.
  revert c. induction victims as [| v victims IH]; intros c Hnd; simpl;
    [tauto |].
  rewrite IH by now apply NoDup_keys_delete.
  rewrite in_delete_iff by exact Hnd. split.
  - intros [[Hx Hk] Hv]. split; [exact Hx |]. intros [E | Hin]; auto.
  - intros [Hx Hv]. repeat split; auto.
Qed.

Lemma in_same_key c (x y : string * CacheEntry) :
  NoDup (JsMap.keys c) -> In x c -> In y c -> fst x = fst y -> x = y.
Proof.
  intros Hnd Hx Hy E. destruct x as [k e], y as [k' e']. simpl in E. subst k'.
  apply (in_get_some c k e Hnd) in Hx. apply (in_get_some c k e' Hnd) in Hy.
  congruence.
Qed.

(** What [enforceMaxCacheSize] removes. *)
Lemma enforceMaxCacheSize_evicts (c : Cache) :
  NoDup (JsMap.keys c) ->
  JsMap.size (enforceMaxCacheSize c) = Nat.min (JsMap.size c) MAX_CACHE_SIZE /\
  (forall x, In x (enforceMaxCacheSize c) -> In x c) /\
  (forall x y, In x c -> ~ In x (enforceMaxCacheSize c) ->
               In y (enforceMaxCacheSize c) ->
               (entryTimestamp x <= entryTimestamp y)%Z) /\
  (JsMap.size c <= MAX_CACHE_SIZE -> enforceMaxCacheSize c = c).
Proof.
  intros Hnd. unfold enforceMaxCacheSize.
  destruct (Nat.ltb_spec MAX_CACHE_SIZE (JsMap.size c)) as [Hlt | Hge].
  - cbv zeta.
    set (sorted := sortBy entryTimestamp c).
    set (d := List.length sorted - MAX_CACHE_SIZE).
    pose proof (sortBy_perm entryTimestamp c) as Hperm. fold sorted in Hperm.
    assert (Hv : NoDup (map fst (firstn d sorted))).
    { rewrite <- firstn_map. apply NoDup_firstn, sorted_keys_NoDup, Hnd. }
    pose proof (deleteAll_size (firstn d sorted) c Hnd Hv
                  (sorted_keys_incl d c)) as Hsz.
    rewrite length_firstn in Hsz.
    assert (Hlen : List.length sorted = JsMap.size c)
      by apply sortBy_length.
    repeat split.
    + unfold d in *. lia.
    + intros x Hx. now apply deleteAll_in in Hx.
    + intros x y Hx Hgone Hy.
      rewrite in_deleteAll_iff in Hgone, Hy by exact Hnd.
      destruct Hy as [Hy Hykey].
      assert (Hxin : In x (firstn d sorted)).
      { destruct (in_dec string_dec (fst x) (map fst (firstn d sorted)))
          as [Hin | Hout]; [| tauto].
        apply in_map_iff in Hin as [v [E Hvin]].
        assert (v = x); [| now subst v].
        apply (in_same_key c); trivial.
        eapply Permutation_in; [exact Hperm | eapply in_firstn; exact Hvin]. }
      assert (Hyin : In y (skipn d sorted)).
      { apply (Permutation_in _ (Permutation_sym Hperm)) in Hy.
        rewrite <- (firstn_skipn d sorted) in Hy.
        apply in_app_or in Hy as [Hy | Hy]; [| exact Hy].
        exfalso. apply Hykey. now apply in_map. }
      apply (sorted_split (fun a b => (entryTimestamp a <= entryTimestamp b)%Z)
               d sorted x y); trivial.
      apply sortBy_sorted_out.
    + unfold JsMap.size in *. lia.
  - repeat split; trivial.
    + unfold JsMap.size in *. lia.
    + intros x y Hx Hgone. contradiction.
Qed.

(** X6.  When [enforceMaxCacheSize] evicts, in any cache, it brings the
    size back to exactly the maximum and removes the oldest entries: no
    entry that is removed carries a timestamp later than an entry that
    stays.  A cache within the limit is left as it is. *)
Theorem enforceMaxCacheSize_oldest_first (c : Cache) :
  NoDup (JsMap.keys c) ->
  JsMap.size (enforceMaxCacheSize c) = Nat.min (JsMap.size c) MAX_CACHE_SIZE /\
  (forall x, In x (enforceMaxCacheSize c) -> In x c) /\
  (forall x y, In x c -> ~ In x (enforceMaxCacheSize c) ->
               In y (enforceMaxCacheSize c) ->
               (entryTimestamp x <= entryTimestamp y)%Z) /\
  (JsMap.size c <= MAX_CACHE_SIZE -> enforceMaxCacheSize c = c).
Proof. exact (enforceMaxCacheSize_evicts c). Qed.

Lemma enforceMaxCacheSize_oldest_first_witness :
  JsMap.size (enforceMaxCacheSize (map entryOf stopInsertions)) =
    Nat.min (JsMap.size (map entryOf stopInsertions)) MAX_CACHE_SIZE.
Proof.
  apply (enforceMaxCacheSize_oldest_first (map entryOf stopInsertions)).
  rewrite map_entryOf_keys. apply distinctb_sound. vm_compute. reflexivity.
Defined.

End EvictionOrder.

(** ** Filling the cache beyond its limit *)

Section Fifo.
Implicit Types (c : Cache) (ins : list Insertion).

Lemma filter_all {A : Type} (f : A -> bool) (l : list A) :
  (forall x, In x l -> f x = true) -> filter f l = l.
Proof.
  induction l as [| x l IH]; intros H; simpl; [reflexivity |].
  rewrite (H x (or_introl eq_refl)). f_equal. apply IH.
  intros y Hy. apply H. now right.
Qed.

Lemma filter_twice {A : Type} (f g : A -> bool) (l : list A) :
  filter f (filter g l) = filter (fun x => g x && f x) l.
Proof.
  induction l as [| x l IH]; simpl; [reflexivity |].
  destruct (g x); simpl; [destruct (f x) |]; now rewrite IH.
Qed.

Lemma filter_of_map {A B : Type} (g : A -> B) (f : B -> bool) (l : list A) :
  filter f (map g l) = map g (filter (fun x => f (g x)) l).
Proof.
  induction l as [| x l IH]; simpl; [reflexivity |].
  destruct (f (g x)); simpl; now rewrite IH.
Qed.

Lemma filter_length_le {A : Type} (f : A -> bool) (l : list A) :
  List.length (filter f l) <= List.length l.
Proof.
  induction l as [| x l IH]; simpl; [lia |]. destruct (f x); simpl; lia.
Qed.

Lemma filter_shorter {A : Type} (f : A -> bool) (l : list A) :
  List.length (filter f l) < List.length l ->
  exists x, In x l /\ f x = false.
Proof.
  induction l as [| x l IH]; simpl; [lia |].
  destruct (f x) eqn:E; simpl; intros H.
  - destruct IH as (y & Hy & Hf); [lia |]. exists y. split; [now right | exact Hf].
  - exists x. split; [now left | exact E].
Qed.

Lemma filter_full {A : Type} (f : A -> bool) (l : list A) (x : A) :
  List.length l <= List.length (filter f l) -> In x l -> f x = true.
Proof.
  intros Hlen Hx. destruct (f x) eqn:E; [reflexivity |].
  induction l as [| y l IH]; [destruct Hx |]. simpl in Hlen.
  pose proof (filter_length_le f l) as Hle.
  destruct (f y) eqn:Ey; simpl in Hlen; [| lia].
  destruct Hx as [-> | Hx]; [congruence |]. apply IH; [lia | exact Hx].
Qed.

Lemma delete_filter c (k : string) :
  NoDup (JsMap.keys c) ->
  JsMap.delete k c = filter (fun x => negb (String.eqb k (fst x))) c.
Proof.
  induction c as [| [k0 e0] c IH]; simpl; intros Hnd; [reflexivity |].
  inversion Hnd as [| ? ? Hout Hnd']; subst.
  destruct (String.eqb_spec k k0) as [-> | Hne]; simpl.
  - symmetry. apply filter_all. intros [k1 e1] Hx. simpl.
    apply negb_true_iff. apply String.eqb_neq. intros ->.
    apply Hout. change k1 with (fst (k1, e1)). now apply in_map.
  - now rewrite IH.
Qed.

Lemma deleteAll_filter (victims : list (string * CacheEntry)) c :
  NoDup (JsMap.keys c) ->
  deleteAll victims c =
    filter (fun x => negb (existsb (fun v => String.eqb (fst v) (fst x)) victims))
           c.
Proof.
  revert c. induction victims as [| v victims IH]; intros c Hnd.
  - simpl. symmetry. now apply filter_all.
  - change (deleteAll (v :: victims) c)
      with (deleteAll victims (JsMap.delete (fst v) c)).
    rewrite IH by now apply NoDup_keys_delete.
    rewrite delete_filter by exact Hnd. rewrite filter_twice.
    apply filter_ext. intros x. simpl. now rewrite negb_orb.
Qed.

(** [enforceMaxCacheSize] keeps the order of the entries it leaves. *)
Lemma enforceMaxCacheSize_filter c :
  NoDup (JsMap.keys c) ->
  exists keep, enforceMaxCacheSize c = filter keep c.
Proof.
  intros Hnd. unfold enforceMaxCacheSize.
  destruct (MAX_CACHE_SIZE <? JsMap.size c).
  - eexists. cbv zeta. now apply deleteAll_filter.
  - exists (fun _ => true). symmetry. now apply filter_all.
Qed.

Lemma insertion_same_key ins (i j : Insertion) :
  NoDup (map insertionKey ins) -> In i ins -> In j ins ->
  insertionKey i = insertionKey j -> i = j.
Proof.
  induction ins as [| x ins IH]; simpl; intros Hnd Hi Hj E; [destruct Hi |].
  inversion Hnd as [| ? ? Hout Hnd']; subst.
  destruct Hi as [-> | Hi], Hj as [-> | Hj]; trivial.
  - exfalso. apply Hout. rewrite E. now apply in_map.
  - exfalso. apply Hout. rewrite <- E. now apply in_map.
  - now apply IH.
Qed.

Lemma NoDup_map_filter {A B : Type} (g : A -> B) (f : A -> bool) (l : list A) :
  NoDup (map g l) -> NoDup (map g (filter f l)).
Proof.
  induction l as [| x l IH]; simpl; intros Hnd; [constructor |].
  inversion Hnd as [| ? ? Hout Hnd']; subst.
  destruct (f x); simpl; [| now apply IH].
  constructor; [| now apply IH].
  intros Hin. apply Hout. apply in_map_iff in Hin as [y [E Hy]].
  apply filter_In in Hy as [Hy _]. rewrite <- E. now apply in_map.
Qed.

(** Among the insertions, those kept are told by the filter. *)
Lemma kept_iff ins (keep : Insertion -> bool) (i : Insertion) :
  NoDup (map insertionKey ins) -> In i ins ->
  (In (entryOf i) (map entryOf (filter keep ins)) <-> keep i = true).
Proof.
  intros Hnd Hi. split.
  - intros Hin. apply in_map_iff in Hin as [j [E Hj]].
    apply filter_In in Hj as [Hj Hk].
    assert (j = i); [| now subst j].
    apply (insertion_same_key ins); trivial.
    unfold entryOf in E. now injection E.
  - intros Hk. apply in_map. apply filter_In. now split.
Qed.

(** Filling an empty cache with insertions of distinct keys, stamped in
    any order: the cache holds insertions of the run in the order they
    were made, as many as the limit allows, and every insertion it has
    lost is at most as recent as every one it holds. *)
Lemma insertAll_oldest_out ins :
  NoDup (map insertionKey ins) ->
  (exists keep, insertAll ins [] = map entryOf (filter keep ins)) /\
  JsMap.size (insertAll ins []) = Nat.min (List.length ins) MAX_CACHE_SIZE /\
  (forall i j, In i ins -> In j ins ->
     ~ In (entryOf i) (insertAll ins []) -> In (entryOf j) (insertAll ins []) ->
     (insTime i <= insTime j)%Z).
Proof.
  induction ins as [| new ins IH] using rev_ind; intros Hnd.
  - split; [exists (fun _ => true); reflexivity |].
    split; [reflexivity | intros i j []].
  - rewrite map_app in Hnd. simpl in Hnd.
    pose proof (NoDup_remove_1 _ _ _ Hnd) as Hnd1.
    pose proof (NoDup_remove_2 _ _ _ Hnd) as Hfresh.
    rewrite app_nil_r in Hnd1, Hfresh.
    destruct (IH Hnd1) as ((keep & Hc) & Hsz & Hord). clear IH.
    rewrite insertAll_snoc. set (c := insertAll ins []) in *.
    assert (Hkeys : NoDup (JsMap.keys c)).
    { rewrite Hc, map_entryOf_keys. now apply NoDup_map_filter. }
    assert (Hnew : JsMap.get (insertionKey new) c = None).
    { apply get_none_iff. rewrite Hc, map_entryOf_keys. intros Hin.
      apply Hfresh. apply in_map_iff in Hin as [j [E Hj]].
      apply filter_In in Hj as [Hj _]. rewrite <- E. now apply in_map. }
    unfold cacheResult. fold (insertionKey new).
    rewrite (set_fresh c _ _ Hnew).
    change (insertionKey new, mkCacheEntry (insLocation new) (insTime new) CACHE_TTL)
      with (entryOf new).
    set (m := c ++ [entryOf new]).
    assert (Hm : NoDup (JsMap.keys m)).
    { unfold m.
      replace (c ++ [entryOf new])
        with (JsMap.set (insertionKey new)
                (mkCacheEntry (insLocation new) (insTime new) CACHE_TTL) c)
        by now apply set_fresh.
      now apply NoDup_keys_set. }
    destruct (enforceMaxCacheSize_filter m Hm) as [keepE HE].
    destruct (enforceMaxCacheSize_evicts m Hm) as (HszE & HinE & HordE & _).
    assert (Hlenm : JsMap.size m = S (JsMap.size c)).
    { unfold m, JsMap.size. rewrite length_app. simpl. lia. }
    assert (Hkeep : forall i, In i ins ->
              (In (entryOf i) c <-> keep i = true)).
    { intros i Hi. rewrite Hc. now apply kept_iff. }
    assert (Hother : forall i, In i ins -> entryOf i <> entryOf new).
    { intros i Hi E. apply Hfresh. unfold entryOf in E. injection E as E _ _.
      rewrite <- E. now apply in_map. }
    split; [| split].
    + exists (fun x => (keep x || String.eqb (insertionKey x) (insertionKey new))
                       && keepE (entryOf x)).
      rewrite HE. unfold m. rewrite Hc.
      change [entryOf new] with (map entryOf [new]).
      rewrite <- map_app, filter_of_map. f_equal.
      rewrite !filter_app. f_equal.
      * rewrite filter_twice. apply filter_ext_in. intros x Hx.
        destruct (String.eqb_spec (insertionKey x) (insertionKey new)) as [E | _].
        -- exfalso. apply Hfresh. rewrite <- E. now apply in_map.
        -- now rewrite orb_false_r.
      * simpl. now rewrite String.eqb_refl, orb_true_r.
    + rewrite HszE, Hlenm, Hsz, length_app. cbn [List.length].
      generalize MAX_CACHE_SIZE. intros. lia.
    + intros i j Hi Hj Hgone Hkept.
      assert (Hjm : In (entryOf j) m) by now apply HinE.
      change (insTime i) with (entryTimestamp (entryOf i)).
      change (insTime j) with (entryTimestamp (entryOf j)).
      apply in_app_or in Hi as [Hi | [<- | []]].
      2:{ apply HordE; trivial. unfold m. apply in_or_app. right. now left. }
      destruct (keep i) eqn:Ki.
      { apply HordE; trivial. unfold m. apply in_or_app. left.
        now apply Hkeep. }
      assert (Hiout : ~ In (entryOf i) c).
      { intros H. apply (Hkeep i Hi) in H. congruence. }
      apply in_app_or in Hj as [Hj | [<- | []]].
      { apply Hord; trivial.
        unfold m in Hjm. apply in_app_or in Hjm as [H | [H | []]]; trivial.
        exfalso. now apply (Hother j Hj). }
      assert (Hfull : JsMap.size c = MAX_CACHE_SIZE).
      { assert (List.length (filter keep ins) < List.length ins).
        { destruct (Nat.lt_ge_cases (List.length (filter keep ins))
                                    (List.length ins)) as [H | H]; trivial.
          rewrite (filter_full keep ins i H Hi) in Ki. discriminate Ki. }
        unfold JsMap.size in *. rewrite Hc, length_map in Hsz |- *. lia. }
      assert (Hshort : List.length (filter keepE m) < List.length m).
      { rewrite <- HE. unfold JsMap.size in *. lia. }
      destruct (filter_shorter keepE m Hshort) as (x & Hx & Hkx).
      assert (Hxout : ~ In x (enforceMaxCacheSize m)).
      { rewrite HE. intros H. apply filter_In in H as [_ H]. congruence. }
      unfold m in Hx. apply in_app_or in Hx as [Hx | [<- | []]];
        [| contradiction].
      pose proof (HordE x (entryOf new) (in_or_app _ _ _ (or_introl Hx)) Hxout
                    Hkept) as H1.
      rewrite Hc in Hx. apply in_map_iff in Hx as [i' [<- Hi']].
      apply filter_In in Hi' as [Hi' Ki'].
      assert (H2 : (insTime i <= insTime i')%Z).
      { apply Hord; trivial. now apply Hkeep. }
      change (entryTimestamp (entryOf i')) with (insTime i') in H1.
      change (entryTimestamp (entryOf i)) with (insTime i).
      lia.
Qed.

End Fifo.

(** C7.  After every insertion the cache holds at most [MAX_CACHE_SIZE]
    (1000) entries.  Filling an empty cache with [MAX_CACHE_SIZE + k]
    addresses of distinct keys, whatever the times they are stamped with,
    leaves exactly [MAX_CACHE_SIZE] of them, in the order they were
    inserted, and the others are evicted by timestamp: no evicted entry
    was stamped later than an entry that stays.  When the clock does not
    go back the evicted ones are the first [k] inserted.  A lookup that
    hits returns the cache as it was, so a read promotes nothing. *)
Theorem cache_eviction_fifo (ins : list Insertion) (k : nat) :
  NoDup (map insertionKey ins) ->
  List.length ins = MAX_CACHE_SIZE + k ->
  let c := insertAll ins [] in
  (forall c0 addr loc now,
     NoDup (JsMap.keys c0) ->
     JsMap.size (cacheResult addr loc now c0) <= MAX_CACHE_SIZE) /\
  JsMap.size c = MAX_CACHE_SIZE /\
  (exists keep, c = map entryOf (filter keep ins)) /\
  (forall i j, In i ins -> In j ins ->
     ~ In (entryOf i) c -> In (entryOf j) c -> (insTime i <= insTime j)%Z) /\
  (StronglySorted Z.le (map insTime ins) ->
   c = map entryOf (skipn k ins) /\
   (forall i, In i (firstn k ins) -> JsMap.get (insertionKey i) c = None)) /\
  (forall addr now loc,
     fst (getCachedResult addr now c) = Some loc ->
     snd (getCachedResult addr now c) = c).
Proof.
  intros Hnd Hlen c.
  destruct (insertAll_oldest_out ins Hnd) as (Hkeep & Hsz & Hord).
  fold c in Hkeep, Hsz, Hord.
  repeat split.
  - intros c0 addr loc now H0. unfold cacheResult.
    apply enforceMaxCacheSize_size, NoDup_keys_set, H0.
  - rewrite Hsz. lia.
  - exact Hkeep.
  - exact Hord.
  - unfold c. rewrite insertAll_fifo by assumption. do 2 f_equal. lia.
  - intros i Hi.
    assert (Hc : c = map entryOf (skipn k ins)).
    { unfold c. rewrite insertAll_fifo by assumption. do 2 f_equal. lia. }
    rewrite Hc. apply get_none_iff.
    rewrite map_entryOf_keys. intros Hin.
    rewrite <- (firstn_skipn k ins), map_app in Hnd.
    apply (NoDup_app_disjoint _ _ (insertionKey i) Hnd); [| exact Hin].
    now apply in_map.
  - intros addr now loc. unfold getCachedResult.
    destruct (JsMap.get (getCacheKey addr) c) as [e |]; [| reflexivity].
    destruct (now - timestamp e >? ttl e)%Z; [discriminate | reflexivity].
Qed.

Lemma cache_eviction_fifo_witness :
  JsMap.size (insertAll stopInsertions []) = 1000 /\
  JsMap.get (insertionKey (stopInsertion 0)) (insertAll stopInsertions []) = None /\
  insertAll stopInsertions [] = map entryOf (skipn 1 stopInsertions).
Proof.
  assert (H1 : NoDup (map insertionKey stopInsertions))
    by (apply distinctb_sound; vm_compute; reflexivity).
  assert (H2 : StronglySorted Z.le (map insTime stopInsertions))
    by (apply nondecreasingb_sound; vm_compute; reflexivity).
  assert (H3 : List.length stopInsertions = MAX_CACHE_SIZE + 1)
    by (vm_compute; reflexivity).
  destruct (cache_eviction_fifo stopInsertions 1 H1 H3)
    as (_ & Hsize & _ & _ & Hfifo & _).
  destruct (Hfifo H2) as [Hkept Hevicted].
  split; [exact Hsize | split; [| exact Hkept]].
  apply Hevicted. left. reflexivity.
Defined.

(** When the clock is set back the entry evicted is the oldest by its
    stamp, not the first inserted. *)
Example eviction_by_timestamp :
  JsMap.has (insertionKey lateInsertion) (insertAll lateFirst []) = true /\
  JsMap.has (insertionKey (stopInsertion 0)) (insertAll lateFirst []) = false /\
  JsMap.size (insertAll lateFirst []) = 1000.
Proof. split; [| split]; vm_compute; reflexivity. Qed.

(** ** Provider requests of a single resolution *)

Section Requests.
Implicit Types (w : World) (c : Cache) (addr : string).

Lemma geocodeAddressFinish_requests w now addr c :
  providerRequests (snd (geocodeAddressFinish w now addr c)) = [].
Proof.
  unfold geocodeAddressFinish.
  destruct (fetch w addr) as [m | ok status [m | payload]]; [reflexivity | |].
  - destruct (negb ok); reflexivity.
  - destruct (negb ok); [reflexivity |].
    destruct (truthy (Google.error_message payload)); [reflexivity |].
    destruct (Google.results payload) as [[| r rs] |]; reflexivity.
Qed.

(** A cache miss on an address that is not blank, with the key
    configured, sends the address to the provider. *)
Lemma geocodeAddress_asks (w : World) (now : Z) (addr : string) (c : Cache) :
  fst (getCachedResult addr now c) = None ->
  hasInk addr = true ->
  truthy (GOOGLE_MAPS_API_KEY w) = true ->
  geocodeAddress w now addr c =
    (let '(r, c2, tr2) :=
       geocodeAddressFinish w (now + Z.of_nat (latency w addr)) addr
         (snd (getCachedResult addr now c)) in
     (r, c2, [CacheRead (getCacheKey addr); ProviderRequest addr] ++ tr2)).
Proof.
  intros Hmiss Hink Hkey. unfold geocodeAddress, geocodeAddressStart.
  destruct (getCachedResult addr now c) as [hit c1]. cbn [fst snd] in *.
  subst hit.
  destruct (Nat.eqb_spec (String.length (JsString.trim addr)) 0) as [E | _].
  - apply trim_empty_iff in E. congruence.
  - rewrite Hkey. cbn [negb]. reflexivity.
Qed.

(** What a call settles with. *)
Lemma finish_settledWith w now addr c :
  settledWith (geocodeAddressFinish w now addr c) = providerAnswer w addr.
Proof.
  unfold providerAnswer, settledWith, geocodeAddressFinish.
  destruct (fetch w addr) as [m | ok status [m | payload]]; [reflexivity | |].
  - destruct (negb ok); reflexivity.
  - destruct (negb ok); [reflexivity |].
    destruct (truthy (Google.error_message payload)); [reflexivity |].
    destruct (Google.results payload) as [[| r rs] |]; reflexivity.
Qed.

Lemma start_done w now addr c (r : Settled GeocodedLocation) :
  fst (fst (geocodeAddressStart w now addr c)) = Done r ->
  answers w addr r.
Proof.
  intros H. exists now, c. unfold geocodeAddress, settledWith.
  destruct (geocodeAddressStart w now addr c) as [[s c1] tr].
  cbn [fst] in H. now subst s.
Qed.

Lemma start_awaiting w now addr c :
  fst (fst (geocodeAddressStart w now addr c)) = Awaiting ->
  hasInk addr = true /\ truthy (GOOGLE_MAPS_API_KEY w) = true.
Proof.
  unfold geocodeAddressStart.
  destruct (getCachedResult addr now c) as [[loc |] c1]; [discriminate |].
  destruct (Nat.eqb_spec (String.length (JsString.trim addr)) 0) as [E | E];
    [discriminate |].
  destruct (truthy (GOOGLE_MAPS_API_KEY w)); [| discriminate].
  intros _. split; [| reflexivity].
  destruct (hasInk addr) eqn:Hink; [reflexivity |].
  apply trim_empty_iff in Hink. contradiction.
Qed.

Lemma awaited_answers w addr :
  hasInk addr = true -> truthy (GOOGLE_MAPS_API_KEY w) = true ->
  answers w addr (providerAnswer w addr).
Proof.
  intros Hink Hkey. exists 0%Z, [].
  rewrite (geocodeAddress_asks w 0 addr [] eq_refl Hink Hkey).
  rewrite <- (finish_settledWith w (0 + Z.of_nat (latency w addr)) addr
                (snd (getCachedResult addr 0 []))).
  unfold settledWith.
  now destruct (geocodeAddressFinish w (0 + Z.of_nat (latency w addr)) addr
                  (snd (getCachedResult addr 0 []))) as [[r c2] tr2].
Qed.

(** A location served by the first part of a call was in the cache. *)
Lemma start_hit w now addr c (loc : GeocodedLocation) :
  fst (fst (geocodeAddressStart w now addr c)) = Done (Fulfilled loc) ->
  exists e, In (getCacheKey addr, e) c /\ data e = loc.
Proof.
  unfold geocodeAddressStart, getCachedResult.
  destruct (JsMap.get (getCacheKey addr) c) as [e |] eqn:G.
  - destruct (now - timestamp e >? ttl e)%Z.
    + destruct (String.length (JsString.trim addr) =? 0); [discriminate |].
      destruct (negb (truthy (GOOGLE_MAPS_API_KEY w))); discriminate.
    + cbn [fst]. intros [= <-]. exists e. split; [| reflexivity].
      now apply get_some_in.
  - destruct (String.length (JsString.trim addr) =? 0); [discriminate |].
    destruct (negb (truthy (GOOGLE_MAPS_API_KEY w))); discriminate.
Qed.

Lemma start_cache_incl w now addr c (x : string * CacheEntry) :
  In x (snd (fst (geocodeAddressStart w now addr c))) -> In x c.
Proof.
  rewrite geocodeAddressStart_cache. unfold getCachedResult.
  destruct (JsMap.get (getCacheKey addr) c) as [e |]; [| trivial].
  destruct (now - timestamp e >? ttl e)%Z; [apply in_delete | trivial].
Qed.

(** What the second part of a call writes is the answer of the provider. *)
Lemma finish_cache w now addr c (x : string * CacheEntry) :
  In x (snd (fst (geocodeAddressFinish w now addr c))) ->
  In x c \/
  (fst x = getCacheKey addr /\ providerAnswer w addr = Fulfilled (data (snd x))).
Proof.
  unfold providerAnswer, settledWith, geocodeAddressFinish.
  destruct (fetch w addr) as [m | ok status [m | payload]]; [now left | |].
  - destruct (negb ok); now left.
  - destruct (negb ok); [now left |].
    destruct (truthy (Google.error_message payload)); [now left |].
    destruct (Google.results payload) as [[| r rs] |]; try (now left).
    cbn [fst snd]. unfold cacheResult, enforceMaxCacheSize.
    intros Hx.
    assert (Hin : In x (JsMap.set (getCacheKey addr)
                          (mkCacheEntry (locationOf addr r) now CACHE_TTL) c)).
    { destruct (MAX_CACHE_SIZE <? _); [| exact Hx].
      now apply deleteAll_in in Hx. }
    apply in_set in Hin as [-> | Hin]; [right | now left].
    split; reflexivity.
Qed.

Lemma start_quiet w now addr c :
  quiet (snd (geocodeAddressStart w now addr c)) = true.
Proof.
  unfold geocodeAddressStart.
  destruct (getCachedResult addr now c) as [[loc |] c1]; [reflexivity |].
  destruct (String.length (JsString.trim addr) =? 0); [reflexivity |].
  destruct (negb (truthy (GOOGLE_MAPS_API_KEY w))); reflexivity.
Qed.

Lemma finish_quiet w now addr c :
  quiet (snd (geocodeAddressFinish w now addr c)) = true.
Proof.
  unfold geocodeAddressFinish.
  destruct (fetch w addr) as [m | ok status [m | payload]]; [reflexivity | |].
  - destruct (negb ok); reflexivity.
  - destruct (negb ok); [reflexivity |].
    destruct (truthy (Google.error_message payload)); [reflexivity |].
    destruct (Google.results payload) as [[| r rs] |]; reflexivity.
Qed.

(** X7.  [geocodeAddress] asks the provider at most once, and for the
    address it was given.  It asks exactly when the cache holds no entry
    under the key of the address that is still within its TTL, the
    address has a character other than white space, and the credential is
    configured; a live entry, a blank address or a missing credential
    never reach the network. *)
Theorem geocodeAddress_requests (w : World) (now : Z) (addr : string)
    (c : Cache) :
  providerRequests (snd (geocodeAddress w now addr c)) =
    if match JsMap.get (getCacheKey addr) c with
       | Some e => expiredAt now e
       | None => true
       end
       && hasInk addr
       && truthy (GOOGLE_MAPS_API_KEY w)
    then [ProviderRequest addr] else [].
Proof.
  assert (Hblank : (String.length (JsString.trim addr) =? 0) = negb (hasInk addr)).
  { destruct (Nat.eqb_spec (String.length (JsString.trim addr)) 0) as [E | E].
    - apply trim_empty_iff in E. now rewrite E.
    - destruct (hasInk addr) eqn:Hink; [reflexivity |].
      apply trim_empty_iff in Hink. contradiction. }
  unfold geocodeAddress, geocodeAddressStart, getCachedResult, expiredAt.
  rewrite Hblank.
  destruct (JsMap.get (getCacheKey addr) c) as [e |].
  - destruct (now - timestamp e >? ttl e)%Z; [| reflexivity].
    cbn [andb]. destruct (hasInk addr); [| reflexivity].
    destruct (truthy (GOOGLE_MAPS_API_KEY w)); [| reflexivity].
    cbn [negb andb].
    pose proof (geocodeAddressFinish_requests w
                  (now + Z.of_nat (latency w addr)) addr
                  (JsMap.delete (getCacheKey addr) c)) as Hf.
    destruct (geocodeAddressFinish w (now + Z.of_nat (latency w addr)) addr
                (JsMap.delete (getCacheKey addr) c)) as [[r c2] tr2].
    cbn [snd] in *. unfold providerRequests in *.
    rewrite filter_app, Hf. reflexivity.
  - cbn [andb]. destruct (hasInk addr); [| reflexivity].
    destruct (truthy (GOOGLE_MAPS_API_KEY w)); [| reflexivity].
    cbn [negb andb].
    pose proof (geocodeAddressFinish_requests w
                  (now + Z.of_nat (latency w addr)) addr c) as Hf.
    destruct (geocodeAddressFinish w (now + Z.of_nat (latency w addr)) addr c)
      as [[r c2] tr2].
    cbn [snd] in *. unfold providerRequests in *.
    rewrite filter_app, Hf. reflexivity.
Qed.

(** X8.  A location obtained from the provider is served from the cache
    afterwards: for one hour from the moment it was stored, a call for the
    same address, or for any variant with the same lower-cased and trimmed
    key, returns the same location without a provider request, whatever
    the provider or the credential have become. *)
Theorem geocodeAddress_then_cached (w w' : World) (now later : Z)
    (addr variant : string) (c c1 : Cache) (loc : GeocodedLocation)
    (tr : list Event) :
  cacheAt now c ->
  geocodeAddress w now addr c = (Fulfilled loc, c1, tr) ->
  In (ProviderRequest addr) tr ->
  getCacheKey variant = getCacheKey addr ->
  (later - (now + Z.of_nat (latency w addr)) <= 3600000)%Z ->
  geocodeAddress w' later variant c1 =
    (Fulfilled loc, c1, [CacheRead (getCacheKey addr)]).
Proof.
  intros Hc Hrun Hreq Hkey Hage.
  assert (Hhit : getCachedResult variant later c1 = (Some loc, c1)).
  { unfold geocodeAddress, geocodeAddressStart in Hrun.
    pose proof (getCachedResult_cacheAt now c addr Hc) as Hc0.
    destruct (getCachedResult addr now c) as [[hit |] c0]; cbn [snd] in Hc0.
    - injection Hrun as _ _ <-. destruct Hreq as [H | []]. discriminate H.
    - destruct (String.length (JsString.trim addr) =? 0).
      + discriminate Hrun.
      + destruct (negb (truthy (GOOGLE_MAPS_API_KEY w))); [discriminate Hrun |].
        unfold geocodeAddressFinish in Hrun.
        assert (Hstore :
          forall result,
            getCachedResult variant later
              (cacheResult addr (locationOf addr result)
                 (now + Z.of_nat (latency w addr)) c0) =
            (Some (locationOf addr result),
             cacheResult addr (locationOf addr result)
               (now + Z.of_nat (latency w addr)) c0)).
        { intros result.
          apply (cache_roundtrip_core c0 addr variant (locationOf addr result)
                   (now + Z.of_nat (latency w addr)) later); trivial.
          apply (cacheAt_later now); [lia | exact Hc0]. }
        destruct (fetch w addr) as [m | ok status [m | payload]];
          [discriminate Hrun | |].
        * destruct (negb ok); discriminate Hrun.
        * destruct (negb ok); [discriminate Hrun |].
          destruct (truthy (Google.error_message payload));
            [discriminate Hrun |].
          destruct (Google.results payload) as [[| result rs] |];
            try discriminate Hrun.
          injection Hrun as <- <- _. apply Hstore. }
  unfold geocodeAddress, geocodeAddressStart. rewrite Hhit, Hkey. reflexivity.
Qed.

Lemma geocodeAddress_then_cached_witness :
  geocodeAddress unconfigured 3600120 "  PARIS" [("paris"%string, mkCacheEntry paris 120 CACHE_TTL)] =
    (Fulfilled paris, [("paris"%string, mkCacheEntry paris 120 CACHE_TTL)],
     [CacheRead (getCacheKey "Paris")]).
Proof.
  apply (geocodeAddress_then_cached parisWorld unconfigured 0 3600120
           "Paris" "  PARIS" [] _ paris
           [CacheRead "paris"; ProviderRequest "Paris"; CacheWrite "paris"]).
  - apply cacheAt_empty.
  - reflexivity.
  - right. left. reflexivity.
  - reflexivity.
  - vm_compute. discriminate.
Defined.

End Requests.

(** ** More on the coordinate parser *)

Section ParserMore.
Local Open Scope string_scope.

Lemma noComma_tail (ch : ascii) (s : string) :
  noComma (String ch s) = true -> noComma s = true.
Proof.
  unfold noComma. cbn [allChars]. intros H.
  now apply andb_true_iff in H as [_ H].
Qed.

Lemma star_fails {R : Type} (a : atom)
    (k : string -> nat -> string -> option R) :
  (forall t j rest, noComma rest = true -> k t j rest = None) ->
  forall s i, noComma s = true -> star a i s k = None.
Proof.
  intros Hk s. revert k Hk. induction s as [| ch s IH]; intros k Hk i Hs.
  - cbn [star]. now apply Hk.
  - cbn [star]. destruct (test a ch); [| now apply Hk].
    rewrite IH; [now apply Hk | | now apply noComma_tail in Hs].
    intros t j rest Hrest. now apply Hk.
Qed.

(** A run whose continuation fails on every rest without comma fails. *)
Lemma run_fails {R : Type} (r : re) :
  forall (k : @Cont R) (i : nat) (s : string) (caps : Captures),
    noComma s = true ->
    (forall t j rest caps', noComma rest = true -> k t j rest caps' = None) ->
    run r i s caps k = None.
Proof.
  induction r as [| | a | a | a | a | r1 IH1 r2 IH2 | r IH];
    intros k i s caps Hs Hk; cbn [run].
  - destruct (i =? 0)%nat; [now apply Hk | reflexivity].
  - destruct s; [now apply Hk | reflexivity].
  - destruct s as [| ch s]; [reflexivity |].
    destruct (test a ch); [| reflexivity].
    apply Hk. now apply noComma_tail in Hs.
  - destruct s as [| ch s]; [now apply Hk |].
    destruct (test a ch); [| now apply Hk].
    rewrite (Hk _ _ s caps) by now apply noComma_tail in Hs.
    now apply Hk.
  - apply star_fails; [| exact Hs]. intros t j rest Hrest. now apply Hk.
  - destruct s as [| ch s]; [reflexivity |].
    destruct (test a ch); [| reflexivity].
    apply star_fails; [| now apply noComma_tail in Hs].
    intros t j rest Hrest. now apply Hk.
  - apply IH1; [exact Hs |]. intros t1 j rest1 caps1 Hrest1.
    apply IH2; [exact Hrest1 |]. intros t2 j' rest2 caps2 Hrest2.
    now apply Hk.
  - apply IH; [exact Hs |]. intros t j rest caps' Hrest. now apply Hk.
Qed.

Lemma failsOn_comma : failsOn noComma (One (Lit (chr 44))).
Proof.
  intros R k i s caps Hs. cbn [run test].
  destruct s as [| ch s]; [reflexivity |].
  unfold noComma in Hs. cbn [allChars] in Hs.
  apply andb_true_iff in Hs as [Hch _]. apply negb_true_iff in Hch.
  now rewrite Hch.
Qed.

Lemma failsOn_cat_l (r1 r2 : re) :
  failsOn noComma r1 -> failsOn noComma (r1 ;; r2)%re.
Proof. intros H R k i s caps Hs. cbn [run]. now apply H. Qed.

Lemma failsOn_cat_r (r1 r2 : re) :
  failsOn noComma r2 -> failsOn noComma (r1 ;; r2)%re.
Proof.
  intros H R k i s caps Hs. cbn [run]. apply run_fails; [exact Hs |].
  intros t j rest caps' Hrest. now apply H.
Qed.

Lemma parenPattern_needs_comma : failsOn noComma parenPattern.
Proof.
  unfold parenPattern.
  apply failsOn_cat_r, failsOn_cat_r, failsOn_cat_l, failsOn_comma.
Qed.

Lemma coordPattern_needs_comma : failsOn noComma coordPattern.
Proof.
  unfold coordPattern.
  apply failsOn_cat_r, failsOn_cat_r, failsOn_cat_r, failsOn_cat_l,
    failsOn_comma.
Qed.

Lemma execFrom_fails (r : re) (s : string) :
  failsOn noComma r -> noComma s = true ->
  forall i, execFrom r i s = None.
Proof.
  intros Hr. induction s as [| ch s IH]; intros Hs i; cbn [execFrom];
    rewrite (Hr _ _ _ _ _ Hs); [reflexivity |].
  apply IH. now apply noComma_tail in Hs.
Qed.

(** X9.  A location without a comma, such as a street address, carries no
    coordinates for the parser: it is returned unchanged as the address. *)
Theorem parse_without_comma (location : string) :
  noComma location = true ->
  parseCoordinatesFromLocation location = mkParsed location None.
Proof.
  intros H. unfold parseCoordinatesFromLocation, exec.
  rewrite (execFrom_fails parenPattern location parenPattern_needs_comma H).
  rewrite (execFrom_fails coordPattern location coordPattern_needs_comma H).
  reflexivity.
Qed.

Lemma parse_without_comma_witness :
  parseCoordinatesFromLocation "123 Main St" = mkParsed "123 Main St" None.
Proof. apply (parse_without_comma "123 Main St"). reflexivity. Defined.

Lemma matchesOn_paren (n1 n2 : Numeral) (w : list white) :
  matchesOn parenPattern (parenText n1 n2 w)
    [numeralText n1; numeralText n2] (fun _ => true).
Proof.
  unfold parenPattern, parenText.
  refine (matchesOn_cat _ _ (String (chr 40) "") _ []
            [numeralText n1; numeralText n2] (fun _ => true) _ _ _ _).
  - now apply matchesOn_one.
  - refine (matchesOn_cat _ _ _ _ [numeralText n1] [numeralText n2]
              numberStop _ _ _ _).
    + apply (matchesOn_group numberRe _ []), matchesOn_number.
    + refine (matchesOn_cat _ _ (String (chr 44) "") _ [] [numeralText n2]
                (fun _ => true) _ _ _ _).
      * now apply matchesOn_one.
      * refine (matchesOn_cat _ _ _ _ [] [numeralText n2]
                  (stopsAt (test Space)) _ _ _ _).
        -- apply matchesOn_star, whiteText_white.
        -- refine (matchesOn_cat _ _ _ (String (chr 41) "")
                     [numeralText n2] [] numberStop _ _ _ _).
           ++ apply (matchesOn_group numberRe _ []), matchesOn_number.
           ++ now apply matchesOn_one.
           ++ reflexivity.
        -- intros rest _. rewrite append_assoc. apply numeralText_head.
      * reflexivity.
    + reflexivity.
  - reflexivity.
Qed.

Lemma execFrom_skip (prefix s : string) (i : nat) :
  noParen prefix = true ->
  execFrom parenPattern i (prefix ++ s) =
  execFrom parenPattern (i + String.length prefix)%nat s.
Proof.
  revert i. induction prefix as [| ch prefix IH]; intros i Hp.
  - cbn [append String.length]. now rewrite Nat.add_0_r.
  - unfold noParen in Hp. cbn [allChars] in Hp.
    apply andb_true_iff in Hp as [Hch Hp]. apply negb_true_iff in Hch.
    cbn [append String.length]. unfold parenPattern at 1.
    cbn [execFrom run test]. rewrite Hch.
    fold parenPattern. rewrite IH by exact Hp. f_equal. lia.
Qed.

Lemma stripPrefix_app (p s : string) : JsString.stripPrefix p (p ++ s) = Some s.
Proof.
  induction p as [| ch p IH]; cbn [append JsString.stripPrefix];
    [now destruct s |].
  now rewrite Ascii.eqb_refl.
Qed.

(** Removing a text that begins with a parenthesis from behind a prefix
    that has none. *)
Lemma removeFirst_after (prefix m s : string) :
  noParen prefix = true ->
  JsString.removeFirst (String (chr 40) m) (prefix ++ String (chr 40) (m ++ s)) =
  prefix ++ s.
Proof.
  induction prefix as [| ch prefix IH]; intros Hp.
  - cbn [append JsString.removeFirst JsString.stripPrefix].
    now rewrite Ascii.eqb_refl, stripPrefix_app.
  - unfold noParen in Hp. cbn [allChars] in Hp.
    apply andb_true_iff in Hp as [Hch Hp]. apply negb_true_iff in Hch.
    cbn [append JsString.removeFirst JsString.stripPrefix].
    rewrite Hch. now rewrite IH.
Qed.

(** X10.  A coordinate pair in parentheses is found wherever it stands in
    the location, provided no parenthesis opens before it: the parser
    returns the two numbers, each as the double nearest to it, and as
    address what is left of the location once the parenthesised text is
    cut out, trimmed. *)
Theorem parse_parenthesised (prefix suffix : string) (n1 n2 : Numeral)
    (w : list white) :
  noParen prefix = true ->
  parseCoordinatesFromLocation (prefix ++ parenText n1 n2 w ++ suffix) =
    mkParsed (JsString.trim (prefix ++ suffix))
      (Some (mkLatLng (Double.round (numeralValue n1))
                      (Double.round (numeralValue n2)))).
Proof.
  intros Hp.
  assert (Hexec :
    exec parenPattern (prefix ++ parenText n1 n2 w ++ suffix) =
      Some (mkMatch (String.length prefix) (parenText n1 n2 w)
                    [numeralText n1; numeralText n2])).
  { unfold exec. rewrite execFrom_skip by exact Hp.
    apply execFrom_hit. apply (matchesOn_paren n1 n2 w); [reflexivity |].
    intros j. reflexivity. }
  unfold parseCoordinatesFromLocation. rewrite Hexec.
  cbn [matched]. unfold coordinatesOfMatch, parseGroup.
  cbn [groups Nat.sub nth_error].
  rewrite !parseFloat_numeral. unfold parenText.
  change (String (chr 40)
            (numeralText n1 ++
             String (chr 44)
               (whiteText w ++ numeralText n2 ++ String (chr 41) "")) ++ suffix)
    with (String (chr 40)
            ((numeralText n1 ++
              String (chr 44)
                (whiteText w ++ numeralText n2 ++ String (chr 41) "")) ++ suffix)).
  now rewrite removeFirst_after.
Qed.

Lemma parse_parenthesised_witness :
  parseCoordinatesFromLocation "Conference Room (37.7749, -122.4194)" =
    mkParsed "Conference Room"
      (Some (mkLatLng (Double.round (377749 # 10000))
                      (Double.round (-1224194 # 10000)))).
Proof.
  apply (parse_parenthesised "Conference Room " "" room37 west122 [Blank]).
  reflexivity.
Defined.

End ParserMore.

(** ** More on batch resolution *)

Section BatchMore.
Implicit Types (w : World) (st : BatchState) (addr : string).

(** An invariant kept by every iteration holds when the loop ends. *)
Lemma batchLoop_invariant (I : list string -> BatchState -> Prop) w
    (parallel : nat) (uniqueAddresses : list string) :
  (forall S chunk now st,
     I S st -> NoDup chunk -> (forall x, In x chunk -> ~ In x S) ->
     I (S ++ chunk) (fst (processChunk w now chunk st))) ->
  NoDup uniqueAddresses ->
  0 < parallel ->
  forall (fuel i : nat) (now : Z) st,
    List.length uniqueAddresses < fuel + i ->
    I (firstn i uniqueAddresses) st ->
    exists st',
      batchLoop fuel w parallel uniqueAddresses i now st = Some st' /\
      I uniqueAddresses st'.
Proof.
  intros Hstep Hnd Hpar. induction fuel as [| fuel IH]; intros i now st Hfuel HS.
  - simpl in *. destruct (Nat.ltb_spec i (List.length uniqueAddresses)); [lia |].
    exists st. split; [reflexivity |]. now rewrite firstn_all2 in HS by lia.
  - cbn [batchLoop].
    destruct (Nat.ltb_spec i (List.length uniqueAddresses)) as [Hlt | Hge].
    + rewrite slice_chunk.
      pose proof (Hstep (firstn i uniqueAddresses)
                    (firstn parallel (skipn i uniqueAddresses)) now st HS)
        as Hchunk.
      destruct (processChunk w now (firstn parallel (skipn i uniqueAddresses)) st)
        as [st1 now1]. simpl in Hchunk.
      apply IH; [lia |].
      rewrite firstn_add. apply Hchunk.
      * apply NoDup_firstn, NoDup_skipn, Hnd.
      * intros x Hx Hin. apply in_firstn in Hx.
        rewrite <- (firstn_skipn i uniqueAddresses) in Hnd.
        now apply (NoDup_app_disjoint _ _ x Hnd).
    + exists st. split; [reflexivity |]. now rewrite firstn_all2 in HS by lia.
Qed.

Lemma geocodeAddressStart_requests w now addr (c : Cache) :
  providerRequests (snd (geocodeAddressStart w now addr c)) =
    match fst (fst (geocodeAddressStart w now addr c)) with
    | Awaiting => [ProviderRequest addr]
    | Done _ => []
    end.
Proof.
  unfold geocodeAddressStart.
  destruct (getCachedResult addr now c) as [[loc |] c1]; [reflexivity |].
  destruct (String.length (JsString.trim addr) =? 0); [reflexivity |].
  destruct (negb (truthy (GOOGLE_MAPS_API_KEY w))); reflexivity.
Qed.

Lemma startAll_requests w now (chunk : list string) st :
  providerRequests (trace (snd (startAll w now chunk st))) =
  providerRequests (trace st) ++
  map ProviderRequest (awaited (fst (startAll w now chunk st))).
Proof.
  revert st. induction chunk as [| addr chunk IH]; intros st; cbn [startAll].
  - simpl. now rewrite app_nil_r.
  - pose proof (geocodeAddressStart_requests w now addr (cache st)) as Hs.
    destruct (geocodeAddressStart w now addr (cache st)) as [[s c1] tr].
    cbn [fst snd] in Hs.
    specialize (IH (mkBatchState (results st) (errors st) c1 (trace st ++ tr))).
    destruct (startAll w now chunk
                (mkBatchState (results st) (errors st) c1 (trace st ++ tr)))
      as [started st2].
    cbn [fst snd trace] in *. rewrite IH. unfold providerRequests in *.
    rewrite filter_app, Hs, <- app_assoc.
    destruct s; reflexivity.
Qed.

Lemma settleDone_trace (started : list (string * Started)) st :
  trace (settleDone started st) = trace st /\
  cache (settleDone started st) = cache st.
Proof.
  revert st. induction started as [| [addr s] started IH]; intros st;
    cbn [settleDone]; [now split |].
  destruct s as [r |]; [| apply IH].
  destruct (IH (settle addr r st)) as [-> ->]. destruct r; now split.
Qed.

Lemma finishAll_requests w now (arrivals : list string) st :
  providerRequests (trace (finishAll w now arrivals st)) =
  providerRequests (trace st).
Proof.
  revert st. induction arrivals as [| addr arrivals IH]; intros st;
    cbn [finishAll]; [reflexivity |].
  pose proof (geocodeAddressFinish_requests w
                (now + Z.of_nat (latency w addr)) addr (cache st)) as Hf.
  destruct (geocodeAddressFinish w (now + Z.of_nat (latency w addr)) addr
              (cache st)) as [[r c1] tr].
  cbn [snd] in Hf. rewrite IH. unfold providerRequests in *.
  destruct r; cbn [settle trace]; now rewrite filter_app, Hf, app_nil_r.
Qed.

Lemma processChunk_askedOnce w now (chunk : list string) st
    (S : list string) :
  askedOnce S st -> NoDup chunk -> (forall x, In x chunk -> ~ In x S) ->
  askedOnce (S ++ chunk) (fst (processChunk w now chunk st)).
Proof.
  intros (asked & Hreq & Hnd & Hincl) Hchunk Hnew. unfold processChunk.
  destruct (startAll_spec w now chunk st) as (Hfst & _ & _).
  pose proof (startAll_requests w now chunk st) as Hstart.
  destruct (startAll w now chunk st) as [started st1]. cbn [fst snd] in *.
  rewrite <- Hfst in Hchunk.
  destruct (started_split started Hchunk) as (_ & Hw & Hsplit & _).
  exists (asked ++ awaited started). repeat split.
  - rewrite finishAll_requests.
    rewrite (proj1 (settleDone_trace started st1)).
    now rewrite Hstart, Hreq, map_app.
  - apply NoDup_app; trivial. intros x Hx Hy.
    apply (Hnew x); [| now apply Hincl].
    rewrite <- Hfst. apply Hsplit. now right.
  - intros x Hx. apply in_app_iff. apply in_app_iff in Hx as [Hx | Hx].
    + left. now apply Hincl.
    + right. rewrite <- Hfst. apply Hsplit. now right.
Qed.

(** X11.  A batch asks the provider at most once for each distinct
    address, and only for addresses of its input: duplicates in the input
    cost no extra request. *)
Theorem batch_requests_once (w : World) (addresses : list string)
    (parallel : nat) (now : Z) (c : Cache) :
  0 < parallel ->
  exists run asked,
    batchGeocodeAddresses w addresses parallel now c = Some run /\
    providerRequests (effects run) = map ProviderRequest asked /\
    NoDup asked /\
    incl asked addresses /\
    List.length asked <= List.length (uniqueOf addresses).
Proof.
  intros Hpar. unfold batchGeocodeAddresses.
  destruct (batchLoop_invariant askedOnce w parallel (uniqueOf addresses)
              (fun S chunk t st => processChunk_askedOnce w t chunk st S)
              (uniqueOf_NoDup addresses) Hpar
              (S (List.length (uniqueOf addresses))) 0 now
              (mkBatchState [] [] c []))
    as (st & -> & asked & Hreq & Hnd & Hincl).
  - lia.
  - exists []. repeat split; [constructor | intros x []].
  - eexists. exists asked. split; [reflexivity |]. cbn [effects].
    repeat split; trivial.
    + unfold providerRequests in *. rewrite filter_app, Hreq.
      destruct (0 <? JsMap.size (errors st)); simpl; now rewrite app_nil_r.
    + intros x Hx. apply uniqueOf_In. now apply Hincl.
    + now apply NoDup_incl_length.
Qed.

Lemma batch_requests_once_witness :
  exists run asked,
    batchGeocodeAddresses parisWorld ["Paris"; "Atlantis"; "Paris"]%string 5 0 [] =
      Some run /\
    providerRequests (effects run) = map ProviderRequest asked /\
    NoDup asked /\
    incl asked ["Paris"; "Atlantis"; "Paris"]%string /\
    List.length asked <= List.length (uniqueOf ["Paris"; "Atlantis"; "Paris"]%string).
Proof.
  apply (batch_requests_once parisWorld ["Paris"; "Atlantis"; "Paris"]%string
           5 0 []).
  lia.
Defined.

Lemma settle_keys addr (r : Settled GeocodedLocation) st :
  NoDup (JsMap.keys (results st)) /\ NoDup (JsMap.keys (errors st)) ->
  NoDup (JsMap.keys (results (settle addr r st))) /\
  NoDup (JsMap.keys (errors (settle addr r st))).
Proof.
  intros [Hr He]. destruct r; cbn [settle results errors]; split; trivial;
    now apply NoDup_keys_set.
Qed.

Lemma settleDone_keys (started : list (string * Started)) st :
  NoDup (JsMap.keys (results st)) /\ NoDup (JsMap.keys (errors st)) ->
  NoDup (JsMap.keys (results (settleDone started st))) /\
  NoDup (JsMap.keys (errors (settleDone started st))).
Proof.
  revert st. induction started as [| [addr s] started IH]; intros st H;
    cbn [settleDone]; [exact H |].
  destruct s as [r |]; [| now apply IH]. now apply IH, settle_keys.
Qed.

Lemma finishAll_keys w now (arrivals : list string) st :
  NoDup (JsMap.keys (results st)) /\ NoDup (JsMap.keys (errors st)) ->
  NoDup (JsMap.keys (results (finishAll w now arrivals st))) /\
  NoDup (JsMap.keys (errors (finishAll w now arrivals st))).
Proof.
  revert st. induction arrivals as [| addr arrivals IH]; intros st H;
    cbn [finishAll]; [exact H |].
  destruct (geocodeAddressFinish w (now + Z.of_nat (latency w addr)) addr
              (cache st)) as [[r c1] tr].
  apply IH. now apply settle_keys.
Qed.

Lemma processChunk_wellSplit w now (chunk : list string) st
    (S : list string) :
  wellSplit S st -> NoDup chunk -> (forall x, In x chunk -> ~ In x S) ->
  wellSplit (S ++ chunk) (fst (processChunk w now chunk st)).
Proof.
  intros (Hpart & Hr & He) Hchunk Hnew. split.
  - now apply processChunk_partitioned.
  - unfold processChunk.
    destruct (startAll_spec w now chunk st) as (_ & Hres & Herr).
    destruct (startAll w now chunk st) as [started st1]. cbn [fst snd] in *.
    apply finishAll_keys, settleDone_keys. now rewrite Hres, Herr.
Qed.

Lemma has_true_iff {V : Type} (m : JsMap.t V) (a : string) :
  JsMap.has a m = true <-> In a (JsMap.keys m).
Proof.
  unfold JsMap.has. pose proof (get_none_iff m a) as H.
  destruct (JsMap.get a m); split; intros H'; try reflexivity.
  - destruct (in_dec string_dec a (JsMap.keys m)) as [Hin | Hout]; trivial.
    apply H in Hout. discriminate Hout.
  - discriminate H'.
  - exfalso. now apply (proj1 H).
Qed.

(** The two maps together hold as many entries as there are addresses. *)
Lemma wellSplit_sizes (S : list string) st :
  wellSplit S st -> NoDup S ->
  JsMap.size (results st) + JsMap.size (errors st) = List.length S.
Proof.
  intros (Hpart & Hr & He) HS. unfold JsMap.size.
  rewrite <- (length_map fst (results st)), <- (length_map fst (errors st)).
  rewrite <- length_app. apply Permutation_length, NoDup_Permutation; trivial.
  - apply NoDup_app; trivial. intros a Ha Hb.
    destruct (Hpart a) as [_ Hboth].
    apply (has_true_iff (results st)) in Ha.
    apply (has_true_iff (errors st)) in Hb.
    rewrite Ha, Hb in Hboth. discriminate Hboth.
  - intros a. destruct (Hpart a) as [Hone _].
    rewrite <- Hone, orb_true_iff, in_app_iff, !has_true_iff. reflexivity.
Qed.

Lemma batch_sizes w (addresses : list string) (parallel : nat) (now : Z)
    (c : Cache) :
  0 < parallel ->
  exists run,
    batchGeocodeAddresses w addresses parallel now c = Some run /\
    JsMap.size (returned run) + JsMap.size (dropped run) =
      List.length (uniqueOf addresses).
Proof.
  intros Hpar. unfold batchGeocodeAddresses.
  destruct (batchLoop_invariant wellSplit w parallel (uniqueOf addresses)
              (fun S chunk t st => processChunk_wellSplit w t chunk st S)
              (uniqueOf_NoDup addresses) Hpar
              (S (List.length (uniqueOf addresses))) 0 now
              (mkBatchState [] [] c []))
    as (st & -> & Hsplit).
  - lia.
  - split; [apply partitioned_start | split; constructor].
  - eexists. split; [reflexivity |]. cbn [returned dropped].
    apply wellSplit_sizes; [exact Hsplit | apply uniqueOf_NoDup].
Qed.


(** X13.  With a chunk size of 0 and at least one address the loop of
    [batchGeocodeAddresses] makes no progress: however many iterations it
    is given it does not reach its end, and the call returns nothing. *)
Theorem batch_zero_chunk_hangs (w : World) (addresses : list string)
    (now : Z) (c : Cache) :
  addresses <> [] ->
  (forall fuel t st, batchLoop fuel w 0 (uniqueOf addresses) 0 t st = None) /\
  batchGeocodeAddresses w addresses 0 now c = None.
Proof.
  intros Hne.
  assert (Hu : uniqueOf addresses <> []).
  { destruct addresses as [| a l]; [congruence |].
    intros E. assert (Hin : In a (uniqueOf (a :: l)))
      by (apply uniqueOf_In; now left).
    rewrite E in Hin. destruct Hin. }
  split.
  - intros fuel t st. now apply batchLoop_zero.
  - unfold batchGeocodeAddresses. now rewrite batchLoop_zero.
Qed.

Lemma batch_zero_chunk_hangs_witness :
  batchGeocodeAddresses parisWorld ["Paris"%string] 0 0 [] = None.
Proof.
  apply (batch_zero_chunk_hangs parisWorld ["Paris"%string] 0 []).
  discriminate.
Defined.

Lemma geocodeAddressStart_bounded w now addr (c : Cache) :
  cacheBounded c ->
  cacheBounded (snd (fst (geocodeAddressStart w now addr c))).
Proof.
  intros H. rewrite geocodeAddressStart_cache.
  apply (runCall_bounded now (CallGet addr) c H).
Qed.

Lemma geocodeAddressFinish_bounded w now addr (c : Cache) :
  cacheBounded c ->
  cacheBounded (snd (fst (geocodeAddressFinish w now addr c))).
Proof.
  intros H. unfold geocodeAddressFinish.
  destruct (fetch w addr) as [m | ok status [m | payload]]; [exact H | |].
  - destruct (negb ok); exact H.
  - destruct (negb ok); [exact H |].
    destruct (truthy (Google.error_message payload)); [exact H |].
    destruct (Google.results payload) as [[| r rs] |]; try exact H.
    apply (runCall_bounded now (CallPut addr (locationOf addr r)) c H).
Qed.

Lemma startAll_bounded w now (chunk : list string) st :
  cacheBounded (cache st) ->
  cacheBounded (cache (snd (startAll w now chunk st))).
Proof.
  revert st. induction chunk as [| addr chunk IH]; intros st H;
    cbn [startAll]; [exact H |].
  pose proof (geocodeAddressStart_bounded w now addr (cache st) H) as Hs.
  destruct (geocodeAddressStart w now addr (cache st)) as [[s c1] tr].
  cbn [fst snd] in Hs.
  specialize (IH (mkBatchState (results st) (errors st) c1 (trace st ++ tr)) Hs).
  destruct (startAll w now chunk
              (mkBatchState (results st) (errors st) c1 (trace st ++ tr)))
    as [started st2].
  exact IH.
Qed.

Lemma finishAll_bounded w now (arrivals : list string) st :
  cacheBounded (cache st) ->
  cacheBounded (cache (finishAll w now arrivals st)).
Proof.
  revert st. induction arrivals as [| addr arrivals IH]; intros st H;
    cbn [finishAll]; [exact H |].
  pose proof (geocodeAddressFinish_bounded w
                (now + Z.of_nat (latency w addr)) addr (cache st) H) as Hf.
  destruct (geocodeAddressFinish w (now + Z.of_nat (latency w addr)) addr
              (cache st)) as [[r c1] tr].
  cbn [fst snd] in Hf. apply IH. destruct r; exact Hf.
Qed.

Lemma processChunk_bounded w now (chunk : list string) st (S : list string) :
  cacheBoundedIn S st -> NoDup chunk -> (forall x, In x chunk -> ~ In x S) ->
  cacheBoundedIn (S ++ chunk) (fst (processChunk w now chunk st)).
Proof.
  unfold cacheBoundedIn, processChunk. intros H _ _.
  pose proof (startAll_bounded w now chunk st H) as Hs.
  destruct (startAll w now chunk st) as [started st1]. cbn [fst snd] in *.
  apply finishAll_bounded.
  now rewrite (proj2 (settleDone_trace started st1)).
Qed.

(** X14.  A batch keeps the cache within its limit: started on a cache
    without duplicate key and with at most 1000 entries, it leaves such a
    cache, however many addresses it resolves. *)
Theorem batch_cache_bounded (w : World) (addresses : list string)
    (parallel : nat) (now : Z) (c : Cache) :
  0 < parallel ->
  NoDup (JsMap.keys c) ->
  JsMap.size c <= 1000 ->
  exists run,
    batchGeocodeAddresses w addresses parallel now c = Some run /\
    NoDup (JsMap.keys (cacheAfter run)) /\
    JsMap.size (cacheAfter run) <= 1000.
Proof.
  intros Hpar Hnd Hsz. unfold batchGeocodeAddresses.
  destruct (batchLoop_invariant cacheBoundedIn w parallel (uniqueOf addresses)
              (fun S chunk t st => processChunk_bounded w t chunk st S)
              (uniqueOf_NoDup addresses) Hpar
              (S (List.length (uniqueOf addresses))) 0 now
              (mkBatchState [] [] c []))
    as (st & -> & Hb).
  - lia.
  - split; assumption.
  - eexists. split; [reflexivity |]. exact Hb.
Qed.

Lemma batch_cache_bounded_witness :
  exists run,
    batchGeocodeAddresses parisWorld ["Paris"; "Atlantis"]%string 5 0 parisCache =
      Some run /\
    NoDup (JsMap.keys (cacheAfter run)) /\
    JsMap.size (cacheAfter run) <= 1000.
Proof.
  apply (batch_cache_bounded parisWorld ["Paris"; "Atlantis"]%string 5 0
           parisCache).
  - lia.
  - apply distinctb_sound. reflexivity.
  - simpl. lia.
Defined.

End BatchMore.

(** ** What a batch records *)

Section BatchAnswers.
Variables (w : World) (c0 : Cache).
Implicit Types (st : BatchState) (a addr : string) (S : list string).

Lemma sourced_more S S' (key : string) (loc : GeocodedLocation) :
  incl S S' -> sourced w c0 S key loc -> sourced w c0 S' key loc.
Proof.
  intros Hincl [H | (b & Hb & Hk & Hp)]; [now left | right].
  exists b. repeat split; trivial. now apply Hincl.
Qed.

Lemma recorded_more S S' a (r : Settled GeocodedLocation) :
  incl S S' -> recorded w c0 S a r -> recorded w c0 S' a r.
Proof.
  intros Hincl. destruct r as [loc | m]; cbn [recorded]; [| trivial].
  intros [H1 H2]. split; [exact H1 | now apply (sourced_more S)].
Qed.

Lemma faithful_more S S' st :
  incl S S' -> faithful w c0 S st -> faithful w c0 S' st.
Proof.
  intros Hincl (Hc & Hr & He & Hq).
  split; [| split; [| split]]; trivial.
  - intros k e Hin. apply (sourced_more S); auto.
  - intros a loc Hget. apply (recorded_more S); auto.
Qed.

Lemma settle_faithful S st a (r : Settled GeocodedLocation) :
  faithful w c0 S st -> recorded w c0 S a r ->
  faithful w c0 S (settle a r st).
Proof.
  intros (Hc & Hr & He & Hq) Hrec.
  destruct r as [loc | m]; cbn [settle];
    (split; [| split; [| split]]); trivial;
    cbn [results errors]; intros a' v Hget;
    (destruct (String.eqb_spec a' a) as [-> | Hne];
     [rewrite get_set_same in Hget; injection Hget as <-; exact Hrec
     | rewrite get_set_other in Hget by exact Hne; auto]).
Qed.

Lemma quiet_app (tr1 tr2 : list Event) :
  quiet tr1 = true -> quiet tr2 = true -> quiet (tr1 ++ tr2) = true.
Proof. unfold quiet. intros H1 H2. now rewrite forallb_app, H1, H2. Qed.

(** The first parts of the calls of a chunk. *)
Lemma startAll_faithful now (chunk : list string) S st :
  faithful w c0 S st ->
  faithful w c0 S (snd (startAll w now chunk st)) /\
  (forall a r, In (a, Done r) (fst (startAll w now chunk st)) ->
     recorded w c0 S a r) /\
  (forall a, In (a, Awaiting) (fst (startAll w now chunk st)) ->
     hasInk a = true /\ truthy (GOOGLE_MAPS_API_KEY w) = true).
Proof.
  revert st. induction chunk as [| addr chunk IH]; intros st Hst;
    cbn [startAll].
  - cbn [fst snd]. split; [exact Hst |]. split; [intros a r [] | intros a []].
  - pose proof (start_done w now addr (cache st)) as Hdone.
    pose proof (start_awaiting w now addr (cache st)) as Hwait.
    pose proof (start_hit w now addr (cache st)) as Hhit.
    pose proof (start_cache_incl w now addr (cache st)) as Hincl.
    pose proof (start_quiet w now addr (cache st)) as Hquiet.
    destruct (geocodeAddressStart w now addr (cache st)) as [[s c1] tr].
    cbn [fst snd] in Hdone, Hwait, Hhit, Hincl, Hquiet.
    destruct Hst as (Hc & Hr & He & Hq).
    assert (Hst1 : faithful w c0 S
              (mkBatchState (results st) (errors st) c1 (trace st ++ tr))).
    { split; [| split; [| split]]; trivial; cbn [cache trace].
      - intros k e Hin. apply Hc. now apply Hincl.
      - now apply quiet_app. }
    destruct (IH _ Hst1) as (H1 & H2 & H3).
    destruct (startAll w now chunk
                (mkBatchState (results st) (errors st) c1 (trace st ++ tr)))
      as [started st2].
    cbn [fst snd] in *. split; [exact H1 |]. split.
    + intros a r [E | Hin]; [| now apply H2].
      injection E as <- ->.
      destruct r as [loc | m]; cbn [recorded].
      * split; [now apply Hdone |].
        destruct (Hhit loc eq_refl) as (e & Hin & <-). now apply Hc.
      * now apply Hdone.
    + intros a [E | Hin]; [| now apply H3].
      injection E as <- ->. now apply Hwait.
Qed.

Lemma settleDone_faithful (started : list (string * Started)) S st :
  faithful w c0 S st ->
  (forall a r, In (a, Done r) started -> recorded w c0 S a r) ->
  faithful w c0 S (settleDone started st).
Proof.
  revert st. induction started as [| [addr s] started IH]; intros st Hst Hrec;
    cbn [settleDone]; [exact Hst |].
  destruct s as [r |].
  - apply IH; [| intros a r' Hin; apply Hrec; now right].
    apply settle_faithful; [exact Hst |]. apply Hrec. now left.
  - apply IH; [exact Hst |]. intros a r' Hin. apply Hrec. now right.
Qed.

(** The second parts, as the answers arrive. *)
Lemma finishAll_faithful now (arrivals : list string) S st :
  faithful w c0 S st ->
  (forall a, In a arrivals ->
     In a S /\ hasInk a = true /\ truthy (GOOGLE_MAPS_API_KEY w) = true) ->
  faithful w c0 S (finishAll w now arrivals st).
Proof.
  revert st. induction arrivals as [| addr arrivals IH]; intros st Hst Hall;
    cbn [finishAll]; [exact Hst |].
  destruct (Hall addr (or_introl eq_refl)) as (HinS & Hink & Hkey).
  pose proof (finish_settledWith w (now + Z.of_nat (latency w addr)) addr
                (cache st)) as Hset.
  pose proof (finish_cache w (now + Z.of_nat (latency w addr)) addr (cache st))
    as Hcache.
  pose proof (finish_quiet w (now + Z.of_nat (latency w addr)) addr (cache st))
    as Hquiet.
  destruct (geocodeAddressFinish w (now + Z.of_nat (latency w addr)) addr
              (cache st)) as [[r c1] tr].
  unfold settledWith in Hset. cbn [fst snd] in Hset, Hcache, Hquiet.
  apply IH; [| intros a Ha; apply Hall; now right].
  destruct Hst as (Hc & Hr & He & Hq).
  apply settle_faithful.
  - split; [| split; [| split]]; trivial; cbn [cache trace].
    + intros k e Hin. destruct (Hcache (k, e) Hin) as [H | [Hk Hp]]; auto.
      right. exists addr. cbn [fst snd] in Hk, Hp.
      split; [exact HinS | split; [now symmetry | exact Hp]].
    + now apply quiet_app.
  - pose proof (awaited_answers w addr Hink Hkey) as Hans.
    rewrite <- Hset in Hans.
    destruct r as [loc | m]; cbn [recorded]; [| exact Hans].
    split; [exact Hans |]. right. exists addr.
    split; [exact HinS | split; [reflexivity | now rewrite Hset]].
Qed.

Lemma awaited_in (started : list (string * Started)) a :
  In a (awaited started) <-> In (a, Awaiting) started.
Proof.
  induction started as [| [addr s] started IH]; cbn [awaited]; [tauto |].
  destruct s as [r |]; cbn [In]; rewrite IH; split.
  - intros H. now right.
  - intros [E | H]; [discriminate E | exact H].
  - intros [-> | H]; [now left | now right].
  - intros [E | H]; [injection E as ->; now left | now right].
Qed.

Lemma processChunk_faithful now (chunk : list string) st S :
  faithful w c0 S st ->
  faithful w c0 (S ++ chunk) (fst (processChunk w now chunk st)).
Proof.
  intros Hst.
  assert (Hst' : faithful w c0 (S ++ chunk) st).
  { apply (faithful_more S); [| exact Hst]. intros x Hx. apply in_or_app.
    now left. }
  unfold processChunk.
  destruct (startAll_spec w now chunk st) as (Hfst & _ & _).
  destruct (startAll_faithful now chunk (S ++ chunk) st Hst') as (H1 & H2 & H3).
  destruct (startAll w now chunk st) as [started st1]. cbn [fst snd] in *.
  apply finishAll_faithful.
  - now apply settleDone_faithful.
  - intros a Ha.
    apply (Permutation_in _ (sortBy_perm (latencyOf w) (awaited started))) in Ha.
    apply awaited_in in Ha. split; [| now apply H3].
    apply in_or_app. right. rewrite <- Hfst.
    change a with (fst (a, Awaiting)). now apply in_map.
Qed.

Lemma processChunk_settledWell now (chunk : list string) st S :
  settledWell w c0 S st -> NoDup chunk -> (forall x, In x chunk -> ~ In x S) ->
  settledWell w c0 (S ++ chunk) (fst (processChunk w now chunk st)).
Proof.
  intros [Hsplit Hfaith] Hnd Hnew. split.
  - now apply processChunk_wellSplit.
  - now apply processChunk_faithful.
Qed.

End BatchAnswers.

(** What [batchGeocodeAddresses] leaves: its two maps split the distinct
    addresses, each entry is what [geocodeAddress] settled with for its
    address, and the failures are logged last, once. *)
Lemma batch_answers (w : World) (addresses : list string) (parallel : nat)
    (now : Z) (c : Cache) :
  0 < parallel ->
  exists run tr,
    batchGeocodeAddresses w addresses parallel now c = Some run /\
    (forall a,
       (JsMap.has a (returned run) || JsMap.has a (dropped run) = true <->
        In a addresses) /\
       JsMap.has a (returned run) && JsMap.has a (dropped run) = false) /\
    JsMap.size (returned run) + JsMap.size (dropped run) =
      List.length (uniqueOf addresses) /\
    (forall a loc, JsMap.get a (returned run) = Some loc ->
       answers w a (Fulfilled loc) /\
       sourced w c addresses (getCacheKey a) loc) /\
    (forall a m, JsMap.get a (dropped run) = Some m ->
       answers w a (Rejected m)) /\
    effects run =
      tr ++ (if 0 <? JsMap.size (dropped run)
             then [ConsoleWarn (dropped run)] else []) /\
    quiet tr = true.
Proof.
  intros Hpar. unfold batchGeocodeAddresses.
  destruct (batchLoop_invariant (settledWell w c) w parallel (uniqueOf addresses)
              (fun S chunk t st => processChunk_settledWell w c t chunk st S)
              (uniqueOf_NoDup addresses) Hpar
              (S (List.length (uniqueOf addresses))) 0 now
              (mkBatchState [] [] c []))
    as (st & -> & Hsplit & Hc & Hr & He & Hq).
  - lia.
  - split; [split; [apply partitioned_start | split; constructor] |].
    split; [| split; [| split]]; cbn [cache results errors trace];
      try discriminate; [| reflexivity].
    intros k e Hin. left. now exists e.
  - eexists. exists (trace st). split; [reflexivity |].
    cbn [returned dropped effects].
    assert (Hincl : incl (uniqueOf addresses) addresses).
    { intros x. apply uniqueOf_In. }
    split; [| split; [| split; [| split; [| split]]]].
    + intros a. destruct Hsplit as (Hpart & _). destruct (Hpart a) as [H1 H2].
      split; [| exact H2]. now rewrite H1, uniqueOf_In.
    + apply wellSplit_sizes; [exact Hsplit | apply uniqueOf_NoDup].
    + intros a loc Hget. destruct (Hr a loc Hget) as [H1 H2].
      split; [exact H1 |]. now apply (sourced_more w c _ _ _ _ Hincl).
    + intros a m Hget. exact (He a m Hget).
    + reflexivity.
    + exact Hq.
Qed.

(** C1, as the code has it.  For every list of addresses and every positive
    chunk size, [batchGeocodeAddresses] returns; every distinct address of
    the input has then been recorded in exactly one of its two maps, and
    nothing else has: in [results] with the location that [geocodeAddress]
    answered for it (a location of the initial cache, or the answer of the
    provider for an address of the batch with the same key), in [errors]
    with the message of the error that [geocodeAddress] failed with.  The
    value returned is the [results] map alone: the failed addresses are
    those of the input that are not among its keys, and the [errors] map
    is only logged, by one [console.warn] at the end when it is not empty. *)
Theorem batch_partition (w : World) (addresses : list string) (parallel : nat)
    (now : Z) (c : Cache) :
  0 < parallel ->
  exists run tr,
    batchGeocodeAddresses w addresses parallel now c = Some run /\
    (forall a, In a addresses ->
       JsMap.has a (returned run) = negb (JsMap.has a (dropped run))) /\
    (forall a, JsMap.has a (returned run) = true \/
               JsMap.has a (dropped run) = true -> In a addresses) /\
    (forall a loc, JsMap.get a (returned run) = Some loc ->
       answers w a (Fulfilled loc) /\
       sourced w c addresses (getCacheKey a) loc) /\
    (forall a m, JsMap.get a (dropped run) = Some m ->
       answers w a (Rejected m)) /\
    effects run =
      tr ++ (if 0 <? JsMap.size (dropped run)
             then [ConsoleWarn (dropped run)] else []) /\
    quiet tr = true.
Proof.
  intros Hpar.
  destruct (batch_answers w addresses parallel now c Hpar)
    as (run & tr & Hrun & Hsplit & _ & Hok & Hko & Heff & Hq).
  exists run, tr.
  split; [exact Hrun |]. split; [| split; [| split; [| split; [| split]]]];
    trivial.
  - intros a Hin. destruct (Hsplit a) as [H1 H2]. apply H1 in Hin.
    destruct (JsMap.has a (returned run)), (JsMap.has a (dropped run));
      simpl in *; congruence.
  - intros a H. apply (proj1 (Hsplit a)). apply orb_true_iff. exact H.
Qed.

Lemma batch_partition_counterexample :
  option_map returned
    (batchGeocodeAddresses parisWorld ["Paris"; "Atlantis"; "Paris"]%string 5 0 []) =
    Some [("Paris"%string, paris)] /\
  option_map dropped
    (batchGeocodeAddresses parisWorld ["Paris"; "Atlantis"; "Paris"]%string 5 0 []) =
    Some [("Atlantis"%string, notFound "Atlantis")].
Proof. split; reflexivity. Qed.

Lemma batch_partition_witness :
  exists run tr,
    batchGeocodeAddresses parisWorld ["Paris"; "Atlantis"; "Paris"]%string 5 0 [] =
      Some run /\
    (forall a, In a ["Paris"; "Atlantis"; "Paris"]%string ->
       JsMap.has a (returned run) = negb (JsMap.has a (dropped run))) /\
    (forall a, JsMap.has a (returned run) = true \/
               JsMap.has a (dropped run) = true ->
               In a ["Paris"; "Atlantis"; "Paris"]%string) /\
    (forall a loc, JsMap.get a (returned run) = Some loc ->
       answers parisWorld a (Fulfilled loc) /\
       sourced parisWorld [] ["Paris"; "Atlantis"; "Paris"]%string
               (getCacheKey a) loc) /\
    (forall a m, JsMap.get a (dropped run) = Some m ->
       answers parisWorld a (Rejected m)) /\
    effects run =
      tr ++ (if 0 <? JsMap.size (dropped run)
             then [ConsoleWarn (dropped run)] else []) /\
    quiet tr = true.
Proof.
  apply (batch_partition parisWorld ["Paris"; "Atlantis"; "Paris"]%string 5 0 []).
  lia.
Defined.



(** ** Enriching events *)

Section Enrich.
Implicit Types (w : World) (c : Cache).

Example enrich_sample :
  enrichEventsWithLocations parisWorld 0 [standup; remote; review] [] =
    (Some [mkEventWithLocation standup (Some paris) None;
           mkEventWithLocation review (Some paris) None],
     [("paris"%string, mkCacheEntry paris 120 CACHE_TTL)],
     [CacheRead "paris"; ProviderRequest "Paris";
      CacheRead "paris"; ProviderRequest "Paris";
      CacheWrite "paris"; CacheWrite "paris"]).
Proof. reflexivity. Qed.

















End Enrich.

(** ** The route handler on degenerate addresses *)

Section Degenerate.

Lemma blank_noComma (s : string) : hasInk s = false -> noComma s = true.
Proof.
  unfold noComma. induction s as [| ch s IH]; cbn [hasInk allChars];
    [reflexivity |].
  rewrite orb_false_iff, negb_false_iff. intros [Hch Hs].
  rewrite (IH Hs), andb_true_r.
  destruct ch as [[] [] [] [] [] [] [] []]; vm_compute in Hch |- *;
    first [reflexivity | discriminate Hch].
Qed.

(** A blank address holds no coordinates and is rejected by
    [geocodeAddress] after its cache lookup. *)
Lemma parse_blank (addr : string) :
  hasInk addr = false ->
  parseCoordinatesFromLocation addr = mkParsed addr None /\
  (forall w now c,
     JsMap.get EmptyString c = None ->
     geocodeAddress w now addr c =
       (Rejected "Address is required", c, [CacheRead EmptyString])).
Proof.
  intros Hblank. split.
  - unfold parseCoordinatesFromLocation, exec.
    rewrite (execFrom_fails parenPattern addr parenPattern_needs_comma
               (blank_noComma addr Hblank)).
    rewrite (execFrom_fails coordPattern addr coordPattern_needs_comma
               (blank_noComma addr Hblank)).
    reflexivity.
  - intros w now c Habsent.
    assert (Hlen : String.length (JsString.trim addr) = 0)
      by now apply trim_empty_iff.
    unfold geocodeAddress, geocodeAddressStart.
    rewrite (blank_key addr Hlen), Hlen.
    rewrite getCachedResult_absent by now rewrite blank_key.
    reflexivity.
Qed.

(** X17.  The single-address path of the route handler on degenerate
    input: a missing, non-string or empty address is answered with status
    400 without any cache access or provider request; an address made of
    white space only passes that test, is looked up in the cache under the
    empty key and, no entry being stored there, is answered with status
    404 and the message 'Address is required'. *)
Theorem POST_degenerate_address (w : World) (now : Z) (c : Cache) :
  (forall v,
     (forall s, v = VString s -> s = EmptyString) ->
     POST w now (mkBody v VUndefined VUndefined) c =
       (ErrorResponse 400 "Bad request"
          "address parameter is required and must be a string", c, [])) /\
  (forall addr,
     addr <> EmptyString -> hasInk addr = false ->
     JsMap.get EmptyString c = None ->
     POST w now (singleRequest addr) c =
       (ErrorResponse 404 "Geocoding failed" "Address is required", c,
        [CacheRead EmptyString])).
Proof.
  split.
  - intros v Hv. unfold POST. cbn [bodyAddress bodyAddresses].
    destruct v as [| s | items | b]; try reflexivity.
    now rewrite (Hv s eq_refl).
  - intros addr Hne Hblank Habsent.
    unfold POST, singleRequest. cbn [bodyAddress bodyAddresses].
    destruct addr as [| ch addr']; [congruence |].
    cbn [String.length Nat.eqb].
    rewrite (proj1 (parse_blank (String ch addr') Hblank)).
    cbn [parsedCoordinates].
    rewrite (proj2 (parse_blank (String ch addr') Hblank) w now c Habsent).
    reflexivity.
Qed.

Lemma POST_degenerate_address_witness :
  POST parisWorld 0 (singleRequest "   ") parisCache =
    (ErrorResponse 404 "Geocoding failed" "Address is required", parisCache,
     [CacheRead EmptyString]).
Proof.
  apply (POST_degenerate_address parisWorld 0 parisCache); reflexivity || discriminate.
Defined.

End Degenerate.

(** ** The embedded-coordinate shortcut of the route handler *)

Section Shortcut.

Lemma geocodeAddress_trace (w : World) (now : Z) (addr : string) (c : Cache) :
  exists tr,
    snd (geocodeAddress w now addr c) = CacheRead (getCacheKey addr) :: tr.
Proof.
  unfold geocodeAddress, geocodeAddressStart.
  destruct (getCachedResult addr now c) as [[loc |] c1]; [now eexists |].
  destruct (String.length (JsString.trim addr) =? 0); [now eexists |].
  destruct (negb (truthy (GOOGLE_MAPS_API_KEY w))); [now eexists |].
  destruct (geocodeAddressFinish w (now + Z.of_nat (latency w addr)) addr c1)
    as [[r c2] tr2].
  now eexists.
Qed.

Lemma answerOf_trace (run : Settled GeocodedLocation * Cache * list Event) :
  snd (answerOf run) = snd run.
Proof. destruct run as [[[loc | m] c1] tr]; reflexivity. Qed.

(** Coordinates in range are finite. *)
Lemma isValidCoordinates_finite (la ln : Double.number) :
  isValidCoordinates la ln = true ->
  Double.Finite (Double.value la) = la /\ Double.Finite (Double.value ln) = ln.
Proof.
  unfold isValidCoordinates. rewrite !andb_true_iff.
  intros [[[H1 H2] H3] H4].
  destruct la, ln; try discriminate; split; reflexivity.
Qed.

(** C4, as the code has it.  The shortcut is in the route handler: when
    the parser finds a coordinate pair in the address and the pair passes
    the range validation, the single-address path of [POST] answers with
    the synthesized location, whose coordinates are the pair,
    [formattedAddress] the address itself, without [placeId] or
    [components]; the cache is neither read nor written and no provider
    request is made.  [geocodeAddress] has no shortcut: called on such an
    address it looks it up in the cache, and on a miss, the key being
    configured, sends it to the provider. *)
Theorem shortcut_resolves (w : World) (now : Z) (addr : string) (c : Cache)
    (coords : LatLng) :
  parsedCoordinates (parseCoordinatesFromLocation addr) = Some coords ->
  isValidCoordinates (latitude coords) (longitude coords) = true ->
  POST w now (singleRequest addr) c =
    (GeocodingOk
       (mkGeocodedLocation addr addr (coordinatesOfLatLng coords) None None),
     c, []) /\
  Double.Finite (lat (coordinatesOfLatLng coords)) = latitude coords /\
  Double.Finite (lng (coordinatesOfLatLng coords)) = longitude coords /\
  (exists tr,
     snd (geocodeAddress w now addr c) = CacheRead (getCacheKey addr) :: tr) /\
  (fst (getCachedResult addr now c) = None ->
   truthy (GOOGLE_MAPS_API_KEY w) = true ->
   exists tr,
     snd (geocodeAddress w now addr c) =
       CacheRead (getCacheKey addr) :: ProviderRequest addr :: tr).
Proof.
  intros Hparse Hvalid.
  destruct (isValidCoordinates_finite _ _ Hvalid) as [Hla Hln].
  repeat split; trivial.
  - unfold POST, singleRequest; cbn [bodyAddress bodyAddresses].
    destruct addr as [| ch addr']; [discriminate Hparse |].
    cbn [String.length Nat.eqb]. rewrite Hparse, Hvalid. reflexivity.
  - apply geocodeAddress_trace.
  - intros Hmiss Hkey.
    assert (Hink : hasInk addr = true).
    { destruct (hasInk addr) eqn:E; [reflexivity |].
      rewrite (proj1 (parse_blank addr E)) in Hparse. discriminate Hparse. }
    rewrite (geocodeAddress_asks w now addr c Hmiss Hink Hkey).
    destruct (geocodeAddressFinish w (now + Z.of_nat (latency w addr)) addr
                (snd (getCachedResult addr now c))) as [[r c2] tr2].
    now exists tr2.
Qed.

Lemma shortcut_resolves_counterexample :
  parsedCoordinates (parseCoordinatesFromLocation "40.7128,-74.0060") =
    Some (mkLatLng (Double.round (407128 # 10000))
                   (Double.round (-740060 # 10000))) /\
  isValidCoordinates (Double.round (407128 # 10000))
                     (Double.round (-740060 # 10000)) = true /\
  geocodeAddress newYorkWorld 0 "40.7128,-74.0060" [] =
    (Fulfilled (locationOf "40.7128,-74.0060" newYorkResult),
     [("40.7128,-74.0060"%string,
       mkCacheEntry (locationOf "40.7128,-74.0060" newYorkResult) 120 CACHE_TTL)],
     [CacheRead "40.7128,-74.0060"; ProviderRequest "40.7128,-74.0060";
      CacheWrite "40.7128,-74.0060"]) /\
  formattedAddress (locationOf "40.7128,-74.0060" newYorkResult) =
    "New York, NY, USA"%string /\
  placeId (locationOf "40.7128,-74.0060" newYorkResult) = Some "place-nyc"%string.
Proof. repeat split; vm_compute; reflexivity. Qed.

Lemma shortcut_resolves_witness :
  POST unconfigured 0
       (singleRequest "Conference Room (37.7749, -122.4194)") parisCache =
    (GeocodingOk
       (mkGeocodedLocation "Conference Room (37.7749, -122.4194)"
          "Conference Room (37.7749, -122.4194)"
          (mkCoordinates (Double.value (Double.round (377749 # 10000)))
                         (Double.value (Double.round (-1224194 # 10000))))
          None None),
     parisCache, []).
Proof.
  apply (shortcut_resolves unconfigured 0
           "Conference Room (37.7749, -122.4194)" parisCache
           (mkLatLng (Double.round (377749 # 10000))
                     (Double.round (-1224194 # 10000))));
    vm_compute; reflexivity.
Defined.

(** What [geocodeAddress] does with the first candidate of the provider. *)
Lemma geocodeAddress_candidate (w : World) (now : Z) (addr : string)
    (c : Cache) (status : Z) (message : option string)
    (r : Google.Result) (rest : list Google.Result) :
  fst (getCachedResult addr now c) = None ->
  hasInk addr = true ->
  truthy (GOOGLE_MAPS_API_KEY w) = true ->
  fetch w addr =
    Google.FetchResponse true status
      (inr (Google.mkPayload message (Some (r :: rest)))) ->
  truthy message = false ->
  geocodeAddress w now addr c =
    (Fulfilled (locationOf addr r),
     cacheResult addr (locationOf addr r) (now + Z.of_nat (latency w addr))
       (snd (getCachedResult addr now c)),
     [CacheRead (getCacheKey addr); ProviderRequest addr;
      CacheWrite (getCacheKey addr)]).
Proof.
  intros Hmiss Hink Hkey Hfetch Hmsg.
  rewrite (geocodeAddress_asks w now addr c Hmiss Hink Hkey).
  unfold geocodeAddressFinish. rewrite Hfetch. cbn [negb Google.error_message].
  rewrite Hmsg. reflexivity.
Qed.

(** C2, as the code has it.  The shortcut never answers with coordinates
    out of range and never touches the cache: a success of the handler
    that made no cache access and no provider request has coordinates in
    range and leaves the cache as it was, and an address whose embedded
    pair is out of range is answered by [geocodeAddress].  The candidate
    of the provider is not range-checked: whatever its coordinates,
    [geocodeAddress] stores it in the cache and returns it. *)
Theorem shortcut_rejects_invalid (w : World) (now : Z) (addr : string)
    (c : Cache) :
  (forall loc c1,
     POST w now (singleRequest addr) c = (GeocodingOk loc, c1, []) ->
     isValidCoordinates (Double.Finite (lat (coordinates loc)))
                        (Double.Finite (lng (coordinates loc))) = true /\
     c1 = c) /\
  (forall coords,
     parsedCoordinates (parseCoordinatesFromLocation addr) = Some coords ->
     isValidCoordinates (latitude coords) (longitude coords) = false ->
     POST w now (singleRequest addr) c = answerOf (geocodeAddress w now addr c)) /\
  (forall status message r rest,
     fst (getCachedResult addr now c) = None ->
     hasInk addr = true ->
     truthy (GOOGLE_MAPS_API_KEY w) = true ->
     fetch w addr =
       Google.FetchResponse true status
         (inr (Google.mkPayload message (Some (r :: rest)))) ->
     truthy message = false ->
     geocodeAddress w now addr c =
       (Fulfilled (locationOf addr r),
        cacheResult addr (locationOf addr r) (now + Z.of_nat (latency w addr))
          (snd (getCachedResult addr now c)),
        [CacheRead (getCacheKey addr); ProviderRequest addr;
         CacheWrite (getCacheKey addr)]) /\
     coordinates (locationOf addr r) = Google.location r).
Proof.
  split; [| split].
  - intros loc c1. unfold POST, singleRequest; cbn [bodyAddress bodyAddresses].
    destruct (geocodeAddress_trace w now addr c) as [tr Htr].
    rewrite <- answerOf_trace in Htr.
    destruct (String.length addr =? 0); [discriminate |].
    destruct (parsedCoordinates (parseCoordinatesFromLocation addr))
      as [coords |].
    + destruct (isValidCoordinates (latitude coords) (longitude coords))
        eqn:Hvalid.
      * intros [= <- <-]. split; [| reflexivity].
        cbn [coordinates coordinatesOfLatLng lat lng].
        destruct (isValidCoordinates_finite _ _ Hvalid) as [-> ->].
        exact Hvalid.
      * intros H. rewrite H in Htr. discriminate Htr.
    + intros H. rewrite H in Htr. discriminate Htr.
  - intros coords Hparse Hvalid.
    unfold POST, singleRequest; cbn [bodyAddress bodyAddresses].
    destruct addr as [| ch addr']; [discriminate Hparse |].
    cbn [String.length Nat.eqb]. rewrite Hparse, Hvalid. reflexivity.
  - intros status message r rest Hmiss Hink Hkey Hfetch Hmsg.
    split; [| reflexivity].
    now apply (geocodeAddress_candidate w now addr c status message r rest).
Qed.

Lemma shortcut_rejects_invalid_counterexample :
  geocodeAddress polarWorld 0 "Far North" [] =
    (Fulfilled (mkGeocodedLocation "Far North" "Beyond the pole"
                  (mkCoordinates (91 # 1) (0 # 1)) None None),
     [("far north"%string,
       mkCacheEntry (mkGeocodedLocation "Far North" "Beyond the pole"
                       (mkCoordinates (91 # 1) (0 # 1)) None None)
                    120 CACHE_TTL)],
     [CacheRead "far north"; ProviderRequest "Far North";
      CacheWrite "far north"]) /\
  isValidCoordinates (Double.Finite (91 # 1)) (Double.Finite (0 # 1)) = false.
Proof. split; reflexivity. Qed.

Lemma shortcut_rejects_invalid_witness :
  POST polarWorld 0 (singleRequest "91,0") [] =
    answerOf (geocodeAddress polarWorld 0 "91,0" []).
Proof.
  apply (proj1 (proj2 (shortcut_rejects_invalid polarWorld 0 "91,0" []))
           (mkLatLng (Double.Finite (91 # 1)) (Double.Finite (0 # 1))));
    vm_compute; reflexivity.
Defined.

End Shortcut.


(** ** Address components *)

Section AddressComponents.

Lemma lastWhere_snoc {A : Type} (p : A -> bool) (l : list A) (x : A) :
  lastWhere p (l ++ [x]) = if p x then Some x else lastWhere p l.
Proof. unfold lastWhere. rewrite rev_app_distr. reflexivity. Qed.

Lemma components_fold (l : list Google.AddressComponent) :
  let found := fold_left addComponent l noComponents in
  country found = option_map Google.long_name (lastWhere filedAsCountry l) /\
  state found = option_map Google.short_name (lastWhere filedAsState l) /\
  city found = option_map Google.long_name (lastWhere filedAsCity l) /\
  street found = option_map Google.long_name (lastWhere filedAsStreet l).
Proof.
  induction l as [| x l IH] using rev_ind; [repeat split |].
  rewrite fold_left_app. cbn [fold_left]. rewrite !lastWhere_snoc.
  destruct IH as (H1 & H2 & H3 & H4).
  unfold addComponent, filedAsCountry, filedAsState, filedAsCity,
    filedAsStreet, typed.
  destruct (includes "country" (Google.types x)); cbn [negb andb];
    [cbn; repeat split; assumption |].
  destruct (includes "administrative_area_level_1" (Google.types x));
    cbn [negb andb]; [cbn; repeat split; assumption |].
  destruct (includes "locality" (Google.types x)); cbn [negb andb];
    [cbn; repeat split; assumption |].
  destruct (includes "route" (Google.types x)); cbn [negb andb];
    [cbn; repeat split; assumption |].
  repeat split; assumption.
Qed.

(** X18.  The address components of a result are read best-effort: each
    component is filed under the first of country, state, city and street
    whose type it has, and each field of the location is taken from the
    last component filed under it (long name, short name for the state);
    when no component is filed anywhere, or the provider sent none, the
    location has no components at all. *)
Theorem componentsOf_last_wins (r : Google.Result) :
  match Google.address_components r with
  | None => componentsOf r = None
  | Some l =>
      let found :=
        mkComponents
          (option_map Google.long_name (lastWhere filedAsCountry l))
          (option_map Google.short_name (lastWhere filedAsState l))
          (option_map Google.long_name (lastWhere filedAsCity l))
          (option_map Google.long_name (lastWhere filedAsStreet l)) in
      componentsOf r = if hasKeys found then Some found else None
  end.
Proof.
  unfold componentsOf. destruct (Google.address_components r) as [l |];
    [| reflexivity].
  destruct (components_fold l) as (H1 & H2 & H3 & H4).
  cbv zeta in *.
  destruct (fold_left addComponent l noComponents) as [co st ci sr].
  cbn [country state city street] in *. now subst.
Qed.

End AddressComponents.
